(** * Adaptive remeshing kernel of Dilay: topological edits of
      [lib/src/tool/sculpt/util/action.cpp]

    The sculpting action edits an indexed triangle mesh ([DynamicMesh]) through
    a face region ([DynamicFaces]).  Both classes are declared in
    [dynamic/mesh.hpp] and [dynamic/faces.hpp]; their behaviour is taken from
    the specification (section 4.1 and 4.2) and from what [action.cpp] asserts
    about them.  Everything in the anonymous namespace of [action.cpp] that the
    properties below talk about is embedded function by function.

    Conventions.
    - [unsigned int] indices are [nat]; [Util::invalidIndex ()] is [None].
    - A failed [assert] or [DILAY_IMPOSSIBLE] aborts: the embedded function
      returns [None].
    - A [DynamicMesh&] parameter is threaded: the function returns the new mesh. *)

From Stdlib Require Import ZArith QArith Reals Lra List Lia Bool.
From stdpp Require Import base option list gmap.

Set Default Proof Using "Type".

(** Assertions of the source abort the computation. *)
Definition assert (b : bool) : option unit := if b then Some tt else None.

(** ** 1. The indexed mesh store ([DynamicMesh]) *)

Definition Face : Type := nat * nat * nat.

Section MeshStore.
(** [P] is the type of [glm::vec3] values stored with each vertex. *)
Context {P : Type}.

Record VertexEntry := mkVertexEntry
  { position : P; normal : P; adjacent : list nat }.

(** Modelled from the spec: [DynamicMesh] (dynamic/mesh.hpp) is absent from
    the sources.  Stable vertex and face arrays whose free slots are [None],
    per-vertex adjacency lists of face indices and one free-list per array.
    The free-lists are stacks: [relaxEdges] asserts that two [addFace] calls
    after two [deleteFace] calls return the freed indices in reverse order. *)
Record DynamicMesh := mkMesh
  { vertexTable : list (option VertexEntry);
    faceTable : list (option Face);
    freeVertexIndices : list nat;
    freeFaceIndices : list nat }.

Definition vertexEntry (m : DynamicMesh) (v : nat) : option VertexEntry :=
  mjoin (vertexTable m !! v).

(** Modelled from the spec: [isFreeVertex], [isFreeFace], [vertexIndices],
    [adjacentFaces], [valence], [vertex], [isEmpty] of the absent
    [DynamicMesh]. *)
Definition isFreeVertex (m : DynamicMesh) (v : nat) : bool :=
  match vertexEntry m v with Some _ => false | None => true end.

Definition vertexIndices (m : DynamicMesh) (f : nat) : option Face :=
  mjoin (faceTable m !! f).

Definition isFreeFace (m : DynamicMesh) (f : nat) : bool :=
  match vertexIndices m f with Some _ => false | None => true end.

Definition adjacentFaces (m : DynamicMesh) (v : nat) : list nat :=
  match vertexEntry m v with Some e => adjacent e | None => [] end.

Definition valence (m : DynamicMesh) (v : nat) : nat :=
  length (adjacentFaces m v).

Definition vertex (m : DynamicMesh) (v : nat) : option P :=
  position <$> vertexEntry m v.

Definition isEmpty (m : DynamicMesh) : bool :=
  forallb (fun o : option Face => match o with None => true | Some _ => false end)
          (faceTable m).

Definition setEntry (v : nat) (e : VertexEntry) (m : DynamicMesh) : DynamicMesh :=
  mkMesh (<[v := Some e]> (vertexTable m)) (faceTable m)
         (freeVertexIndices m) (freeFaceIndices m).

(** Modelled from the spec: [vertex (idx, pos)], the position setter. *)
Definition setVertex (v : nat) (p : P) (m : DynamicMesh) : option DynamicMesh :=
  e ← vertexEntry m v;
  Some (setEntry v (mkVertexEntry p (normal e) (adjacent e)) m).

(** Modelled from the spec: [addVertex] recycles a free index or appends. *)
Definition addVertex (p n : P) (m : DynamicMesh) : DynamicMesh * nat :=
  let e := Some (mkVertexEntry p n []) in
  match freeVertexIndices m with
  | v :: rest =>
      (mkMesh (<[v := e]> (vertexTable m)) (faceTable m) rest (freeFaceIndices m), v)
  | [] =>
      (mkMesh (vertexTable m ++ [e]) (faceTable m) [] (freeFaceIndices m),
       length (vertexTable m))
  end.

(** Modelled from the spec: [deleteVertex]; the vertex must be live. *)
Definition deleteVertex (v : nat) (m : DynamicMesh) : option DynamicMesh :=
  _ ← vertexEntry m v;
  Some (mkMesh (<[v := None]> (vertexTable m)) (faceTable m)
               (v :: freeVertexIndices m) (freeFaceIndices m)).

Definition pushAdjacent (f v : nat) (m : DynamicMesh) : option DynamicMesh :=
  e ← vertexEntry m v;
  Some (setEntry v (mkVertexEntry (position e) (normal e) (adjacent e ++ [f])) m).

Definition dropAdjacent (f v : nat) (m : DynamicMesh) : option DynamicMesh :=
  e ← vertexEntry m v;
  Some (setEntry v (mkVertexEntry (position e) (normal e)
                      (filter (fun a => a ≠ f) (adjacent e))) m).

(** Modelled from the spec: [addFace] recycles a free face index or appends,
    and pushes the face onto the adjacency list of each of its vertices. *)
Definition addFace (i1 i2 i3 : nat) (m : DynamicMesh) : option (DynamicMesh * nat) :=
  let '(m0, f) :=
    match freeFaceIndices m with
    | f :: rest =>
        (mkMesh (vertexTable m) (<[f := Some (i1, i2, i3)]> (faceTable m))
                (freeVertexIndices m) rest, f)
    | [] =>
        (mkMesh (vertexTable m) (faceTable m ++ [Some (i1, i2, i3)])
                (freeVertexIndices m) [], length (faceTable m))
    end in
  m1 ← pushAdjacent f i1 m0;
  m2 ← pushAdjacent f i2 m1;
  m3 ← pushAdjacent f i3 m2;
  Some (m3, f).

(** Modelled from the spec: [deleteFace] updates the adjacency of the three
    incident vertices and frees the index; the face must be live. *)
Definition deleteFace (f : nat) (m : DynamicMesh) : option DynamicMesh :=
  '(i1, i2, i3) ← vertexIndices m f;
  m1 ← dropAdjacent f i1 m;
  m2 ← dropAdjacent f i2 m1;
  m3 ← dropAdjacent f i3 m2;
  Some (mkMesh (vertexTable m3) (<[f := None]> (faceTable m3))
               (freeVertexIndices m3) (f :: freeFaceIndices m3)).
End MeshStore.

Arguments VertexEntry : clear implicits.
Arguments DynamicMesh : clear implicits.

(** ** 2. The face region with staging ([DynamicFaces]) *)

(** Modelled from the spec: [DynamicFaces] (dynamic/faces.hpp) is absent from
    the sources.  A committed view, iterated in insertion order, and a staging
    buffer; [insert] writes to the staging buffer, [commit] merges it into the
    committed view, [filter] removes committed members. *)
Record DynamicFaces := mkFaces
  { indices : list nat; uncommitted : list nat }.

Module Faces.
Definition empty : DynamicFaces := mkFaces [] [].

Definition insert (i : nat) (fs : DynamicFaces) : DynamicFaces :=
  mkFaces (indices fs) (uncommitted fs ++ [i]).

Definition insertAll (l : list nat) (fs : DynamicFaces) : DynamicFaces :=
  foldl (fun acc i => insert i acc) fs l.

Definition contains (i : nat) (fs : DynamicFaces) : bool :=
  bool_decide (i ∈ indices fs).

Definition merge (committed staged : list nat) : list nat :=
  foldl (fun acc i => if bool_decide (i ∈ acc) then acc else acc ++ [i])
        committed staged.

Definition commit (fs : DynamicFaces) : DynamicFaces :=
  mkFaces (merge (indices fs) (uncommitted fs)) [].

Definition hasUncomitted (fs : DynamicFaces) : bool :=
  match uncommitted fs with [] => false | _ => true end.

Definition numElements (fs : DynamicFaces) : nat := length (indices fs).

(** [filter] with a predicate that reads and writes a state [St] (the C++
    lambdas capture the mesh and the midpoint map by reference). *)
Fixpoint filterM {St : Type} (p : nat → St → option (St * bool))
    (l : list nat) (s : St) : option (St * list nat) :=
  match l with
  | [] => Some (s, @nil nat)
  | f :: rest =>
      '(s1, keep) ← p f s;
      '(s2, kept) ← filterM p rest s1;
      Some (s2, if (keep : bool) then f :: kept else kept)
  end.
End Faces.

(** ** 3. Helper structures of [action.cpp] *)

(** [makeUiKey]: the canonical key of an edge; the endpoints must differ. *)
Definition makeUiKey (i1 i2 : nat) : option (nat * nat) :=
  _ ← assert (negb (i1 =? i2));
  Some (i1 `min` i2, i1 `max` i2).

(** [struct EdgeSet]: an [unordered_set] of canonical keys. *)
Definition EdgeSet : Type := gset (nat * nat).

Definition insertEdge (i1 i2 : nat) (s : EdgeSet) : option EdgeSet :=
  k ← makeUiKey i1 i2;
  Some ({[ k ]} ∪ s).

(** [struct NewVertices]: canonical edge key to the index of its midpoint. *)
Definition NewVertices : Type := gmap (nat * nat) nat.

Definition findVertex (newV : NewVertices) (i1 i2 : nat) : option (option nat) :=
  k ← makeUiKey i1 i2;
  Some (newV !! k).

Definition hasVertex (newV : NewVertices) (i1 i2 : nat) : option bool :=
  it ← findVertex newV i1 i2;
  Some (match it with Some _ => true | None => false end).

Definition insertInEdge (i1 i2 i3 : nat) (newV : NewVertices) : option NewVertices :=
  h ← hasVertex newV i1 i2;
  _ ← assert (negb h);
  k ← makeUiKey i1 i2;
  Some (<[k := i3]> newV).

(** [struct NewFaces]: a batch of faces to add (a flat vector of vertex
    indices, three per face) and a set of faces to delete. *)
Module NewFaces.
Record t := mk { vertexIndices : list nat; facesToDelete : gset nat }.

Definition reset : t := mk [] ∅.

Definition addFace (i1 i2 i3 : nat) (nf : t) : t :=
  mk (vertexIndices nf ++ [i1; i2; i3]) (facesToDelete nf).

Definition deleteFace (i : nat) (nf : t) : t :=
  mk (vertexIndices nf) ({[ i ]} ∪ facesToDelete nf).
End NewFaces.

Section Action.
Context {P : Type}.
Local Abbreviation Mesh := (DynamicMesh P).

(** The loop [for (unsigned int i : facesToDelete) mesh.deleteFace (i)]. *)
Fixpoint deleteFaces_loop (l : list nat) (m : Mesh) : option Mesh :=
  match l with
  | [] => Some m
  | f :: rest => m1 ← deleteFace f m; deleteFaces_loop rest m1
  end.

(** The loop [for (i = 0; i < vertexIndices.size (); i += 3)] of
    [applyToMesh]; [i] is the loop counter and [vs] the part of the vector
    from position [i] on. *)
Fixpoint addFaces_loop (fuel : nat) (numDeleted i : nat) (vs : list nat)
    (m : Mesh) (faces : DynamicFaces) : option (Mesh * DynamicFaces) :=
  match fuel, vs with
  | _, [] => Some (m, faces)
  | S fuel', a :: b :: c :: rest =>
      '(m1, f) ← addFace a b c m;
      let faces1 := if numDeleted * 3 <=? i then Faces.insert f faces else faces in
      addFaces_loop fuel' numDeleted (i + 3) rest m1 faces1
  | _, _ => None
  end.

(** [NewFaces::applyToMesh]. *)
Definition applyToMesh (nf : NewFaces.t) (m : Mesh) (faces : DynamicFaces)
    : option (Mesh * DynamicFaces * bool) :=
  let vs := NewFaces.vertexIndices nf in
  let del := elements (NewFaces.facesToDelete nf) in
  _ ← assert (length vs `mod` 3 =? 0);
  m1 ← deleteFaces_loop del m;
  if negb (isEmpty m1) then
    '(m2, faces2) ← addFaces_loop (length vs) (length del) 0 vs m1 faces;
    Some (m2, faces2, length del <=? length vs `div` 3)
  else Some (m1, faces, false).

(** The four out-parameters of [findAdjacent]. *)
Record Adjacent := mkAdjacent
  { leftFace : option nat; leftVertex : option nat;
    rightFace : option nat; rightVertex : option nat }.

(** The body of the loop of [findAdjacent] for the adjacent face [a]. *)
Definition findAdjacent_step (m : Mesh) (e1 e2 : nat) (acc : Adjacent) (a : nat)
    : option Adjacent :=
  '(i1, i2, i3) ← vertexIndices m a;
  let left v := mkAdjacent (Some a) (Some v) (rightFace acc) (rightVertex acc) in
  let right v := mkAdjacent (leftFace acc) (leftVertex acc) (Some a) (Some v) in
  Some (if (e1 =? i1) && (e2 =? i2) then left i3
        else if (e1 =? i2) && (e2 =? i1) then right i3
        else if (e1 =? i2) && (e2 =? i3) then left i1
        else if (e1 =? i3) && (e2 =? i2) then right i1
        else if (e1 =? i3) && (e2 =? i1) then left i2
        else if (e1 =? i1) && (e2 =? i3) then right i2
        else acc).

Fixpoint findAdjacent_loop (m : Mesh) (e1 e2 : nat) (l : list nat) (acc : Adjacent)
    : option Adjacent :=
  match l with
  | [] => Some acc
  | a :: rest => acc1 ← findAdjacent_step m e1 e2 acc a;
                 findAdjacent_loop m e1 e2 rest acc1
  end.

(** [findAdjacent]: the result is (leftFace, leftVertex, rightFace,
    rightVertex); the four closing assertions make the absence of either
    side an abort. *)
Definition findAdjacent (m : Mesh) (e1 e2 : nat) : option (nat * nat * nat * nat) :=
  r ← findAdjacent_loop m e1 e2 (adjacentFaces m e1) (mkAdjacent None None None None);
  lf ← leftFace r; lv ← leftVertex r; rf ← rightFace r; rv ← rightVertex r;
  Some (lf, lv, rf, rv).
End Action.

(** ** 4. Edge split and triangulation *)

Section Refine.
Context {P F : Type}.
Local Abbreviation Mesh := (DynamicMesh P).

(** The glm operations used by [splitEdges]:
    [exceeds maxLength p1 p2] is [glm::distance2 (p1, p2) > maxLength * maxLength],
    [getSplitPosition p1 n1 p2 n2] is the function of that name applied to the
    positions and normals it reads from the mesh (embedded over the reals in
    the module [SplitPosition] below), and [splitNormal n1 n2] is
    [glm::normalize (n1 + n2)]. *)
Variable exceeds : F → P → P → bool.
Variable getSplitPosition : P → P → P → P → P.
Variable splitNormal : P → P → P.

(** The lambda [split] of [splitEdges]. *)
Definition split (maxLength : F) (i1 i2 : nat) (st : Mesh * NewVertices)
    : option (Mesh * NewVertices * bool) :=
  let '(m, newV) := st in
  v1 ← vertexEntry m i1;
  v2 ← vertexEntry m i2;
  if exceeds maxLength (position v1) (position v2) then
    let nrm := splitNormal (normal v1) (normal v2) in
    let pos := getSplitPosition (position v1) (normal v1) (position v2) (normal v2) in
    let '(m1, i3) := addVertex pos nrm m in
    newV1 ← insertInEdge i1 i2 i3 newV;
    Some (m1, newV1, true)
  else Some (m, newV, false).

(** One guarded call [if (newV.hasVertex (a, b) == false) wasSplit = split (a, b) || wasSplit]. *)
Definition splitUnlessPresent (maxLength : F) (a b : nat)
    (st : Mesh * NewVertices * bool) : option (Mesh * NewVertices * bool) :=
  let '(m, newV, wasSplit) := st in
  h ← hasVertex newV a b;
  if negb h then
    '(m1, newV1, r) ← split maxLength a b (m, newV);
    Some (m1, newV1, r || wasSplit)
  else Some (m, newV, wasSplit).

(** The predicate passed to [faces.filter] by [splitEdges]. *)
Definition splitFace (maxLength : F) (f : nat) (st : Mesh * NewVertices)
    : option (Mesh * NewVertices * bool) :=
  let '(m, newV) := st in
  '(i1, i2, i3) ← vertexIndices m f;
  st1 ← splitUnlessPresent maxLength i1 i2 (m, newV, false);
  st2 ← splitUnlessPresent maxLength i1 i3 st1;
  splitUnlessPresent maxLength i2 i3 st2.

(** [splitEdges]. *)
Definition splitEdges (m : Mesh) (newV : NewVertices) (maxLength : F)
    (faces : DynamicFaces) : option (Mesh * NewVertices * DynamicFaces) :=
  _ ← assert (negb (Faces.hasUncomitted faces));
  '(m1, newV1, kept) ← Faces.filterM (splitFace maxLength) (indices faces) (m, newV);
  Some (m1, newV1, mkFaces kept (uncommitted faces)).

(** The lambda that [triangulate] passes to [forEachFaceExt]. *)
Definition triangulateFace (m : Mesh) (newV : NewVertices) (f : nat)
    (newF : NewFaces.t) : option NewFaces.t :=
  '(i1, i2, i3) ← vertexIndices m f;
  it12 ← findVertex newV i1 i2;
  it13 ← findVertex newV i1 i3;
  it23 ← findVertex newV i2 i3;
  let v1 := valence m i1 in
  let v2 := valence m i2 in
  let v3 := valence m i3 in
  let add := NewFaces.addFace in
  let del := NewFaces.deleteFace f newF in
  Some match it12, it13, it23 with
       | None, None, None => newF
       | Some m12, None, None => add i3 m12 i2 (add i1 m12 i3 del)
       | None, Some m13, None => add i2 m13 i1 (add i3 m13 i2 del)
       | None, None, Some m23 => add i1 m23 i3 (add i2 m23 i1 del)
       | Some m12, Some m13, None =>
           let nf := add m12 m13 i1 del in
           if v2 <? v3 then add i2 m13 m12 (add i2 i3 m13 nf)
           else add i3 m13 m12 (add i3 m12 i2 nf)
       | Some m12, None, Some m23 =>
           let nf := add m23 m12 i2 del in
           if v1 <? v3 then add i1 m12 m23 (add i1 m23 i3 nf)
           else add i3 m12 m23 (add i3 i1 m12 nf)
       | None, Some m13, Some m23 =>
           let nf := add m13 m23 i3 del in
           if v1 <? v2 then add i1 m23 m13 (add i1 i2 m23 nf)
           else add i2 m23 m13 (add i2 m13 i1 nf)
       | Some m12, Some m13, Some m23 =>
           add i3 m13 m23 (add i2 m23 m12 (add i1 m12 m13 (add m12 m23 m13 del)))
       end.

Fixpoint triangulate_loop (m : Mesh) (newV : NewVertices) (l : list nat)
    (newF : NewFaces.t) : option NewFaces.t :=
  match l with
  | [] => Some newF
  | f :: rest => newF1 ← triangulateFace m newV f newF;
                 triangulate_loop m newV rest newF1
  end.

(** [triangulate].  Modelled from the spec: [forEachFaceExt] (absent) visits
    the committed faces of the region. *)
Definition triangulate (m : Mesh) (newV : NewVertices) (faces : DynamicFaces)
    : option (Mesh * DynamicFaces) :=
  _ ← assert (negb (Faces.hasUncomitted faces));
  newF ← triangulate_loop m newV (indices faces) NewFaces.reset;
  '(m1, faces1, increasing) ← applyToMesh newF m faces;
  _ ← assert increasing;
  Some (m1, Faces.commit faces1).
End Refine.

(** ** 5. Edge flips *)

Section Relax.
Context {P : Type}.
Local Abbreviation Mesh := (DynamicMesh P).

(** Modelled from the spec: [forEachVertex (faces, fn)] (absent) visits each
    unique vertex incident to a committed face; here in order of first
    occurrence. *)
Definition regionVertices (m : Mesh) (faces : DynamicFaces) : list nat :=
  remove_dups
    (concat (map (fun f => match vertexIndices m f with
                           | Some (i1, i2, i3) => [i1; i2; i3]
                           | None => []
                           end) (indices faces))).

(** The lambda [isRelaxable] of [relaxEdges]; [int] arithmetic is in [Z]. *)
Definition isRelaxable (m : Mesh) (edge : nat * nat) (leftVertex rightVertex : nat)
    : bool :=
  let vE1 := Z.of_nat (valence m (fst edge)) in
  let vE2 := Z.of_nat (valence m (snd edge)) in
  let vL := Z.of_nat (valence m leftVertex) in
  let vR := Z.of_nat (valence m rightVertex) in
  let pre := (Z.abs (vE1 - 6) + Z.abs (vE2 - 6) + Z.abs (vL - 6) + Z.abs (vR - 6))%Z in
  let post := (Z.abs (vE1 - 6 - 1) + Z.abs (vE2 - 6 - 1) + Z.abs (vL - 6 + 1)
               + Z.abs (vR - 6 + 1))%Z in
  (3 <? vE1)%Z && (3 <? vE2)%Z && (post <? pre)%Z.

(** The three guarded [insertEdge] calls for one face adjacent to [i]. *)
Definition collectFace (m : Mesh) (i : nat) (s : EdgeSet) (a : nat) : option EdgeSet :=
  '(i1, i2, i3) ← vertexIndices m a;
  s1 ← (if negb (i =? i1) then insertEdge i i1 s else Some s);
  s2 ← (if negb (i =? i2) then insertEdge i i2 s1 else Some s1);
  if negb (i =? i3) then insertEdge i i3 s2 else Some s2.

Fixpoint collectFaces (m : Mesh) (i : nat) (l : list nat) (s : EdgeSet) : option EdgeSet :=
  match l with
  | [] => Some s
  | a :: rest => s1 ← collectFace m i s a; collectFaces m i rest s1
  end.

(** The lambda that [relaxEdges] passes to [forEachVertex]. *)
Definition collectVertex (m : Mesh) (s : EdgeSet) (i : nat) : option EdgeSet :=
  if 6 <? valence m i then collectFaces m i (adjacentFaces m i) s else Some s.

Fixpoint collectEdges (m : Mesh) (l : list nat) (s : EdgeSet) : option EdgeSet :=
  match l with
  | [] => Some s
  | i :: rest => s1 ← collectVertex m s i; collectEdges m rest s1
  end.

(** The four mesh operations of a flip, with the indices returned by the
    two [addFace] calls (newLeftFace, newRightFace). *)
Definition flipEdge (m : Mesh) (edge : nat * nat) (lf lv rf rv : nat)
    : option (Mesh * nat * nat) :=
  m1 ← deleteFace lf m;
  m2 ← deleteFace rf m1;
  '(m3, newLeftFace) ← addFace lv (fst edge) rv m2;
  '(m4, newRightFace) ← addFace rv (snd edge) lv m3;
  Some (m4, newLeftFace, newRightFace).

(** The body of the loop over the edge set. *)
Definition relaxEdge (m : Mesh) (edge : nat * nat) : option Mesh :=
  '(lf, lv, rf, rv) ← findAdjacent m (fst edge) (snd edge);
  if isRelaxable m edge lv rv then
    '(m1, newLeftFace, newRightFace) ← flipEdge m edge lf lv rf rv;
    _ ← assert (newLeftFace =? rf);
    _ ← assert (newRightFace =? lf);
    Some m1
  else Some m.

Fixpoint relaxEdges_loop (l : list (nat * nat)) (m : Mesh) : option Mesh :=
  match l with
  | [] => Some m
  | e :: rest => m1 ← relaxEdge m e; relaxEdges_loop rest m1
  end.

(** The edges that one pass considers, in iteration order of the set. *)
Definition candidateEdges (m : Mesh) (faces : DynamicFaces) : option (list (nat * nat)) :=
  s ← collectEdges m (regionVertices m faces) ∅;
  Some (elements s).

(** [relaxEdges]. *)
Definition relaxEdges (m : Mesh) (faces : DynamicFaces) : option Mesh :=
  _ ← assert (negb (Faces.hasUncomitted faces));
  es ← candidateEdges m faces;
  relaxEdges_loop es m.
End Relax.

(** ** 6. Edge collapse *)

Section Collapse.
Context {P : Type}.
Local Abbreviation Mesh := (DynamicMesh P).

(** [Util::between], the midpoint of two positions. *)
Variable between : P → P → P.
(** [glm::vec3 (0.0f)]. *)
Variable zero : P.

(** [deleteValence3Vertex]; [faces] is a [DynamicFaces&]. *)
Definition deleteValence3Vertex (m : Mesh) (i : nat) (faces : DynamicFaces)
    : option (Mesh * DynamicFaces * bool) :=
  _ ← assert (negb (isFreeVertex m i));
  _ ← assert (valence m i =? 3);
  adj1 ← adjacentFaces m i !! 0;
  adj2 ← adjacentFaces m i !! 1;
  adj3 ← adjacentFaces m i !! 2;
  '(adj11, adj12, adj13) ← vertexIndices m adj1;
  '(adj21, adj22, adj23) ← vertexIndices m adj2;
  '(newI1, newI2) ←
    (if i =? adj11 then Some (adj12, adj13)
     else if i =? adj12 then Some (adj13, adj11)
     else if i =? adj13 then Some (adj11, adj12)
     else None);
  newI3 ←
    (if negb (adj21 =? newI1) && negb (adj21 =? newI2) then Some adj21
     else if negb (adj22 =? newI1) && negb (adj22 =? newI2) then Some adj22
     else if negb (adj23 =? newI1) && negb (adj23 =? newI2) then Some adj23
     else None);
  _ ← assert (negb (newI1 =? newI2));
  _ ← assert (negb (newI1 =? newI3));
  _ ← assert (negb (newI2 =? newI3));
  if (3 <? valence m newI1) && (3 <? valence m newI2) && (3 <? valence m newI3) then
    m1 ← deleteFace adj1 m;
    m2 ← deleteFace adj2 m1;
    m3 ← deleteFace adj3 m2;
    m4 ← deleteVertex i m3;
    '(m5, f) ← addFace newI1 newI2 newI3 m4;
    Some (m5, Faces.insert f faces, true)
  else Some (m, faces, false).

(** The loop of the lambda [isValidEdge]. *)
Fixpoint isValidEdge_loop (m : Mesh) (i2 : nat) (l : list nat) : option bool :=
  match l with
  | [] => Some false
  | a :: rest =>
      '(a1, a2, a3) ← vertexIndices m a;
      if (i2 =? a1) || (i2 =? a2) || (i2 =? a3) then Some true
      else isValidEdge_loop m i2 rest
  end.

(** The lambda [isValidEdge] (its three assertions included). *)
Definition isValidEdge (m : Mesh) (i1 i2 : nat) : option bool :=
  _ ← assert (negb (i1 =? i2));
  _ ← assert (negb (isFreeVertex m i1));
  _ ← assert (negb (isFreeVertex m i2));
  isValidEdge_loop m i2 (adjacentFaces m i1).

(** The body of the loop of the lambda [addFaces] for the adjacent face [a]. *)
Definition addFaces_step (m : Mesh) (newI i1 i2 : nat) (newFaces : NewFaces.t) (a : nat)
    : option NewFaces.t :=
  '(a1, a2, a3) ← vertexIndices m a;
  let a1IsAdjacent := negb (a1 =? i1) && negb (a1 =? i2) in
  let a2IsAdjacent := negb (a2 =? i1) && negb (a2 =? i2) in
  let a3IsAdjacent := negb (a3 =? i1) && negb (a3 =? i2) in
  _ ← assert (a1IsAdjacent || a2IsAdjacent || a3IsAdjacent);
  _ ← assert (negb a1IsAdjacent || negb a2IsAdjacent || negb a3IsAdjacent);
  let nf :=
    if a1IsAdjacent && a2IsAdjacent then NewFaces.addFace newI a1 a2 newFaces
    else if a2IsAdjacent && a3IsAdjacent then NewFaces.addFace newI a2 a3 newFaces
    else if a3IsAdjacent && a1IsAdjacent then NewFaces.addFace newI a3 a1 newFaces
    else newFaces in
  Some (NewFaces.deleteFace a nf).

Fixpoint addFaces_fold (m : Mesh) (newI i1 i2 : nat) (l : list nat)
    (newFaces : NewFaces.t) : option NewFaces.t :=
  match l with
  | [] => Some newFaces
  | a :: rest => nf ← addFaces_step m newI i1 i2 newFaces a;
                 addFaces_fold m newI i1 i2 rest nf
  end.

(** The lambda [addFaces] of [collapseEdge]. *)
Definition addFaces (m : Mesh) (newI i1 i2 : nat) (newFaces : NewFaces.t)
    : option NewFaces.t :=
  addFaces_fold m newI i1 i2 (adjacentFaces m i1) newFaces.

(** The lambda [getSuccessor]. *)
Definition getSuccessor (m : Mesh) (i a : nat) : option nat :=
  '(a1, a2, a3) ← vertexIndices m a;
  if i =? a1 then Some a2
  else if i =? a2 then Some a3
  else if i =? a3 then Some a1
  else None.

(** The inner loop of [numCommonAdjacentVertices]. *)
Fixpoint countSuccessor (m : Mesh) (i2 succI1 : nat) (l : list nat) (n : nat)
    : option nat :=
  match l with
  | [] => Some n
  | a2 :: rest =>
      s ← getSuccessor m i2 a2;
      countSuccessor m i2 succI1 rest (if succI1 =? s then S n else n)
  end.

Fixpoint countCommon (m : Mesh) (i1 i2 : nat) (l : list nat) (n : nat) : option nat :=
  match l with
  | [] => Some n
  | a1 :: rest =>
      succI1 ← getSuccessor m i1 a1;
      n1 ← (if negb (succI1 =? i2)
            then countSuccessor m i2 succI1 (adjacentFaces m i2) n
            else Some n);
      countCommon m i1 i2 rest n1
  end.

(** The lambda [numCommonAdjacentVertices]. *)
Definition numCommonAdjacentVertices (m : Mesh) (i1 i2 : nat) : option nat :=
  countCommon m i1 i2 (adjacentFaces m i1) 0.

(** The branch of [collapseEdge] that performs the general collapse (both
    valences above 3, exactly two common neighbours), up to the deletion of
    the two endpoints; the result carries the index [newI] of the new
    vertex. *)
Definition collapseInto (m : Mesh) (i1 i2 : nat) (newPos : P) (faces : DynamicFaces)
    : option (Mesh * nat) :=
  let '(m1, newI) := addVertex newPos zero m in
  nf1 ← addFaces m1 newI i1 i2 NewFaces.reset;
  nf2 ← addFaces m1 newI i2 i1 nf1;
  '(m2, _, _) ← applyToMesh nf2 m1 faces;
  _ ← assert (bool_decide (adjacentFaces m2 i1 = []));
  _ ← assert (bool_decide (adjacentFaces m2 i2 = []));
  m3 ← deleteVertex i1 m2;
  m4 ← deleteVertex i2 m3;
  _ ← assert (isFreeVertex m4 i1);
  _ ← assert (isFreeVertex m4 i2);
  Some (m4, newI).

(** [collapseEdge].  The parameter [faces] is declared [DynamicFaces faces]:
    it is passed by value, so what the callee inserts into it is inserted
    into the callee's own copy and the caller's face set is not an output. *)
Definition collapseEdge (m : Mesh) (i1 i2 : nat) (faces : DynamicFaces)
    : option (Mesh * bool) :=
  let v1 := valence m i1 in
  let v2 := valence m i2 in
  _ ← assert (3 <=? v1);
  _ ← assert (3 <=? v2);
  valid ← isValidEdge m i1 i2;
  _ ← assert valid;
  p1 ← vertex m i1;
  p2 ← vertex m i2;
  let newPos := between p1 p2 in
  if v1 =? 3 then
    '(m1, _, deleted) ← deleteValence3Vertex m i1 faces;
    if (deleted : bool) then m2 ← setVertex i2 newPos m1; Some (m2, true)
    else Some (m1, false)
  else if v2 =? 3 then
    '(m1, _, deleted) ← deleteValence3Vertex m i2 faces;
    if (deleted : bool) then m2 ← setVertex i1 newPos m1; Some (m2, true)
    else Some (m1, false)
  else
    '(_, leftVertex, _, rightVertex) ← findAdjacent m i1 i2;
    let vLeftVertex := valence m leftVertex in
    let vRightVertex := valence m rightVertex in
    _ ← assert (3 <=? vLeftVertex);
    _ ← assert (3 <=? vRightVertex);
    if leftVertex =? rightVertex then Some (m, false)
    else if (vLeftVertex =? 3) || (vRightVertex =? 3) then Some (m, false)
    else
      n ← numCommonAdjacentVertices m i1 i2;
      if n =? 2 then
        '(m1, newI) ← collapseInto m i1 i2 newPos faces;
        _ ← assert (valence m1 newI =? v1 + v2 - 4);
        Some (m1, true)
      else Some (m, false).

(** [CollapsePredicate]; the predicate of [collapseEdgesByLength] reads the
    mesh and asserts that both vertices are live. *)
Definition CollapsePredicate : Type := Mesh → nat → nat → option bool.

(** The body of the loop [for (unsigned int i : current)] of
    [collapseEdges].  [current] is handed to [collapseEdge] by value. *)
Definition collapseFace (doCollapse : CollapsePredicate) (current : DynamicFaces)
    (st : Mesh * bool) (i : nat) : option (Mesh * bool) :=
  let '(m, collapsed) := st in
  if negb (isFreeFace m i) then
    '(i1, i2, i3) ← vertexIndices m i;
    c12 ← doCollapse m i1 i2;
    if (c12 : bool) then
      '(m1, r) ← collapseEdge m i1 i2 current; Some (m1, r || collapsed)
    else
      c13 ← doCollapse m i1 i3;
      if (c13 : bool) then
        '(m1, r) ← collapseEdge m i1 i3 current; Some (m1, r || collapsed)
      else
        c23 ← doCollapse m i2 i3;
        if (c23 : bool) then
          '(m1, r) ← collapseEdge m i2 i3 current; Some (m1, r || collapsed)
        else Some (m, collapsed)
  else Some (m, collapsed).

Fixpoint collapseScan (doCollapse : CollapsePredicate) (current : DynamicFaces)
    (l : list nat) (st : Mesh * bool) : option (Mesh * bool) :=
  match l with
  | [] => Some st
  | i :: rest => st1 ← collapseFace doCollapse current st i;
                 collapseScan doCollapse current rest st1
  end.

(** The [do ... while (current.uncommitted ().empty () == false)] loop of
    [collapseEdges]; [fuel] bounds the number of iterations. *)
Fixpoint collapseEdges_loop (fuel : nat) (doCollapse : CollapsePredicate)
    (m : Mesh) (faces current : DynamicFaces) (collapsed : bool)
    : option (Mesh * DynamicFaces * DynamicFaces * bool) :=
  match fuel with
  | 0 => None
  | S fuel' =>
      let faces1 := Faces.insertAll (uncommitted current) faces in
      let current1 := Faces.commit current in
      '(m1, collapsed1) ←
        collapseScan doCollapse current1 (indices current1) (m, collapsed);
      if Faces.hasUncomitted current1
      then collapseEdges_loop fuel' doCollapse m1 faces1 current1 collapsed1
      else Some (m1, faces1, current1, collapsed1)
  end.

(** [collapseEdges]. *)
Definition collapseEdges (fuel : nat) (doCollapse : CollapsePredicate)
    (m : Mesh) (faces : DynamicFaces) : option (Mesh * DynamicFaces * bool) :=
  let current := Faces.insertAll (indices faces) Faces.empty in
  '(m1, faces1, _, collapsed) ←
    collapseEdges_loop fuel doCollapse m faces current false;
  let kept := filter (fun f => isFreeFace m1 f = false) (indices faces1) in
  Some (m1, Faces.commit (mkFaces kept (uncommitted faces1)), collapsed).
End Collapse.

(** ** 7. Length-based collapse and the public entry points *)

Section ByLength.
Context {P F : Type}.
Local Abbreviation Mesh := (DynamicMesh P).

Variable between : P → P → P.
Variable zero : P.
(** [glm::distance2] and [<] on [float]. *)
Variable distance2 : P → P → F.
Variable ltF : F → F → bool.
(** [minEdgeLength * minEdgeLength]. *)
Variable minEdgeLengthSqr : F.
(** Modelled from the spec: [setVertexNormal] (absent) recomputes a vertex
    normal from the incident faces; [computeNormal m v] is the new normal. *)
Variable computeNormal : Mesh → nat → P.

(** The lambda [isCollapsable] of [collapseEdgesByLength]. *)
Definition isCollapsable (maxEdgeLengthSqr : F) : @CollapsePredicate P :=
  fun m i1 i2 =>
    _ ← assert (negb (isFreeVertex m i1));
    _ ← assert (negb (isFreeVertex m i2));
    p1 ← vertex m i1;
    p2 ← vertex m i2;
    Some (ltF (distance2 p1 p2) maxEdgeLengthSqr).

Definition collapseEdgesByLength (fuel : nat) (m : Mesh) (maxEdgeLengthSqr : F)
    (faces : DynamicFaces) : option (Mesh * DynamicFaces * bool) :=
  collapseEdges between zero fuel (isCollapsable maxEdgeLengthSqr) m faces.

Definition collapseAllEdges (fuel : nat) (m : Mesh) (faces : DynamicFaces)
    : option (Mesh * DynamicFaces * bool) :=
  collapseEdges between zero fuel (fun _ _ _ => Some true) m faces.

(** [finalize]: new normals for the vertices of the region; [realignFace]
    (absent) updates only the per-face normal kept outside this model. *)
Definition finalize (m : Mesh) (faces : DynamicFaces) : Mesh :=
  foldl (fun acc v =>
           match vertexEntry acc v with
           | Some e => setEntry v (mkVertexEntry (position e) (computeNormal acc v)
                                                 (adjacent e)) acc
           | None => acc
           end) m (regionVertices m faces).

(** Modelled from the spec: [forEachFace] (absent) visits the live faces,
    here by increasing index. *)
Definition liveFaces (m : Mesh) : list nat :=
  filter (fun f => isFreeFace m f = false) (seq 0 (length (faceTable m))).

(** [ToolSculptAction::collapseDegeneratedEdges]; [bufferData] writes render
    buffers only. *)
Definition collapseDegeneratedEdges (fuel : nat) (m : Mesh) : option (Mesh * bool) :=
  let faces := Faces.commit (Faces.insertAll (liveFaces m) Faces.empty) in
  '(m1, faces1, collapsed) ← collapseEdgesByLength fuel m minEdgeLengthSqr faces;
  Some (finalize m1 faces1, collapsed).
End ByLength.

(** ** 8. The specification's reading of the operations *)

(** The fan table of the specification (section 4.3, "Triangulation after
    split"): the faces that replace a face (i1, i2, i3), by the midpoints
    present on its edges; [None] leaves the face.  With two midpoints the
    first face cuts off the apex and the remaining quad is fanned from the
    corner of strictly lower valence, from the other corner otherwise. *)
Definition fanTable (i1 i2 i3 : nat) (m12 m13 m23 : option nat) (v1 v2 v3 : nat)
    : option (list Face) :=
  match m12, m13, m23 with
  | None, None, None => None
  | Some a, None, None => Some [(i1, a, i3); (i3, a, i2)]
  | None, Some b, None => Some [(i3, b, i2); (i2, b, i1)]
  | None, None, Some c => Some [(i2, c, i1); (i1, c, i3)]
  | Some a, Some b, None =>
      Some ((a, b, i1) :: if v2 <? v3 then [(i2, i3, b); (i2, b, a)]
                          else [(i3, a, i2); (i3, b, a)])
  | Some a, None, Some c =>
      Some ((c, a, i2) :: if v1 <? v3 then [(i1, c, i3); (i1, a, c)]
                          else [(i3, i1, a); (i3, a, c)])
  | None, Some b, Some c =>
      Some ((b, c, i3) :: if v1 <? v2 then [(i1, i2, c); (i1, c, b)]
                          else [(i2, b, i1); (i2, c, b)])
  | Some a, Some b, Some c =>
      Some [(a, c, b); (i1, a, b); (i2, c, a); (i3, b, c)]
  end.

(** A list of faces as the flat index vector of [NewFaces]. *)
Definition flatten (l : list Face) : list nat :=
  concat (map (fun t : Face => let '(a, b, c) := t in [a; b; c]) l).

(** The canonical (unordered) edge key of the specification. *)
Definition edgeKey (a b : nat) : nat * nat := (a `min` b, a `max` b).

(** Every key of an edge set is canonical: the smaller index comes first. *)
Definition canonical (s : EdgeSet) : Prop := ∀ e, e ∈ s → fst e < snd e.

(** The three edge keys of a face. *)
Definition edgeKeys (t : Face) : list (nat * nat) :=
  let '(i1, i2, i3) := t in [edgeKey i1 i2; edgeKey i1 i3; edgeKey i2 i3].

(** "The edge received a new midpoint vertex" between two states of the
    midpoint map. *)
Definition receivedMidpoint (before after : NewVertices) (e : nat * nat) : Prop :=
  before !! e = None ∧ is_Some (after !! e).

(** The first of the edges (i1, i2), (i1, i3), (i2, i3) of a face, in this
    order, for which the collapse predicate answered [true]. *)
Definition firstAccepted (t : Face) (c12 c13 c23 : bool) : option (nat * nat) :=
  let '(i1, i2, i3) := t in
  if c12 then Some (i1, i2)
  else if c13 then Some (i1, i3)
  else if c23 then Some (i2, i3)
  else None.

(** The batch after a face [f] has been replaced by the faces [l]. *)
Definition replaceFace (f : nat) (l : option (list Face)) (newF : NewFaces.t)
    : NewFaces.t :=
  match l with
  | None => newF
  | Some l => NewFaces.mk (NewFaces.vertexIndices newF ++ flatten l)
                          ({[ f ]} ∪ NewFaces.facesToDelete newF)
  end.

(** ** 9. A concrete instance and test meshes *)

Module Example.
(** Positions with rational coordinates; every operation is exact. *)
Definition V3 : Type := Q * Q * Q.

Definition between (p q : V3) : V3 :=
  let '(a, b, c) := p in
  let '(d, e, f) := q in
  (Qred ((a + d) / 2), Qred ((b + e) / 2), Qred ((c + f) / 2))%Q.

Definition distance2 (p q : V3) : Q :=
  let '(a, b, c) := p in
  let '(d, e, f) := q in
  Qred ((a - d) * (a - d) + (b - e) * (b - e) + (c - f) * (c - f))%Q.

Definition ltQ (a b : Q) : bool :=
  (Qnum a * Z.pos (Qden b) <? Qnum b * Z.pos (Qden a))%Z.

Definition zero : V3 := (0, 0, 0)%Q.

(** [glm::distance2 (p1, p2) > maxLength * maxLength]. *)
Definition exceeds (maxLength : Q) (p1 p2 : V3) : bool :=
  ltQ (maxLength * maxLength) (distance2 p1 p2).

(** [minEdgeLength = 0.001f], squared. *)
Definition minEdgeLengthSqr : Q := (1 # 1000000)%Q.

Definition emptyMesh : DynamicMesh V3 := mkMesh [] [] [] [].

Definition addVertices (ps : list V3) (m : DynamicMesh V3) : DynamicMesh V3 :=
  foldl (fun acc p => fst (addVertex p zero acc)) m ps.

Fixpoint addFaceList (fs : list Face) (m : DynamicMesh V3) : option (DynamicMesh V3) :=
  match fs with
  | [] => Some m
  | (a, b, c) :: rest => '(m1, _) ← addFace a b c m; addFaceList rest m1
  end.

Definition build (ps : list V3) (fs : list Face) : DynamicMesh V3 :=
  default emptyMesh (addFaceList fs (addVertices ps emptyMesh)).

(** A point with coordinates in units of 10^-5. *)
Definition pt (x y z : Z) : V3 := (x # 100000, y # 100000, z # 100000).

(** The octahedron: apex 0, equator 1..4, apex 5; every valence is 4. *)
Definition octahedron : DynamicMesh V3 := Eval vm_compute in
  build [pt 0 100000 0; pt 100000 0 0; pt 0 0 100000; pt (-100000) 0 0;
         pt 0 0 (-100000); pt 0 (-100000) 0]
        [(0, 1, 2); (0, 2, 3); (0, 3, 4); (0, 4, 1);
         (5, 2, 1); (5, 3, 2); (5, 4, 3); (5, 1, 4)].

(** The octahedron with vertex 6 inserted in the face (0, 1, 2): vertex 6
    has valence 3, its neighbours 0, 1, 2 have valence 5.  The face across
    the edge (0, 1) is stored as (1, 0, 4). *)
Definition capped : DynamicMesh V3 := Eval vm_compute in
  build [pt 0 100000 0; pt 100000 0 0; pt 0 0 100000; pt (-100000) 0 0;
         pt 0 0 (-100000); pt 0 (-100000) 0; pt 40000 40000 40000]
        [(6, 0, 1); (2, 6, 1); (6, 2, 0); (0, 2, 3); (0, 3, 4); (1, 0, 4);
         (5, 2, 1); (5, 3, 2); (5, 4, 3); (5, 1, 4)].

(** A bipyramid over a pentagon (apexes 0 and 6, equator 1..5) whose
    equator edge (1, 2) is shorter than [minEdgeLength]; the apex 0 is
    farther than [minEdgeLength] from both 1 and 2 but closer than that to
    their midpoint. *)
Definition bipyramid5 : DynamicMesh V3 := Eval vm_compute in
  build [pt 0 95 0; pt (-40) 0 0; pt 40 0 0; pt 100000 0 100000;
         pt 0 0 200000; pt (-100000) 0 100000; pt 0 (-100000) 0]
        [(0, 2, 3); (0, 3, 4); (0, 4, 5); (0, 5, 1);
         (6, 3, 2); (6, 4, 3); (6, 5, 4); (6, 1, 5); (0, 1, 2); (6, 2, 1)].

(** A bipyramid over an octagon: apexes 0 and 9 of valence 8, equator
    1..8 of valence 4. *)
Definition bipyramid8 : DynamicMesh V3 := Eval vm_compute in
  build [pt 0 100000 0; pt 100000 0 0; pt 70000 0 70000; pt 0 0 100000;
         pt (-70000) 0 70000; pt (-100000) 0 0; pt (-70000) 0 (-70000);
         pt 0 0 (-100000); pt 70000 0 (-70000); pt 0 (-100000) 0]
        [(0, 1, 2); (0, 2, 3); (0, 3, 4); (0, 4, 5);
         (0, 5, 6); (0, 6, 7); (0, 7, 8); (0, 8, 1);
         (9, 2, 1); (9, 3, 2); (9, 4, 3); (9, 5, 4);
         (9, 6, 5); (9, 7, 6); (9, 8, 7); (9, 1, 8)].

(** The committed region holding every live face of a mesh. *)
Definition allFaces (m : DynamicMesh V3) : DynamicFaces :=
  Faces.commit (Faces.insertAll (liveFaces m) Faces.empty).

(** [collapseDegeneratedEdges] on rational positions; the recomputed
    normals play no role in it and are all [zero]. *)
Definition collapseDegenerated (fuel : nat) (m : DynamicMesh V3)
    : option (DynamicMesh V3 * bool) :=
  collapseDegeneratedEdges between zero distance2 ltQ minEdgeLengthSqr
                           (fun _ _ => zero) fuel m.

(** Stand-ins for [getSplitPosition] and [glm::normalize (n1 + n2)] on
    rational positions (the properties below do not depend on where a new
    vertex is placed): the midpoint and the first normal. *)
Definition midpointSplit (p1 n1 p2 n2 : V3) : V3 := between p1 p2.
Definition firstNormal (n1 n2 : V3) : V3 := n1.

(** The predicate of [collapseAllEdges]. *)
Definition always : @CollapsePredicate V3 := fun _ _ _ => Some true.
End Example.

(** The valence deviations of the specification's flip rule (section 4.3,
    "Edge flip"), for the valences of the edge's endpoints and of the two
    opposite vertices. *)
Definition pre (vE1 vE2 vL vR : Z) : Z :=
  (Z.abs (vE1 - 6) + Z.abs (vE2 - 6) + Z.abs (vL - 6) + Z.abs (vR - 6))%Z.

Definition post (vE1 vE2 vL vR : Z) : Z :=
  (Z.abs (vE1 - 7) + Z.abs (vE2 - 7) + Z.abs (vL - 5) + Z.abs (vR - 5))%Z.

(** Midpoints 6 and 7 registered on the edges (0, 1) and (0, 2). *)
Definition twoMidpoints : NewVertices := <[(0, 2) := 7]> (<[(0, 1) := 6]> ∅).

(** ** 10. Mesh invariants of the specification, around an edge *)

Section Invariants.
Context {P : Type}.
Implicit Types (m : DynamicMesh P).

(** The face [a] is live, has three distinct vertices (invariant 3), all of
    them live (invariant 5), and [v] is one of them (invariant 6). *)
Definition faceAround m (v a : nat) : Prop :=
  ∃ a1 a2 a3, vertexIndices m a = Some (a1, a2, a3)
    ∧ a1 ≠ a2 ∧ a1 ≠ a3 ∧ a2 ≠ a3
    ∧ (v = a1 ∨ v = a2 ∨ v = a3)
    ∧ isFreeVertex m a1 = false ∧ isFreeVertex m a2 = false
    ∧ isFreeVertex m a3 = false.

(** [hasCorner m w a]: the face [a] references the vertex [w]. *)
Definition hasCorner m (w a : nat) : bool :=
  match vertexIndices m a with
  | Some (a1, a2, a3) => (w =? a1) || (w =? a2) || (w =? a3)
  | None => false
  end.

(** The adjacency list of [v] has no repetition and lists faces around [v]. *)
Definition fanOk m (v : nat) : Prop :=
  NoDup (adjacentFaces m v) ∧ Forall (faceAround m v) (adjacentFaces m v).

(** The index that the next [addVertex] returns. *)
Definition nextVertex m : nat :=
  match freeVertexIndices m with
  | v :: _ => v
  | [] => length (vertexTable m)
  end.

(** A face around [i1], as [faceAround], none of whose corners is [newI]. *)
Definition cornerOk {P : Type} (m : DynamicMesh P) (newI i1 a : nat) : Prop :=
  ∃ a1 a2 a3, vertexIndices m a = Some (a1, a2, a3)
    ∧ a1 ≠ a2 ∧ a1 ≠ a3 ∧ a2 ≠ a3
    ∧ (i1 = a1 ∨ i1 = a2 ∨ i1 = a3)
    ∧ a1 ≠ newI ∧ a2 ≠ newI ∧ a3 ≠ newI.

(** [vs] is the flat vector of [k] faces (newI, x, y) whose other two corners
    differ from [newI]. *)
Definition fanTriples (newI : nat) (vs : list nat) (k : nat) : Prop :=
  ∃ ts : list (nat * nat),
    vs = concat (map (fun t => [newI; fst t; snd t]) ts)
    ∧ length ts = k
    ∧ Forall (fun t => fst t ≠ newI ∧ snd t ≠ newI) ts.

(** The invariants that the general collapse of the edge (i1, i2) relies on:
    the fans of both endpoints are consistent with the face table, the edge
    is shared by exactly two faces (invariant 1), the head of the vertex
    free-list is a free slot of the vertex array, and some live face is
    incident to neither endpoint. *)
Record collapsible m (i1 i2 : nat) : Prop := mkCollapsible
  { fan1 : fanOk m i1;
    fan2 : fanOk m i2;
    shared1 : length (filter (fun a => hasCorner m i2 a = true) (adjacentFaces m i1)) = 2;
    shared2 : length (filter (fun a => hasCorner m i1 a = true) (adjacentFaces m i2)) = 2;
    freshSlot : isFreeVertex m (nextVertex m) = true
                ∧ Forall (fun v => v < length (vertexTable m)) (freeVertexIndices m);
    otherFace : (∃ f0, isFreeFace m f0 = false
                       ∧ (f0 ∉ adjacentFaces m i1) ∧ (f0 ∉ adjacentFaces m i2)) }.
End Invariants.

(** ** 11. The split position

    [getSplitPosition] over the reals: [float] arithmetic is idealised as
    exact arithmetic, [glm::vec3] is a triple of reals. *)

Module SplitPosition.
Local Open Scope R_scope.

Definition vec3 : Type := R * R * R.

Definition add (a b : vec3) : vec3 :=
  let '(a1, a2, a3) := a in
  let '(b1, b2, b3) := b in (a1 + b1, a2 + b2, a3 + b3).

Definition scale (k : R) (a : vec3) : vec3 :=
  let '(a1, a2, a3) := a in (k * a1, k * a2, k * a3).

(** [glm::dot], [glm::cross], [glm::normalize]. *)
Definition dot (a b : vec3) : R :=
  let '(a1, a2, a3) := a in
  let '(b1, b2, b3) := b in a1 * b1 + a2 * b2 + a3 * b3.

Definition cross (a b : vec3) : vec3 :=
  let '(a1, a2, a3) := a in
  let '(b1, b2, b3) := b in
  (a2 * b3 - a3 * b2, a3 * b1 - a1 * b3, a1 * b2 - a2 * b1).

Definition normalize (a : vec3) : vec3 := scale (/ sqrt (dot a a)) a.

Section WithColinear.
(** [Util::colinearUnit] (util.hpp is absent): whether two unit vectors are
    numerically colinear. *)
Variable colinearUnit : vec3 → vec3 → bool.

(** The point [p3] of the second branch of [getSplitPosition]. *)
Definition planePoint (p1 n1 p2 n2 : vec3) : vec3 :=
  let n3 := normalize (cross n1 n2) in
  let d1 := dot p1 n1 in
  let d2 := dot p2 n2 in
  let d3 := dot p1 n3 in
  scale (/ dot n1 (cross n2 n3))
        (add (add (scale d1 (cross n2 n3)) (scale d2 (cross n3 n1)))
             (scale d3 (cross n1 n2))).

(** [getSplitPosition], applied to the positions and normals that it reads
    from the mesh. *)
Definition getSplitPosition (p1 n1 p2 n2 : vec3) : vec3 :=
  if colinearUnit n1 n2 then scale (1 / 2) (add p1 p2)
  else
    let p3 := planePoint p1 n1 p2 n2 in
    add (add (scale (1 / 4) p1) (scale (1 / 2) p3)) (scale (1 / 4) p2).

(** The normal that the lambda [split] gives to the new vertex. *)
Definition splitNormal (n1 n2 : vec3) : vec3 := normalize (add n1 n2).
End WithColinear.

(** The specification's reading: the plane through [p] with normal [n]. *)
Definition onPlane (p n q : vec3) : Prop := dot q n = dot p n.

(** Two vertices with orthogonal unit normals, for the examples. *)
Definition twoVertices : DynamicMesh vec3 :=
  mkMesh [Some (mkVertexEntry (0, 0, 0) (1, 0, 0) []);
          Some (mkVertexEntry (1, 1, 0) (0, 1, 0) [])] [] [] [].
End SplitPosition.

(** ** 12. Meshes up to vertex normals *)

Section Forget.
Context {P : Type}.
Variable zero : P.

(** The mesh with every vertex normal replaced by [zero]: what the collapse
    functions can observe of a mesh. *)
Definition forgetEntry (e : VertexEntry P) : VertexEntry P :=
  mkVertexEntry (position e) zero (adjacent e).

Definition forget (m : DynamicMesh P) : DynamicMesh P :=
  mkMesh (map (option_map forgetEntry) (vertexTable m)) (faceTable m)
         (freeVertexIndices m) (freeFaceIndices m).
End Forget.

(** A collapse predicate that does not read vertex normals. *)
Definition normalBlind {P : Type} (zero : P) (doCollapse : @CollapsePredicate P) : Prop :=
  ∀ m i1 i2, doCollapse (forget zero m) i1 i2 = doCollapse m i1 i2.

(** ** 13. Further code of [action.cpp] *)

(** [struct EdgeMap]: canonical edge key to the faces registered for it. *)
Module EdgeMap.
Abbreviation t := (gmap (nat * nat) (list nat)).

(** [EdgeMap::insertEdge]. *)
Definition insertEdge (i1 i2 face : nat) (em : t) : option t :=
  key ← makeUiKey i1 i2;
  Some (match em !! key with
        | None => <[key := [face]]> em
        | Some faces => <[key := faces ++ [face]]> em
        end).
End EdgeMap.

(** The face (a, b, c) up to the choice of its first corner. *)
Definition rotationOf (t : Face) (a b c : nat) : Prop :=
  t = (a, b, c) ∨ t = (c, a, b) ∨ t = (b, c, a).

(** The branch of the loop body of [findAdjacent] that a face with corners
    [t] takes: [Some (true, v)] sets the left side with opposite vertex [v],
    [Some (false, v)] the right side, [None] leaves both. *)
Definition sideOf (e1 e2 : nat) (t : Face) : option (bool * nat) :=
  let '(i1, i2, i3) := t in
  if (e1 =? i1) && (e2 =? i2) then Some (true, i3)
  else if (e1 =? i2) && (e2 =? i1) then Some (false, i3)
  else if (e1 =? i2) && (e2 =? i3) then Some (true, i1)
  else if (e1 =? i3) && (e2 =? i2) then Some (false, i1)
  else if (e1 =? i3) && (e2 =? i1) then Some (true, i2)
  else if (e1 =? i1) && (e2 =? i3) then Some (false, i2)
  else None.

(** What the loop of [findAdjacent] has recorded for one side after it has
    seen faces among [l]: nothing, or a face of [l] that takes the branch of
    that side. *)
Definition sideFound {P : Type} (m : DynamicMesh P) (e1 e2 : nat) (l : list nat)
    (left : bool) (face vertex : option nat) : Prop :=
  (face = None ∧ vertex = None)
  ∨ ∃ a v t, face = Some a ∧ vertex = Some v ∧ a ∈ l
             ∧ vertexIndices m a = Some t ∧ sideOf e1 e2 t = Some (left, v).

(** The octahedron with two further vertices 6 and 7 that no face uses yet
    (midpoints that a split has just added). *)
Definition octahedronWithSpares : DynamicMesh Example.V3 := Eval vm_compute in
  fst (addVertex (Example.pt 50000 50000 0) Example.zero
         (fst (addVertex (Example.pt 0 50000 50000) Example.zero Example.octahedron))).

(** Every edge of the set joins a pole among [l] (a vertex of valence above
    6) with another corner of one of the pole's adjacent faces. *)
Definition joinsPole {P : Type} (m : DynamicMesh P) (l : list nat) (s : EdgeSet) : Prop :=
  ∀ e, e ∈ s →
    ∃ i a w, i ∈ l ∧ 6 < valence m i ∧ a ∈ adjacentFaces m i
             ∧ hasCorner m w a = true ∧ w ≠ i ∧ e = edgeKey i w.

(** The deviation from the target valence 6, summed over the endpoints of an
    edge and its two opposite vertices. *)
Definition deviation {P : Type} (m : DynamicMesh P) (e1 e2 vL vR : nat) : Z :=
  pre (Z.of_nat (valence m e1)) (Z.of_nat (valence m e2))
      (Z.of_nat (valence m vL)) (Z.of_nat (valence m vR)).

(** *** Region expansion *)

Section Domain.
Context {P : Type}.
Local Abbreviation Mesh := (DynamicMesh P).

(** The loop [for (unsigned int a : mesh.adjacentFaces (v))
    if (faces.contains (a) == false) faces.insert (a)]. *)
Definition insertMissing (l : list nat) (faces : DynamicFaces) : DynamicFaces :=
  foldl (fun fs a => if Faces.contains a fs then fs else Faces.insert a fs) faces l.

(** The body of the loop over the committed faces in [extendDomain]. *)
Definition extendFace (m : Mesh) (faces : DynamicFaces) (i : nat) : option DynamicFaces :=
  '(i1, i2, i3) ← vertexIndices m i;
  Some (insertMissing (adjacentFaces m i3)
          (insertMissing (adjacentFaces m i2)
             (insertMissing (adjacentFaces m i1) faces))).

Fixpoint extendRing (m : Mesh) (l : list nat) (faces : DynamicFaces)
    : option DynamicFaces :=
  match l with
  | [] => Some faces
  | i :: rest => faces1 ← extendFace m faces i; extendRing m rest faces1
  end.

(** The loop over the rings of [extendDomain]. *)
Fixpoint extendRings (m : Mesh) (numRings : nat) (faces : DynamicFaces)
    : option DynamicFaces :=
  match numRings with
  | 0 => Some faces
  | S n =>
      faces1 ← extendRing m (indices faces) faces;
      extendRings m n (Faces.commit faces1)
  end.

(** [extendDomain]. *)
Definition extendDomain (m : Mesh) (faces : DynamicFaces) (numRings : nat)
    : option DynamicFaces :=
  _ ← assert (negb (Faces.hasUncomitted faces));
  extendRings m numRings faces.

(** The lambda that [extendDomainByPoles] passes to [forEachVertex]. *)
Definition extendAtPole (m : Mesh) (faces : DynamicFaces) (i : nat) : DynamicFaces :=
  if 6 <? valence m i then insertMissing (adjacentFaces m i) faces else faces.

(** [extendDomainByPoles]. *)
Definition extendDomainByPoles (m : Mesh) (faces : DynamicFaces) : option DynamicFaces :=
  _ ← assert (negb (Faces.hasUncomitted faces));
  Some (Faces.commit (foldl (extendAtPole m) faces (regionVertices m faces))).
End Domain.

(** A vertex [v] of a committed face [f] of the region has the face [a] in
    its adjacency list. *)
Definition inRing {P : Type} (m : DynamicMesh P) (faces : DynamicFaces) (a : nat) : Prop :=
  ∃ f v, f ∈ indices faces ∧ hasCorner m v f = true ∧ a ∈ adjacentFaces m v.

(** *** Collapse *)

(** The capped octahedron of [Example.capped] with the second face around
    vertex 6 stored as (6, 1, 2) instead of (2, 6, 1): the same triangles,
    another first corner. *)
Definition cappedFirst : DynamicMesh Example.V3 := Eval vm_compute in
  Example.build
    [Example.pt 0 100000 0; Example.pt 100000 0 0; Example.pt 0 0 100000;
     Example.pt (-100000) 0 0; Example.pt 0 0 (-100000); Example.pt 0 (-100000) 0;
     Example.pt 40000 40000 40000]
    [(6, 0, 1); (6, 1, 2); (6, 2, 0); (0, 2, 3); (0, 3, 4); (1, 0, 4);
     (5, 2, 1); (5, 3, 2); (5, 4, 3); (5, 1, 4)].

(** The endpoint that [collapseEdge] removes when one endpoint has valence
    3, and the endpoint that it keeps and moves. *)
Definition removedEndpoint {P : Type} (m : DynamicMesh P) (i1 i2 : nat) : nat :=
  if valence m i1 =? 3 then i1 else i2.
Definition keptEndpoint {P : Type} (m : DynamicMesh P) (i1 i2 : nat) : nat :=
  if valence m i1 =? 3 then i2 else i1.

Section DeleteFaces.
Context {P F : Type}.
Variable between : P → P → P.
Variable zero : P.
Variable distance2 : P → P → F.
Variable ltF : F → F → bool.
Variable minEdgeLengthSqr : F.
Variable computeNormal : DynamicMesh P → nat → P.

(** [ToolSculptAction::deleteFaces]; [bufferData] writes render buffers
    only. *)
Definition deleteFaces (fuel : nat) (m : DynamicMesh P) (faces : DynamicFaces)
    : option (DynamicMesh P * DynamicFaces * bool) :=
  '(m1, faces1, collapsed1) ← collapseAllEdges between zero fuel m faces;
  '(m2, faces2, collapsed2) ←
     collapseEdgesByLength between zero distance2 ltF fuel m1 minEdgeLengthSqr faces1;
  Some (finalize computeNormal m2 faces2, faces2, collapsed2 || collapsed1).
End DeleteFaces.

(** *** The pass of [splitEdges] *)

(** The edges of a face in the order in which [splitEdges] visits them. *)
Definition edgesOf (t : Face) : list (nat * nat) :=
  let '(i1, i2, i3) := t in [(i1, i2); (i1, i3); (i2, i3)].

(** The free-list of vertex indices has no repetition and lists free slots
    of the vertex table. *)
Definition freeSlots {P : Type} (m : DynamicMesh P) : Prop :=
  NoDup (freeVertexIndices m)
  ∧ Forall (fun v => v < length (vertexTable m) ∧ isFreeVertex m v = true)
           (freeVertexIndices m).

(** The test of the lambda [split] on the edge (a, b) of the mesh:
    [glm::distance2 (mesh.vertex (a), mesh.vertex (b)) > maxLength * maxLength]. *)
Definition overlong {P F : Type} (exceeds : F → P → P → bool) (maxLength : F)
    (m : DynamicMesh P) (a b : nat) : bool :=
  match vertexEntry m a, vertexEntry m b with
  | Some va, Some vb => exceeds maxLength (position va) (position vb)
  | _, _ => false
  end.

(** What a part of a pass of [splitEdges] over faces among [l] changes
    between the state [(m, newV)] and the state [(m', newV')]: no face, no
    live vertex, no registered midpoint; every midpoint that is new is a
    vertex that was free and is live now, it is registered for an over-long
    edge of a face among [l], and no two new midpoints coincide. *)
Definition splitFrame {P F : Type} (exceeds : F → P → P → bool) (maxLength : F)
    (l : list nat) (m : DynamicMesh P) (newV : NewVertices)
    (m' : DynamicMesh P) (newV' : NewVertices) : Prop :=
  faceTable m' = faceTable m
  ∧ freeFaceIndices m' = freeFaceIndices m
  ∧ (∀ v e, vertexEntry m v = Some e → vertexEntry m' v = Some e)
  ∧ newV ⊆ newV'
  ∧ (∀ k i, newV' !! k = Some i → newV !! k = None →
       isFreeVertex m i = true ∧ isFreeVertex m' i = false
       ∧ ∃ f t a b, f ∈ l ∧ vertexIndices m f = Some t ∧ (a, b) ∈ edgesOf t
                    ∧ k = edgeKey a b ∧ overlong exceeds maxLength m' a b = true)
  ∧ (∀ k k' i, newV' !! k = Some i → newV' !! k' = Some i →
       newV !! k = None → newV !! k' = None → k = k').

(** *** [extendAndFilterDomain] *)

Section FilterDomain.
Context {P : Type}.
(** Modelled from the spec: [SculptBrush], [PrimSphere], [PrimTriangle] and
    [IntersectionUtil] are absent from the sources.  [intersects m i] is
    [IntersectionUtil::intersects (sphere, mesh.face (i))], [contains m i]
    is [sphere.contains (mesh.face (i))], and [enum s] lists the elements of
    an [unordered_set] in the order in which a range-[for] visits them. *)
Variable intersects : DynamicMesh P → nat → bool.
Variable contains : DynamicMesh P → nat → bool.
Variable enum : gset nat → list nat.

(** The lambda that [extendAndFilterDomain] passes to [faces.filter]; the
    state is the set [frontier]. *)
Definition filterBySphere (m : DynamicMesh P) (i : nat) (frontier : gset nat)
    : option (gset nat * bool) :=
  if negb (intersects m i) then Some (frontier, false)
  else if negb (contains m i) then Some ({[ i ]} ∪ frontier, true)
  else Some (frontier, true).

(** The body of the three inner loops, for the adjacent face [a]. *)
Definition extendInto (frontier : gset nat) (st : DynamicFaces * gset nat) (a : nat)
    : DynamicFaces * gset nat :=
  let '(faces, extendedFrontier) := st in
  if negb (Faces.contains a faces) && bool_decide (a ∉ frontier)
  then (Faces.insert a faces, {[ a ]} ∪ extendedFrontier)
  else st.

(** The body of the loop over the frontier. *)
Definition extendFrontierFace (m : DynamicMesh P) (frontier : gset nat)
    (st : DynamicFaces * gset nat) (i : nat) : option (DynamicFaces * gset nat) :=
  '(i1, i2, i3) ← vertexIndices m i;
  Some (foldl (extendInto frontier)
          (foldl (extendInto frontier)
             (foldl (extendInto frontier) st (adjacentFaces m i1))
             (adjacentFaces m i2))
          (adjacentFaces m i3)).

Fixpoint extendFrontier (m : DynamicMesh P) (frontier : gset nat) (l : list nat)
    (st : DynamicFaces * gset nat) : option (DynamicFaces * gset nat) :=
  match l with
  | [] => Some st
  | i :: rest => st1 ← extendFrontierFace m frontier st i;
                 extendFrontier m frontier rest st1
  end.

(** The loop over the rings. *)
Fixpoint extendFrontierRings (m : DynamicMesh P) (numRings : nat) (frontier : gset nat)
    (faces : DynamicFaces) : option DynamicFaces :=
  match numRings with
  | 0 => Some faces
  | S n =>
      '(faces1, extendedFrontier) ←
        extendFrontier m frontier (enum frontier) (faces, ∅);
      extendFrontierRings m n extendedFrontier (Faces.commit faces1)
  end.

(** [extendAndFilterDomain]; [m] is [brush.mesh ()]. *)
Definition extendAndFilterDomain (m : DynamicMesh P) (faces : DynamicFaces)
    (numRings : nat) : option DynamicFaces :=
  _ ← assert (negb (Faces.hasUncomitted faces));
  '(frontier, kept) ← Faces.filterM (filterBySphere m) (indices faces) ∅;
  extendFrontierRings m numRings frontier (mkFaces kept (uncommitted faces)).
End FilterDomain.

(** The face [a] is adjacent to a corner of a face of the region that
    intersects the sphere without being contained in it. *)
Definition nearFrontier {P : Type} (intersects contains : DynamicMesh P → nat → bool)
    (m : DynamicMesh P) (faces : DynamicFaces) (a : nat) : Prop :=
  ∃ f v, f ∈ indices faces ∧ intersects m f = true ∧ contains m f = false
         ∧ hasCorner m v f = true ∧ a ∈ adjacentFaces m v.

(** *** [smooth] *)

Module Smooth.
Import SplitPosition.
Local Open Scope R_scope.

(** [a - b] on [glm::vec3] and [glm::distance2]. *)
Definition sub (a b : vec3) : vec3 :=
  let '(a1, a2, a3) := a in
  let '(b1, b2, b3) := b in (a1 - b1, a2 - b2, a3 - b3).

Definition distance2 (a b : vec3) : R := dot (sub a b) (sub a b).

(** [<] on [float], read over the reals. *)
Definition ltR (a b : R) : bool := if Rlt_dec a b then true else false.

(** [tangentialPos]: [avgPos - (normal * glm::dot (normal, delta))] with
    [delta = avgPos - mesh.vertex (i)]. *)
Definition tangential (avgPos normal p : vec3) : vec3 :=
  let delta := sub avgPos p in
  sub avgPos (scale (dot normal delta) normal).

(** The coefficients [b1], [b2], [b3] that the loop body computes for the
    face (p1, p2, p3) and the point [t]. *)
Definition barycentric (p1 p2 p3 t : vec3) : R * R * R :=
  let u := sub p2 p1 in
  let v := sub p3 p1 in
  let w := sub t p1 in
  let n := cross u v in
  let b1 := dot (cross u w) n / dot n n in
  let b2 := dot (cross w v) n / dot n n in
  (b1, b2, 1 - b1 - b2).

(** [proj = (b3 * p1) + (b2 * p2) + (b1 * p3)]. *)
Definition combine (p1 p2 p3 : vec3) (b : R * R * R) : vec3 :=
  let '(b1, b2, b3) := b in
  add (add (scale b3 p1) (scale b2 p2)) (scale b1 p3).

Section WithEpsilon.
(** Modelled from the spec: [Util::epsilon ()] and
    [DynamicMesh::averagePosition] are absent from the sources. *)
Variable epsilon : R.
Variable averagePosition : DynamicMesh vec3 → nat → vec3.

(** [lo < b && b < hi] with [lo = -epsilon] and [hi = 1 + epsilon]. *)
Definition inRange (b : R) : bool := ltR (- epsilon) b && ltR b (1 + epsilon).

(** The body of the loop over the adjacent faces of a vertex.  The state is
    [minDistance], where [None] stands for [Util::maxFloat ()], and
    [projectedPos]. *)
Definition projectOnFace (m : DynamicMesh vec3) (t : vec3) (st : option R * vec3)
    (a : nat) : option (option R * vec3) :=
  '(i1, i2, i3) ← vertexIndices m a;
  p1 ← vertex m i1;
  p2 ← vertex m i2;
  p3 ← vertex m i3;
  let '(b1, b2, b3) := barycentric p1 p2 p3 t in
  if inRange b1 && inRange b2 && inRange b3 then
    let proj := combine p1 p2 p3 (b1, b2, b3) in
    let d := distance2 t proj in
    if match fst st with Some minDistance => ltR d minDistance | None => true end
    then Some (Some d, proj)
    else Some st
  else Some st.

Fixpoint projectOnFaces (m : DynamicMesh vec3) (t : vec3) (l : list nat)
    (st : option R * vec3) : option (option R * vec3) :=
  match l with
  | [] => Some st
  | a :: rest => st1 ← projectOnFace m t st a; projectOnFaces m t rest st1
  end.

(** The lambda that [smooth] passes to [forEachVertex]: the position that
    is recorded for the vertex [i]. *)
Definition newPosition (m : DynamicMesh vec3) (i : nat) : option vec3 :=
  e ← vertexEntry m i;
  let avgPos := averagePosition m i in
  let tangentialPos := tangential avgPos (normal e) (position e) in
  '(minDistance, projectedPos) ←
    projectOnFaces m tangentialPos (adjacentFaces m i) (None, (0, 0, 0));
  Some (match minDistance with Some _ => projectedPos | None => tangentialPos end).

(** The first loop of [smooth]: the recorded pairs, in visiting order (the
    vertices of a region are visited once each). *)
Fixpoint recordPositions (m : DynamicMesh vec3) (l : list nat)
    : option (list (nat * vec3)) :=
  match l with
  | [] => Some []
  | i :: rest =>
      p ← newPosition m i;
      ps ← recordPositions m rest;
      Some ((i, p) :: ps)
  end.

(** The second loop of [smooth]. *)
Fixpoint writePositions (ps : list (nat * vec3)) (m : DynamicMesh vec3)
    : option (DynamicMesh vec3) :=
  match ps with
  | [] => Some m
  | (i, p) :: rest => m1 ← setVertex i p m; writePositions rest m1
  end.

(** [smooth]. *)
Definition smooth (m : DynamicMesh vec3) (faces : DynamicFaces)
    : option (DynamicMesh vec3) :=
  ps ← recordPositions m (regionVertices m faces);
  writePositions ps m.
End WithEpsilon.

(** The projection onto the face [a] that the loop body considers for the
    point [t]: [Some proj] when the three coefficients are in range. *)
Definition candidate (epsilon : R) (m : DynamicMesh vec3) (t : vec3) (a : nat)
    : option vec3 :=
  match vertexIndices m a with
  | Some (i1, i2, i3) =>
      match vertex m i1, vertex m i2, vertex m i3 with
      | Some p1, Some p2, Some p3 =>
          let '(b1, b2, b3) := barycentric p1 p2 p3 t in
          if inRange epsilon b1 && inRange epsilon b2 && inRange epsilon b3
          then Some (combine p1 p2 p3 (b1, b2, b3))
          else None
      | _, _, _ => None
      end
  | None => None
  end.

(** What the loop over the adjacent faces has found after the faces [l]:
    nothing if no face of [l] admits the point, else the projection onto a
    face of [l] that admits it, with the smallest squared distance. *)
Definition closestAmong (epsilon : R) (m : DynamicMesh vec3) (t : vec3) (l : list nat)
    (st : option R * vec3) : Prop :=
  match fst st with
  | None => ∀ a, a ∈ l → candidate epsilon m t a = None
  | Some d =>
      d = distance2 t (snd st)
      ∧ (∃ a, a ∈ l ∧ candidate epsilon m t a = Some (snd st))
      ∧ ∀ a proj, a ∈ l → candidate epsilon m t a = Some proj →
                  d <= distance2 t proj
  end.

(** The vertex [i] is live and so are the faces of its adjacency list and
    their corners: everything that [smooth] reads for [i] is there. *)
Definition readable (m : DynamicMesh vec3) (i : nat) : Prop :=
  isFreeVertex m i = false
  ∧ Forall (fun a => ∃ i1 i2 i3, vertexIndices m a = Some (i1, i2, i3)
                       ∧ isFreeVertex m i1 = false ∧ isFreeVertex m i2 = false
                       ∧ isFreeVertex m i3 = false)
           (adjacentFaces m i).

(** One triangle in the plane z = 0, with upward unit normals. *)
Definition flatTriangle : DynamicMesh vec3 :=
  mkMesh [Some (mkVertexEntry (0, 0, 0) (0, 0, 1) [0%nat]);
          Some (mkVertexEntry (1, 0, 0) (0, 0, 1) [0%nat]);
          Some (mkVertexEntry (0, 1, 0) (0, 0, 1) [0%nat])]
         [Some (0%nat, 1%nat, 2%nat)] [] [].
End Smooth.

(** [ToolSculptAction::smoothMesh]; [bufferData] writes render buffers
    only. *)
Definition smoothMesh (epsilon : R)
    (averagePosition computeNormal : DynamicMesh SplitPosition.vec3 → nat → SplitPosition.vec3)
    (m : DynamicMesh SplitPosition.vec3) : option (DynamicMesh SplitPosition.vec3) :=
  let faces := Faces.commit (Faces.insertAll (liveFaces m) Faces.empty) in
  m1 ← relaxEdges m faces;
  m2 ← Smooth.smooth epsilon averagePosition m1 faces;
  Some (finalize computeNormal m2 faces).

(** ** 14. The edge iterator of a face ([winged-edge-iterator.cpp]) *)

Module WingedEdgeIterator.
Section Iterator.
(** Modelled from the spec: [WingedFace], [LinkedEdge] and
    [WingedEdge::successor] are absent from the sources; [faceEdge f] is
    [f.edge ()], [successor e f] is [e->successor (f)], and [LinkedEdge]
    values are compared with [==]. *)
Context {WFace WEdge : Type} `{EqDecision WEdge}.
Variable faceEdge : WFace → WEdge.
Variable successor : WEdge → WFace → WEdge.

Record t := mk
  { _face : WFace; _start : WEdge; _edge : WEdge; _hasEdge : bool }.

(** The constructor [WingedEdgeIterator (const WingedFace& f)]. *)
Definition create (f : WFace) : t := mk f (faceEdge f) (faceEdge f) true.

(** [edge ()]. *)
Definition edge (it : t) : option WEdge :=
  _ ← assert (_hasEdge it);
  Some (_edge it).

(** [next ()]. *)
Definition next (it : t) : t :=
  let e := successor (_edge it) (_face it) in
  mk (_face it) (_start it) e
     (if decide (e = _start it) then false else _hasEdge it).

(** The iterator of the face [f] after [n] calls of [next ()]. *)
Definition advance (f : WFace) (n : nat) : t := Nat.iter n next (create f).

(** The [k]-th successor of the first edge of [f] around [f]. *)
Definition nthEdge (f : WFace) (k : nat) : WEdge :=
  Nat.iter k (fun e => successor e f) (faceEdge f).
End Iterator.
End WingedEdgeIterator.

(** ** 15. The vertex cache of the carve action ([carve.cpp]) *)

Module Carve.
Section Cache.
(** [P] stands for [glm::vec3] and [F] for [float], with the operations
    that the cache uses: [vec3 + vec3], [vec3 * float],
    [glm::distance <float>], [<] and [0.0f].  Modelled from the spec:
    [CarveBrush::y] (absent) is the function [brushY]. *)
Context {P F : Type}.
Variable add : P → P → P.
Variable scale : P → F → P.
Variable distance : P → P → F.
Variable ltF : F → F → bool.
Variable zeroF : F.
Variable brushY : F → F.

(** [class VertexData]. *)
Record VertexData := mkVertexData
  { position : P; normal : P; carved : bool; delta : F }.

(** The constructor [VertexData (p, n)]. *)
Definition newVertexData (p n : P) : VertexData := mkVertexData p n false zeroF.

Definition wasCarved (vd : VertexData) : bool := carved vd.
Definition getDelta (vd : VertexData) : F := delta vd.

Definition setDelta (d : F) (vd : VertexData) : VertexData :=
  mkVertexData (position vd) (normal vd) true d.

(** [CarveCache::Impl::vertexCache]. *)
Local Abbreviation VertexCache := (gmap nat VertexData).

(** [std::unordered_map::emplace]: an element whose key is present is kept;
    the result carries the element that the returned iterator refers to. *)
Definition emplace (k : nat) (data : VertexData) (cache : VertexCache)
    : VertexCache * VertexData :=
  match cache !! k with
  | Some old => (cache, old)
  | None => (<[k := data]> cache, data)
  end.

(** [cacheVertex]; [index], [p] and [n] are [vertex.index ()],
    [vertex.vertex (mesh)] and [vertex.normal (mesh)]. *)
Definition cacheVertex (index : nat) (p n : P) (cache : VertexCache)
    : VertexCache * VertexData :=
  match cache !! index with
  | Some it =>
      if negb (wasCarved it) then emplace index (newVertexData p n) cache
      else (cache, it)
  | None => emplace index (newVertexData p n) cache
  end.

(** [cachedVertex]; [assert (false)] when the vertex is not cached. *)
Definition cachedVertex (index : nat) (cache : VertexCache) : option VertexData :=
  cache !! index.

(** [reset], on the vertex cache. *)
Definition reset : VertexCache := ∅.

(** [ActionCarve::Impl::delta]. *)
Definition brushDelta (poa : P) (vd : VertexData) : F :=
  brushY (distance (position vd) poa).

(** [carvedVertex]. *)
Definition carvedVertex (poa : P) (vd : VertexData) : P :=
  add (position vd) (scale (normal vd) (brushDelta poa vd)).

(** [glm::max (x, y)], which is [(x < y) ? y : x]. *)
Definition maxF (x y : F) : F := if ltF x y then y else x.

(** [carveVertex]; the [VertexData&] argument is updated in place, so the
    updated record is returned with the position. *)
Definition carveVertex (poa : P) (vd : VertexData) : VertexData * P :=
  let vd1 := setDelta (maxF (getDelta vd) (brushDelta poa vd)) vd in
  (vd1, add (position vd1) (scale (normal vd1) (getDelta vd1))).

(** The loop "Compute new positions" of [carveFaces] over the vertices of
    the affected faces; [cachedVertex] returns a reference into the cache,
    which [carveVertex] updates. *)
Fixpoint computeNewPositions (poa : P) (vertices : list nat) (cache : VertexCache)
    : option (VertexCache * list P) :=
  match vertices with
  | [] => Some (cache, [])
  | v :: rest =>
      vd ← cachedVertex v cache;
      let '(vd1, p) := carveVertex poa vd in
      '(cache1, newPositions) ← computeNewPositions poa rest (<[v := vd1]> cache);
      Some (cache1, p :: newPositions)
  end.
End Cache.
End Carve.

(** * Properties *)

(** ** Tactics *)

(** Reduce the binds of the option monad, and nothing else. *)
Ltac binds := cbn [mbind option_bind fmap option_fmap option_map prod_map fst snd].

(** Close [faceAround] and [fanOk] goals on a concrete mesh. *)
Ltac solve_faceAround :=
  eexists _, _, _; split; [reflexivity|];
  repeat (split; [done|]);
  split; [first [by left | by right; left | by right; right]|];
  repeat split; reflexivity.

Ltac solve_fanOk :=
  split;
  [ apply (bool_decide_unpack _); vm_compute; exact I
  | cbv [adjacentFaces vertexEntry]; cbn;
    repeat (apply Forall_cons; split; [solve_faceAround|]); by apply Forall_nil ].

(** ** Basic facts about keys and the midpoint map *)

Lemma makeUiKey_Some (a b : nat) : a ≠ b → makeUiKey a b = Some (edgeKey a b).
Proof.
  intros Hab. unfold makeUiKey, assert.
  destruct (Nat.eqb_spec a b) as [->|_]; [done|]. reflexivity.
Qed.

Lemma makeUiKey_None (a : nat) : makeUiKey a a = None.
Proof. unfold makeUiKey, assert. by rewrite Nat.eqb_refl. Qed.

Lemma findVertex_Some (newV : NewVertices) (a b : nat) :
  a ≠ b → findVertex newV a b = Some (newV !! edgeKey a b).
Proof. intros Hab. unfold findVertex. by rewrite makeUiKey_Some. Qed.

Lemma hasVertex_Some (newV : NewVertices) (a b : nat) :
  a ≠ b → hasVertex newV a b = Some (bool_decide (is_Some (newV !! edgeKey a b))).
Proof.
  intros Hab. unfold hasVertex. rewrite findVertex_Some by done. simpl.
  destruct (newV !! edgeKey a b) eqn:E.
  - by rewrite bool_decide_eq_true_2.
  - rewrite bool_decide_eq_false_2; [done|]. by intros [? ?].
Qed.

(** ** Triangulation *)

Section TriangulateFacts.
Context {P : Type}.

End TriangulateFacts.

(** ** The mesh store: frame lemmas *)

Section StoreFacts.
Context {P : Type}.
Implicit Types (m : DynamicMesh P) (f v : nat).

Lemma pushAdjacent_faces f v m m' :
  pushAdjacent f v m = Some m' →
  faceTable m' = faceTable m ∧ freeFaceIndices m' = freeFaceIndices m
  ∧ freeVertexIndices m' = freeVertexIndices m
  ∧ length (vertexTable m') = length (vertexTable m).
Proof.
  unfold pushAdjacent. destruct (vertexEntry m v); simpl; [|done].
  intros [= <-]. simpl. by rewrite length_insert.
Qed.

Lemma dropAdjacent_faces f v m m' :
  dropAdjacent f v m = Some m' →
  faceTable m' = faceTable m ∧ freeFaceIndices m' = freeFaceIndices m
  ∧ freeVertexIndices m' = freeVertexIndices m
  ∧ length (vertexTable m') = length (vertexTable m).
Proof.
  unfold dropAdjacent. destruct (vertexEntry m v); simpl; [|done].
  intros [= <-]. simpl. by rewrite length_insert.
Qed.

Lemma deleteFace_inv f m m' :
  deleteFace f m = Some m' →
  is_Some (vertexIndices m f)
  ∧ faceTable m' = <[f := None]> (faceTable m)
  ∧ freeFaceIndices m' = f :: freeFaceIndices m
  ∧ freeVertexIndices m' = freeVertexIndices m
  ∧ length (vertexTable m') = length (vertexTable m).
Proof.
  unfold deleteFace. destruct (vertexIndices m f) as [[[i1 i2] i3]|]; simpl; [|done].
  destruct (dropAdjacent f i1 m) as [m1|] eqn:E1; simpl; [|done].
  destruct (dropAdjacent f i2 m1) as [m2|] eqn:E2; simpl; [|done].
  destruct (dropAdjacent f i3 m2) as [m3|] eqn:E3; simpl; [|done].
  intros [= <-]. simpl.
  apply dropAdjacent_faces in E1 as (E1a & E1b & E1c & E1d).
  apply dropAdjacent_faces in E2 as (E2a & E2b & E2c & E2d).
  apply dropAdjacent_faces in E3 as (E3a & E3b & E3c & E3d).
  rewrite E3a, E2a, E1a, E3b, E2b, E1b, E3c, E2c, E1c, E3d, E2d, E1d.
  eauto.
Qed.

Lemma addFace_inv i1 i2 i3 m m' g :
  addFace i1 i2 i3 m = Some (m', g) →
  match freeFaceIndices m with
  | g0 :: rest =>
      g = g0 ∧ faceTable m' = <[g0 := Some (i1, i2, i3)]> (faceTable m)
      ∧ freeFaceIndices m' = rest
  | [] =>
      g = length (faceTable m) ∧ faceTable m' = faceTable m ++ [Some (i1, i2, i3)]
      ∧ freeFaceIndices m' = []
  end
  ∧ freeVertexIndices m' = freeVertexIndices m
  ∧ length (vertexTable m') = length (vertexTable m).
Proof.
  unfold addFace.
  destruct (freeFaceIndices m) as [|g0 rest] eqn:Efree; simpl.
  - destruct (pushAdjacent _ i1 _) as [m1|] eqn:E1; simpl; [|done].
    destruct (pushAdjacent _ i2 m1) as [m2|] eqn:E2; simpl; [|done].
    destruct (pushAdjacent _ i3 m2) as [m3|] eqn:E3; simpl; [|done].
    intros [= <- <-].
    apply pushAdjacent_faces in E1 as (E1a & E1b & E1c & E1d).
    apply pushAdjacent_faces in E2 as (E2a & E2b & E2c & E2d).
    apply pushAdjacent_faces in E3 as (E3a & E3b & E3c & E3d).
    simpl in *. rewrite E3a, E2a, E1a, E3b, E2b, E1b, E3c, E2c, E1c, E3d, E2d, E1d.
    done.
  - destruct (pushAdjacent _ i1 _) as [m1|] eqn:E1; simpl; [|done].
    destruct (pushAdjacent _ i2 m1) as [m2|] eqn:E2; simpl; [|done].
    destruct (pushAdjacent _ i3 m2) as [m3|] eqn:E3; simpl; [|done].
    intros [= <- <-].
    apply pushAdjacent_faces in E1 as (E1a & E1b & E1c & E1d).
    apply pushAdjacent_faces in E2 as (E2a & E2b & E2c & E2d).
    apply pushAdjacent_faces in E3 as (E3a & E3b & E3c & E3d).
    simpl in *. rewrite E3a, E2a, E1a, E3b, E2b, E1b, E3c, E2c, E1c, E3d, E2d, E1d.
    done.
Qed.

Lemma isFreeFace_lookup m f :
  isFreeFace m f = match faceTable m !! f with Some (Some _) => false | _ => true end.
Proof.
  unfold isFreeFace, vertexIndices.
  by destruct (faceTable m !! f) as [[?|]|].
Qed.

Lemma vertexIndices_lt m f t : vertexIndices m f = Some t → f < length (faceTable m).
Proof.
  unfold vertexIndices. intros H. apply lookup_lt_is_Some.
  destruct (faceTable m !! f); [eauto|done].
Qed.
End StoreFacts.

(** ** Edge flips *)

Section RelaxFacts.
Context {P : Type}.
Implicit Types (m : DynamicMesh P) (f v : nat) (edge : nat * nat).

(** What the four mesh operations of a flip do to the face table. *)
Lemma flipEdge_inv m edge lf lv rf rv m' nl nr :
  flipEdge m edge lf lv rf rv = Some (m', nl, nr) →
  nl = rf ∧ nr = lf ∧ lf ≠ rf
  ∧ isFreeFace m lf = false ∧ isFreeFace m rf = false
  ∧ faceTable m' = <[lf := Some (rv, snd edge, lv)]>
                     (<[rf := Some (lv, fst edge, rv)]> (faceTable m))
  ∧ freeFaceIndices m' = freeFaceIndices m.
Proof.
  unfold flipEdge.
  destruct (deleteFace lf m) as [m1|] eqn:E1; simpl; [|done].
  destruct (deleteFace rf m1) as [m2|] eqn:E2; simpl; [|done].
  destruct (addFace lv edge.1 rv m2) as [[m3 g3]|] eqn:E3; simpl; [|done].
  destruct (addFace rv edge.2 lv m3) as [[m4 g4]|] eqn:E4; simpl; [|done].
  intros [= <- <- <-].
  apply deleteFace_inv in E1 as ([t1 Ht1] & F1 & R1 & _).
  apply deleteFace_inv in E2 as ([t2 Ht2] & F2 & R2 & _).
  apply addFace_inv in E3 as [E3 _]. rewrite R2 in E3. destruct E3 as (-> & F3 & R3).
  apply addFace_inv in E4 as [E4 _]. rewrite R3, R1 in E4. destruct E4 as (-> & F4 & R4).
  assert (Hlt : lf < length (faceTable m)) by by eapply vertexIndices_lt.
  assert (Hne : lf ≠ rf).
  { intros ->. unfold vertexIndices in Ht2. rewrite F1 in Ht2.
    rewrite list_lookup_insert_eq in Ht2 by done. done. }
  assert (Hrf : vertexIndices m rf = Some t2).
  { unfold vertexIndices in *. rewrite F1 in Ht2.
    by rewrite list_lookup_insert_ne in Ht2. }
  repeat split; try done.
  - unfold isFreeFace. by rewrite Ht1.
  - unfold isFreeFace. by rewrite Hrf.
  - rewrite F4, F3, F2, F1.
    rewrite list_insert_insert_eq.
    rewrite (list_insert_insert_ne _ rf lf) by done.
    by rewrite list_insert_insert_eq.
Qed.

Lemma flipEdge_isFreeFace m edge lf lv rf rv m' nl nr f :
  flipEdge m edge lf lv rf rv = Some (m', nl, nr) →
  isFreeFace m' f = isFreeFace m f.
Proof.
  intros H. apply flipEdge_inv in H as (_ & _ & Hne & Hl & Hr & FT & _).
  rewrite !isFreeFace_lookup in *. rewrite FT.
  destruct (decide (f = lf)) as [->|Hfl].
  - destruct (faceTable m !! lf) as [[?|]|] eqn:E; try done.
    rewrite list_lookup_insert_eq; [done|].
    rewrite length_insert. by eapply lookup_lt_Some.
  - rewrite list_lookup_insert_ne by done.
    destruct (decide (f = rf)) as [->|Hfr].
    + destruct (faceTable m !! rf) as [[?|]|] eqn:E; try done.
      rewrite list_lookup_insert_eq; [done|]. by eapply lookup_lt_Some.
    + by rewrite list_lookup_insert_ne.
Qed.

Lemma relaxEdge_isFreeFace m edge m' f :
  relaxEdge m edge = Some m' → isFreeFace m' f = isFreeFace m f.
Proof.
  unfold relaxEdge.
  destruct (findAdjacent m edge.1 edge.2) as [[[[lf lv] rf] rv]|]; simpl; [|done].
  destruct (isRelaxable m edge lv rv); [|by intros [= <-]].
  destruct (flipEdge m edge lf lv rf rv) as [[[m1 nl] nr]|] eqn:E; simpl; [|done].
  destruct (assert (nl =? rf)); simpl; [|done].
  destruct (assert (nr =? lf)); simpl; [|done].
  intros [= <-]. by eapply flipEdge_isFreeFace.
Qed.

Lemma relaxEdges_loop_isFreeFace (l : list (nat * nat)) m m' f :
  relaxEdges_loop l m = Some m' → isFreeFace m' f = isFreeFace m f.
Proof.
  revert m. induction l as [|e l IH]; intros m; simpl.
  - by intros [= <-].
  - destruct (relaxEdge m e) as [m1|] eqn:E; simpl; [|done].
    intros H. rewrite (IH _ H). by eapply relaxEdge_isFreeFace.
Qed.

(** The assertions [newLeftFace == rightFace] and [newRightFace == leftFace]
    never fire: a flip that the mesh store carries out passes them. *)
Lemma relaxEdge_flip m edge lf lv rf rv :
  findAdjacent m (fst edge) (snd edge) = Some (lf, lv, rf, rv) →
  relaxEdge m edge =
    if isRelaxable m edge lv rv
    then '(m1, _, _) ← flipEdge m edge lf lv rf rv; Some m1
    else Some m.
Proof.
  intros Hadj. unfold relaxEdge. rewrite Hadj. simpl.
  destruct (isRelaxable m edge lv rv); [|done].
  destruct (flipEdge m edge lf lv rf rv) as [[[m1 nl] nr]|] eqn:E; simpl; [|done].
  apply flipEdge_inv in E as (-> & -> & _).
  unfold assert. by rewrite !Nat.eqb_refl.
Qed.

(** C10.  An edge flip of [relaxEdges] gets back from [addFace] exactly the
    two face indices it has just freed, the new left face at the old right
    face's index and the new right face at the old left face's index; a
    whole [relaxEdges] pass therefore leaves the set of live face indices
    as it was, and every committed index of a region that referred to a
    live face still does. *)
Theorem relaxEdges_keeps_live_faces m :
  (∀ edge lf lv rf rv m' nl nr,
      flipEdge m edge lf lv rf rv = Some (m', nl, nr) →
      nl = rf ∧ nr = lf ∧ lf ≠ rf
      ∧ vertexIndices m' nl = Some (lv, fst edge, rv)
      ∧ vertexIndices m' nr = Some (rv, snd edge, lv)
      ∧ freeFaceIndices m' = freeFaceIndices m
      ∧ ∀ f, isFreeFace m' f = isFreeFace m f)
  ∧ (∀ faces m',
      relaxEdges m faces = Some m' →
      (∀ f, isFreeFace m' f = isFreeFace m f)
      ∧ (Forall (fun f => isFreeFace m f = false) (indices faces) →
         Forall (fun f => isFreeFace m' f = false) (indices faces))).
Proof.
  split.
  - intros edge lf lv rf rv m' nl nr H.
    pose proof (flipEdge_inv _ _ _ _ _ _ _ _ _ H) as (-> & -> & Hne & Hl & Hr & FT & FR).
    rewrite !isFreeFace_lookup in Hl, Hr.
    assert (lf < length (faceTable m)).
    { apply lookup_lt_is_Some. destruct (faceTable m !! lf); [eauto|done]. }
    assert (rf < length (faceTable m)).
    { apply lookup_lt_is_Some. destruct (faceTable m !! rf); [eauto|done]. }
    repeat split; try done.
    + unfold vertexIndices. rewrite FT.
      rewrite list_lookup_insert_ne by done.
      by rewrite list_lookup_insert_eq.
    + unfold vertexIndices. rewrite FT.
      rewrite list_lookup_insert_eq; [done|]. by rewrite length_insert.
    + intros f. by eapply flipEdge_isFreeFace.
  - intros faces m'. unfold relaxEdges.
    destruct (assert _); simpl; [|done].
    destruct (candidateEdges m faces) as [es|]; simpl; [|done].
    intros H.
    assert (Hall : ∀ f, isFreeFace m' f = isFreeFace m f).
    { intros f. by eapply relaxEdges_loop_isFreeFace. }
    split; [done|].
    intros HF. eapply Forall_impl; [exact HF|]. intros f Hf. simpl in Hf.
    by rewrite Hall.
Qed.
End RelaxFacts.

Section RelaxRule.
Context {P : Type}.
Implicit Types (m : DynamicMesh P) (s : EdgeSet) (edge : nat * nat).

Lemma insertEdge_canonical i1 i2 s s' :
  insertEdge i1 i2 s = Some s' → canonical s → canonical s'.
Proof.
  unfold insertEdge, makeUiKey, assert.
  destruct (Nat.eqb_spec i1 i2) as [->|Hne]; simpl; [done|].
  intros [= <-] Hs e He. apply elem_of_union in He as [He|He]; [|by apply Hs].
  apply elem_of_singleton in He as ->. simpl. lia.
Qed.

Lemma collectFace_canonical m i s a s' :
  collectFace m i s a = Some s' → canonical s → canonical s'.
Proof.
  unfold collectFace.
  destruct (vertexIndices m a) as [[[i1 i2] i3]|]; simpl; [|done].
  destruct (negb (i =? i1)).
  - destruct (insertEdge i i1 s) as [s1|] eqn:E1; simpl; [|done].
    destruct (negb (i =? i2)).
    + destruct (insertEdge i i2 s1) as [s2|] eqn:E2; simpl; [|done].
      destruct (negb (i =? i3)); [|intros [= <-]]; eauto using insertEdge_canonical.
    + simpl. destruct (negb (i =? i3)); [|intros [= <-]];
        eauto using insertEdge_canonical.
  - simpl. destruct (negb (i =? i2)).
    + destruct (insertEdge i i2 s) as [s2|] eqn:E2; simpl; [|done].
      destruct (negb (i =? i3)); [|intros [= <-]]; eauto using insertEdge_canonical.
    + simpl. destruct (negb (i =? i3)); [|intros [= <-]];
        eauto using insertEdge_canonical.
Qed.

Lemma collectFaces_canonical m i l s s' :
  collectFaces m i l s = Some s' → canonical s → canonical s'.
Proof.
  revert s. induction l as [|a l IH]; intros s; simpl.
  - by intros [= <-].
  - destruct (collectFace m i s a) as [s1|] eqn:E; simpl; [|done].
    eauto using collectFace_canonical.
Qed.

Lemma collectEdges_canonical m l s s' :
  collectEdges m l s = Some s' → canonical s → canonical s'.
Proof.
  revert s. induction l as [|i l IH]; intros s; simpl.
  - by intros [= <-].
  - unfold collectVertex at 1.
    destruct (6 <? valence m i).
    + destruct (collectFaces m i (adjacentFaces m i) s) as [s1|] eqn:E; simpl; [|done].
      eauto using collectFaces_canonical.
    + simpl. eauto.
Qed.

Lemma isRelaxable_spec m edge lv rv :
  isRelaxable m edge lv rv = true ↔
    3 < valence m (fst edge) ∧ 3 < valence m (snd edge)
    ∧ (post (Z.of_nat (valence m (fst edge))) (Z.of_nat (valence m (snd edge)))
            (Z.of_nat (valence m lv)) (Z.of_nat (valence m rv))
       < pre (Z.of_nat (valence m (fst edge))) (Z.of_nat (valence m (snd edge)))
             (Z.of_nat (valence m lv)) (Z.of_nat (valence m rv)))%Z.
Proof.
  unfold isRelaxable, pre, post.
  rewrite !andb_true_iff, !Z.ltb_lt.
  replace (Z.of_nat (valence m edge.1) - 6 - 1)%Z
    with (Z.of_nat (valence m edge.1) - 7)%Z by lia.
  replace (Z.of_nat (valence m edge.2) - 6 - 1)%Z
    with (Z.of_nat (valence m edge.2) - 7)%Z by lia.
  replace (Z.of_nat (valence m lv) - 6 + 1)%Z
    with (Z.of_nat (valence m lv) - 5)%Z by lia.
  replace (Z.of_nat (valence m rv) - 6 + 1)%Z
    with (Z.of_nat (valence m rv) - 5)%Z by lia.
  split; intros [[H1 H2] H3] || intros (H1 & H2 & H3); repeat split; try done; lia.
Qed.

(** C5.  For a candidate edge (e1, e2) of [relaxEdges] with opposite
    vertices (vL, vR), the flip is performed if and only if
    valence(e1) > 3, valence(e2) > 3 and post < pre, with pre and post the
    valence deviations of the specification; a performed flip deletes the
    two incident faces and adds (vL, e1, vR) and (vR, e2, vL); the edges
    that a pass considers are canonical keys without repetition, and the
    pass handles each of them once. *)
Theorem relaxEdges_flip_rule m :
  (∀ edge lv rv,
      isRelaxable m edge lv rv = true ↔
        3 < valence m (fst edge) ∧ 3 < valence m (snd edge)
        ∧ (post (Z.of_nat (valence m (fst edge))) (Z.of_nat (valence m (snd edge)))
                (Z.of_nat (valence m lv)) (Z.of_nat (valence m rv))
           < pre (Z.of_nat (valence m (fst edge))) (Z.of_nat (valence m (snd edge)))
                 (Z.of_nat (valence m lv)) (Z.of_nat (valence m rv)))%Z)
  ∧ (∀ edge lf lv rf rv,
      findAdjacent m (fst edge) (snd edge) = Some (lf, lv, rf, rv) →
      relaxEdge m edge =
        if isRelaxable m edge lv rv
        then m1 ← deleteFace lf m;
             m2 ← deleteFace rf m1;
             '(m3, _) ← addFace lv (fst edge) rv m2;
             '(m4, _) ← addFace rv (snd edge) lv m3;
             Some m4
        else Some m)
  ∧ (∀ faces es,
      candidateEdges m faces = Some es →
      NoDup es ∧ Forall (fun e => fst e < snd e) es
      ∧ (Faces.hasUncomitted faces = false →
         relaxEdges m faces = relaxEdges_loop es m)).
Proof.
  split; [|split].
  - intros. apply isRelaxable_spec.
  - intros edge lf lv rf rv Hadj. rewrite (relaxEdge_flip _ _ _ _ _ _ Hadj).
    destruct (isRelaxable m edge lv rv); [|done].
    unfold flipEdge.
    destruct (deleteFace lf m) as [m1|]; simpl; [|done].
    destruct (deleteFace rf m1) as [m2|]; simpl; [|done].
    destruct (addFace lv edge.1 rv m2) as [[m3 g3]|]; simpl; [|done].
    by destruct (addFace rv edge.2 lv m3) as [[m4 g4]|].
  - intros faces es. unfold candidateEdges.
    destruct (collectEdges m (regionVertices m faces) ∅) as [s|] eqn:E; simpl; [|done].
    intros [= <-]. split; [apply NoDup_elements|]. split.
    + apply Forall_forall. intros e He. apply elem_of_elements in He.
      revert e He. change (canonical s).
      eapply collectEdges_canonical; [exact E|]. intros e He. set_solver.
    + intros Hu. unfold relaxEdges, candidateEdges. rewrite Hu, E. done.
Qed.
End RelaxRule.

(** ** Edge split *)

Section SplitFacts.
Context {P F : Type}.
Variable exceeds : F → P → P → bool.
Variable getSplitPosition : P → P → P → P → P.
Variable splitNormal : P → P → P.
Implicit Types (m : DynamicMesh P) (newV : NewVertices).

Local Abbreviation splitUnlessPresent' :=
  (splitUnlessPresent exceeds getSplitPosition splitNormal).
Local Abbreviation splitFace' := (splitFace exceeds getSplitPosition splitNormal).

Lemma splitUnlessPresent_inv maxLength a b m newV w m1 newV1 w1 :
  splitUnlessPresent' maxLength a b (m, newV, w) = Some (m1, newV1, w1) →
  (newV1 = newV ∧ w1 = w)
  ∨ (∃ i, newV !! edgeKey a b = None ∧ newV1 = <[edgeKey a b := i]> newV ∧ w1 = true).
Proof.
  unfold splitUnlessPresent.
  destruct (decide (a = b)) as [->|Hab].
  { unfold hasVertex, findVertex. by rewrite makeUiKey_None. }
  rewrite hasVertex_Some by done. simpl.
  case_bool_decide as Hin; simpl.
  { intros [= <- <- <-]. by left. }
  unfold split.
  destruct (vertexEntry m a) as [va|]; simpl; [|done].
  destruct (vertexEntry m b) as [vb|]; simpl; [|done].
  destruct (exceeds maxLength (position va) (position vb)).
  - destruct (addVertex _ _ m) as [m2 i3].
    unfold insertInEdge. rewrite hasVertex_Some by done. simpl.
    rewrite bool_decide_eq_false_2 by done. simpl.
    rewrite makeUiKey_Some by done. simpl.
    intros [= <- <- <-]. right. exists i3. split; [|done].
    destruct (newV !! edgeKey a b) eqn:E; [|done]. exfalso. apply Hin. eauto.
  - simpl. intros [= <- <- <-]. by left.
Qed.

(** The map only grows while a face is processed. *)
Lemma splitUnlessPresent_mono maxLength a b m newV w m1 newV1 w1 :
  splitUnlessPresent' maxLength a b (m, newV, w) = Some (m1, newV1, w1) →
  newV ⊆ newV1 ∧ (w = true → w1 = true)
  ∧ (w1 = false → newV1 = newV)
  ∧ (w1 = true → w = true ∨ receivedMidpoint newV newV1 (edgeKey a b)).
Proof.
  intros H. apply splitUnlessPresent_inv in H as [[-> ->]|(i & Hnone & -> & ->)].
  - repeat split; try done. intros ->. by left.
  - repeat split; try done.
    + by apply insert_subseteq.
    + intros _. right. split; [done|]. exists i. apply lookup_insert_eq.
Qed.

Lemma receivedMidpoint_mono (a b c d : NewVertices) (e : nat * nat) :
  a ⊆ b → c ⊆ d → receivedMidpoint b c e → receivedMidpoint a d e.
Proof.
  intros Hab Hcd [Hn [x Hx]]. split.
  - destruct (a !! e) eqn:E; [|done].
    eapply lookup_weaken in E; [|exact Hab]. exact (eq_trans (eq_sym E) Hn).
  - exists x. by eapply lookup_weaken.
Qed.

(** The filter predicate of [splitEdges] answers [true] exactly when the
    processing of this face registered a midpoint on one of its edges. *)
Lemma splitFace_keep maxLength f m newV m' newV' keep i1 i2 i3 :
  vertexIndices m f = Some (i1, i2, i3) →
  splitFace' maxLength f (m, newV) = Some (m', newV', keep) →
  keep = true ↔ ∃ e, e ∈ edgeKeys (i1, i2, i3) ∧ receivedMidpoint newV newV' e.
Proof.
  intros Hf. unfold splitFace. rewrite Hf. cbn [mbind option_bind].
  destruct (splitUnlessPresent' maxLength i1 i2 (m, newV, false))
    as [[[m1 nv1] w1]|] eqn:E1; cbn [mbind option_bind]; [|done].
  destruct (splitUnlessPresent' maxLength i1 i3 (m1, nv1, w1))
    as [[[m2 nv2] w2]|] eqn:E2; cbn [mbind option_bind]; [|done].
  intros E3.
  apply splitUnlessPresent_mono in E1 as (S1 & _ & Z1 & T1).
  apply splitUnlessPresent_mono in E2 as (S2 & K2 & Z2 & T2).
  apply splitUnlessPresent_mono in E3 as (S3 & K3 & Z3 & T3).
  split.
  - intros ->. destruct (T3 eq_refl) as [->|R3].
    + destruct (T2 eq_refl) as [->|R2].
      * destruct (T1 eq_refl) as [?|R1]; [done|].
        exists (edgeKey i1 i2). split; [set_solver|].
        eapply receivedMidpoint_mono; [reflexivity| |exact R1]. by etrans.
      * exists (edgeKey i1 i3). split; [set_solver|].
        eapply receivedMidpoint_mono; [exact S1|exact S3|exact R2].
    + exists (edgeKey i2 i3). split; [set_solver|].
      eapply receivedMidpoint_mono; [|reflexivity|exact R3]. by etrans.
  - intros (e & _ & Hn & [x Hx]). destruct keep; [done|]. exfalso.
    rewrite (Z3 eq_refl) in Hx.
    destruct w2.
    { specialize (K3 eq_refl). done. }
    rewrite (Z2 eq_refl) in Hx.
    destruct w1.
    { specialize (K2 eq_refl). done. }
    rewrite (Z1 eq_refl) in Hx. congruence.
Qed.
End SplitFacts.

Section SplitRetention.
Context {P F : Type}.
Variable exceeds : F → P → P → bool.
Variable getSplitPosition : P → P → P → P → P.
Variable splitNormal : P → P → P.

End SplitRetention.


(** ** The collapse driver *)

Section DriverFacts.
Context {P : Type}.
Variable between : P → P → P.
Variable zero : P.
Implicit Types (m : DynamicMesh P) (doCollapse : @CollapsePredicate P).

Lemma hasUncomitted_commit (fs : DynamicFaces) :
  Faces.hasUncomitted (Faces.commit fs) = false.
Proof. reflexivity. Qed.

(** The staging buffer of [current] is empty whenever the loop condition is
    evaluated, so the body of the [do ... while] loop runs exactly once. *)
Lemma collapseEdges_loop_once fuel doCollapse m faces current collapsed :
  collapseEdges_loop between zero (S fuel) doCollapse m faces current collapsed =
    ('(m1, collapsed1) ←
       collapseScan between zero doCollapse (Faces.commit current)
                    (indices (Faces.commit current)) (m, collapsed);
     Some (m1, Faces.insertAll (uncommitted current) faces, Faces.commit current,
           collapsed1)).
Proof.
  cbn [collapseEdges_loop]. rewrite hasUncomitted_commit.
  destruct (collapseScan _ _ _ _ _ _) as [[m1 c1]|]; reflexivity.
Qed.

Lemma collapseEdges_fuel fuel doCollapse m faces :
  collapseEdges between zero (S fuel) doCollapse m faces =
  collapseEdges between zero 1 doCollapse m faces.
Proof. unfold collapseEdges. by rewrite !collapseEdges_loop_once. Qed.

(** C7, as the code has it.  For a visited non-free face (i1, i2, i3) the
    driver calls [collapseEdge] on the first of the edges (i1, i2),
    (i1, i3), (i2, i3) that satisfies the predicate, and on no other edge of
    the face, whether or not that call succeeds; it does nothing when no
    edge satisfies the predicate. *)
Theorem collapseFace_first_accepted_edge doCollapse (current : DynamicFaces) m
    (collapsed : bool) (i i1 i2 i3 : nat) (c12 c13 c23 : bool) :
  isFreeFace m i = false →
  vertexIndices m i = Some (i1, i2, i3) →
  doCollapse m i1 i2 = Some c12 →
  doCollapse m i1 i3 = Some c13 →
  doCollapse m i2 i3 = Some c23 →
  collapseFace between zero doCollapse current (m, collapsed) i =
    match firstAccepted (i1, i2, i3) c12 c13 c23 with
    | Some (a, b) =>
        '(m1, r) ← collapseEdge between zero m a b current;
        Some (m1, r || collapsed)
    | None => Some (m, collapsed)
    end.
Proof.
  intros Hfree Hf H12 H13 H23. unfold collapseFace, firstAccepted.
  rewrite Hfree, Hf. cbn [negb mbind option_bind]. rewrite H12.
  cbn [mbind option_bind]. destruct c12; [done|].
  rewrite H13. cbn [mbind option_bind]. destruct c13; [done|].
  rewrite H23. cbn [mbind option_bind]. by destruct c23.
Qed.
End DriverFacts.

(** C7, counterexample.  In the capped octahedron, face 5 = (1, 0, 4): the
    predicate of [collapseAllEdges] accepts every edge; [collapseEdge] rejects
    the first edge (1, 0) and would perform the collapse of the second edge
    (1, 4); the driver leaves the mesh as it is and reports no collapse. *)
Lemma collapseFace_no_retry_after_rejection :
  vertexIndices Example.capped 5 = Some (1, 0, 4)
  ∧ collapseEdge Example.between Example.zero Example.capped 1 0 (mkFaces [5] [])
    = Some (Example.capped, false)
  ∧ (∃ m', collapseEdge Example.between Example.zero Example.capped 1 4
                        (mkFaces [5] [])
           = Some (m', true))
  ∧ collapseFace Example.between Example.zero Example.always (mkFaces [5] [])
                 (Example.capped, false) 5
    = Some (Example.capped, false).
Proof.
  split; [reflexivity|]. split; [vm_compute; reflexivity|].
  split; [eexists; vm_compute; reflexivity|]. vm_compute; reflexivity.
Qed.

(** C1.  In the capped octahedron, with the predicate of [collapseAllEdges]
    and the region {0}: the scan collapses the edge (6, 0) of face 0 by
    removing the valence-3 vertex 6, which creates face 2 = (0, 1, 2) and
    inserts it into the staging buffer of the face set that [collapseEdge]
    received by value.  The staging buffer of [current] stays empty, the loop
    ends after this iteration, the new face 2 is never scanned (a scan of it
    would collapse a further edge) and it is absent from the returned region. *)
Theorem collapseEdges_drops_new_faces :
  (∃ m1, deleteValence3Vertex Example.capped 6 (mkFaces [0] [])
         = Some (m1, mkFaces [0] [2], true))
  ∧ ∃ m', collapseEdges Example.between Example.zero 1 Example.always
                        Example.capped (mkFaces [0] [])
          = Some (m', mkFaces [0] [], true)
    ∧ vertexIndices m' 2 = Some (0, 1, 2)
    ∧ ∃ m'', collapseFace Example.between Example.zero Example.always
                          (mkFaces [2] []) (m', false) 2
             = Some (m'', true).
Proof.
  split; [eexists; vm_compute; reflexivity|].
  eexists. split; [vm_compute; reflexivity|]. split; [reflexivity|].
  eexists. vm_compute. reflexivity.
Qed.

(** C9, counterexample.  On the pentagonal bipyramid whose equator edge
    (1, 2) is degenerate, the first call collapses that edge and returns
    [true]; the edge from the new vertex to the apex 0 is then shorter than
    [minEdgeLength], and the second call collapses it and returns [true].
    One iteration of the driver loop is all that any call performs
    ([collapseEdges_fuel]). *)
Lemma collapseDegeneratedEdges_second_call_collapses :
  ∃ m1 m2,
    Example.collapseDegenerated 1 Example.bipyramid5 = Some (m1, true)
    ∧ Example.collapseDegenerated 1 m1 = Some (m2, true).
Proof.
  eexists _, _. split; vm_compute; reflexivity.
Qed.

(** ** The theorems at concrete inputs *)


Lemma relaxEdges_flip_rule_witness :
  findAdjacent Example.bipyramid8 0 6 = Some (5, 7, 4, 5)
  ∧ isRelaxable Example.bipyramid8 (0, 6) 7 5 = true
  ∧ (relaxEdge Example.bipyramid8 (0, 6) ≫= λ m', vertexIndices m' 4)
    = Some (7, 0, 5).
Proof.
  split; [reflexivity|]. split; [reflexivity|].
  rewrite (proj1 (proj2 (relaxEdges_flip_rule Example.bipyramid8))
             (0, 6) 5 7 4 5); [|reflexivity].
  vm_compute. reflexivity.
Defined.

Lemma relaxEdges_keeps_live_faces_witness :
  ∃ m', flipEdge Example.bipyramid8 (0, 6) 5 7 4 5 = Some (m', 4, 5)
        ∧ vertexIndices m' 4 = Some (7, 0, 5)
        ∧ vertexIndices m' 5 = Some (5, 6, 7).
Proof.
  eexists. split; [vm_compute; reflexivity|].
  destruct (proj1 (relaxEdges_keeps_live_faces Example.bipyramid8)
              (0, 6) 5 7 4 5 _ 4 5 eq_refl) as (_ & _ & _ & H4 & H5 & _).
  split; [exact H4|exact H5].
Defined.


Lemma collapseFace_first_accepted_edge_witness :
  collapseFace Example.between Example.zero Example.always (mkFaces [5] [])
               (Example.capped, false) 5
  = ('(m1, r) ← collapseEdge Example.between Example.zero Example.capped 1 0
                             (mkFaces [5] []);
     Some (m1, r || false)).
Proof.
  exact (collapseFace_first_accepted_edge Example.between Example.zero
           Example.always (mkFaces [5] []) Example.capped false 5 1 0 4
           true true true eq_refl eq_refl eq_refl eq_refl eq_refl).
Defined.

(** ** The mesh store: adjacency lemmas *)

Section AdjacencyFacts.
Context {P : Type}.
Implicit Types (m : DynamicMesh P) (f v u : nat).

Lemma vertexEntry_setEntry m u (e : VertexEntry P) v :
  u < length (vertexTable m) →
  vertexEntry (setEntry u e m) v = if decide (v = u) then Some e else vertexEntry m v.
Proof.
  intros Hu. unfold vertexEntry, setEntry. simpl.
  destruct (decide (v = u)) as [->|Hne].
  - by rewrite list_lookup_insert_eq.
  - by rewrite list_lookup_insert_ne.
Qed.

Lemma vertexEntry_lt m v e : vertexEntry m v = Some e → v < length (vertexTable m).
Proof.
  unfold vertexEntry. intros H. apply lookup_lt_is_Some.
  destruct (vertexTable m !! v); [eauto|done].
Qed.

Lemma pushAdjacent_adjacent f u m m' v :
  pushAdjacent f u m = Some m' →
  adjacentFaces m' v =
    if decide (v = u) then adjacentFaces m v ++ [f] else adjacentFaces m v.
Proof.
  unfold pushAdjacent. destruct (vertexEntry m u) as [e|] eqn:E; simpl; [|done].
  intros [= <-]. unfold adjacentFaces.
  rewrite vertexEntry_setEntry by by eapply vertexEntry_lt.
  destruct (decide (v = u)) as [->|]; [|done]. by rewrite E.
Qed.

Lemma dropAdjacent_adjacent f u m m' v :
  dropAdjacent f u m = Some m' →
  adjacentFaces m' v =
    if decide (v = u) then filter (fun a => a ≠ f) (adjacentFaces m v)
    else adjacentFaces m v.
Proof.
  unfold dropAdjacent. destruct (vertexEntry m u) as [e|] eqn:E; simpl; [|done].
  intros [= <-]. unfold adjacentFaces.
  rewrite vertexEntry_setEntry by by eapply vertexEntry_lt.
  destruct (decide (v = u)) as [->|]; [|done]. by rewrite E.
Qed.

Lemma pushAdjacent_live f u m m' v :
  pushAdjacent f u m = Some m' → isFreeVertex m' v = isFreeVertex m v.
Proof.
  unfold pushAdjacent. destruct (vertexEntry m u) as [e|] eqn:E; simpl; [|done].
  intros [= <-]. unfold isFreeVertex.
  rewrite vertexEntry_setEntry by by eapply vertexEntry_lt.
  destruct (decide (v = u)) as [->|]; [|done]. by rewrite E.
Qed.

Lemma dropAdjacent_live f u m m' v :
  dropAdjacent f u m = Some m' → isFreeVertex m' v = isFreeVertex m v.
Proof.
  unfold dropAdjacent. destruct (vertexEntry m u) as [e|] eqn:E; simpl; [|done].
  intros [= <-]. unfold isFreeVertex.
  rewrite vertexEntry_setEntry by by eapply vertexEntry_lt.
  destruct (decide (v = u)) as [->|]; [|done]. by rewrite E.
Qed.

(** Deleting a face only shortens adjacency lists. *)
Lemma deleteFace_adjacent_nil f m m' v :
  deleteFace f m = Some m' → adjacentFaces m v = [] → adjacentFaces m' v = [].
Proof.
  unfold deleteFace. destruct (vertexIndices m f) as [[[i1 i2] i3]|]; simpl; [|done].
  destruct (dropAdjacent f i1 m) as [m1|] eqn:E1; simpl; [|done].
  destruct (dropAdjacent f i2 m1) as [m2|] eqn:E2; simpl; [|done].
  destruct (dropAdjacent f i3 m2) as [m3|] eqn:E3; simpl; [|done].
  intros [= <-] Hnil.
  change (adjacentFaces m3 v = []).
  rewrite (dropAdjacent_adjacent _ _ _ _ v E3), (dropAdjacent_adjacent _ _ _ _ v E2),
    (dropAdjacent_adjacent _ _ _ _ v E1), Hnil.
  by repeat case_decide.
Qed.

Lemma deleteFace_live f m m' v :
  deleteFace f m = Some m' → isFreeVertex m' v = isFreeVertex m v.
Proof.
  unfold deleteFace. destruct (vertexIndices m f) as [[[i1 i2] i3]|]; simpl; [|done].
  destruct (dropAdjacent f i1 m) as [m1|] eqn:E1; simpl; [|done].
  destruct (dropAdjacent f i2 m1) as [m2|] eqn:E2; simpl; [|done].
  destruct (dropAdjacent f i3 m2) as [m3|] eqn:E3; simpl; [|done].
  intros [= <-].
  change (isFreeVertex m3 v = isFreeVertex m v).
  by rewrite (dropAdjacent_live _ _ _ _ v E3), (dropAdjacent_live _ _ _ _ v E2),
    (dropAdjacent_live _ _ _ _ v E1).
Qed.

Lemma deleteFace_other f m m' g :
  deleteFace f m = Some m' → g ≠ f → vertexIndices m' g = vertexIndices m g.
Proof.
  intros H Hne. apply deleteFace_inv in H as (_ & FT & _).
  unfold vertexIndices. rewrite FT. by rewrite list_lookup_insert_ne.
Qed.

Lemma deleteFaces_loop_adjacent_nil (l : list nat) m m' v :
  deleteFaces_loop l m = Some m' → adjacentFaces m v = [] → adjacentFaces m' v = [].
Proof.
  revert m. induction l as [|f l IH]; intros m; simpl.
  - by intros [= <-].
  - destruct (deleteFace f m) as [m1|] eqn:E; simpl; [|done].
    intros H Hnil. eapply IH; [exact H|]. by eapply deleteFace_adjacent_nil.
Qed.

Lemma deleteFaces_loop_live (l : list nat) m m' v :
  deleteFaces_loop l m = Some m' → isFreeVertex m' v = isFreeVertex m v.
Proof.
  revert m. induction l as [|f l IH]; intros m; simpl.
  - by intros [= <-].
  - destruct (deleteFace f m) as [m1|] eqn:E; simpl; [|done].
    intros H. rewrite (IH _ H). by eapply deleteFace_live.
Qed.

Lemma deleteFaces_loop_other (l : list nat) m m' g :
  deleteFaces_loop l m = Some m' → g ∉ l → vertexIndices m' g = vertexIndices m g.
Proof.
  revert m. induction l as [|f l IH]; intros m; simpl.
  - by intros [= <-].
  - destruct (deleteFace f m) as [m1|] eqn:E; simpl; [|done].
    intros H Hg. apply not_elem_of_cons in Hg as [Hne Hg].
    rewrite (IH _ H Hg). by eapply deleteFace_other.
Qed.

(** [addFace] lengthens the adjacency list of [v] by one entry per
    occurrence of [v] among the three corners. *)
Lemma addFace_valence i1 i2 i3 m m' g v :
  addFace i1 i2 i3 m = Some (m', g) →
  valence m' v = valence m v
                 + (if decide (v = i1) then 1 else 0)
                 + (if decide (v = i2) then 1 else 0)
                 + (if decide (v = i3) then 1 else 0).
Proof.
  unfold addFace.
  destruct (match freeFaceIndices m with
            | [] => _ | f :: rest => _ end) as [m0 f] eqn:E0.
  assert (H0 : adjacentFaces m0 v = adjacentFaces m v).
  { destruct (freeFaceIndices m); injection E0 as <- <-; reflexivity. }
  destruct (pushAdjacent f i1 m0) as [m1|] eqn:E1; simpl; [|done].
  destruct (pushAdjacent f i2 m1) as [m2|] eqn:E2; simpl; [|done].
  destruct (pushAdjacent f i3 m2) as [m3|] eqn:E3; simpl; [|done].
  intros [= <- <-]. unfold valence.
  rewrite (pushAdjacent_adjacent _ _ _ _ v E3), (pushAdjacent_adjacent _ _ _ _ v E2),
    (pushAdjacent_adjacent _ _ _ _ v E1), H0.
  repeat case_decide; rewrite ?length_app; simpl; lia.
Qed.

Lemma deleteVertex_other u m m' v :
  deleteVertex u m = Some m' → v ≠ u → adjacentFaces m' v = adjacentFaces m v.
Proof.
  unfold deleteVertex. destruct (vertexEntry m u); simpl; [|done].
  intros [= <-] Hne. unfold adjacentFaces, vertexEntry. simpl.
  by rewrite list_lookup_insert_ne.
Qed.

Lemma valence_pos_live m v : 0 < valence m v → ∃ e, vertexEntry m v = Some e.
Proof.
  unfold valence, adjacentFaces. destruct (vertexEntry m v); [eauto|simpl; lia].
Qed.
End AdjacencyFacts.

(** ** Edge collapse *)

Section CollapseFacts.
Context {P : Type}.
Implicit Types (m : DynamicMesh P) (f v u : nat) (nf : NewFaces.t).

Lemma fanTriples_nil newI : fanTriples newI [] 0.
Proof. exists []. by repeat split. Qed.

Lemma fanTriples_one newI x y : x ≠ newI → y ≠ newI → fanTriples newI [newI; x; y] 1.
Proof.
  intros. exists [(x, y)]. split; [reflexivity|]. split; [reflexivity|].
  by repeat constructor.
Qed.

Lemma fanTriples_app newI vs1 vs2 k1 k2 :
  fanTriples newI vs1 k1 → fanTriples newI vs2 k2 →
  fanTriples newI (vs1 ++ vs2) (k1 + k2).
Proof.
  intros (ts1 & -> & <- & F1) (ts2 & -> & <- & F2). exists (ts1 ++ ts2).
  rewrite map_app, concat_app, length_app.
  split; [done|]. split; [done|]. by apply Forall_app.
Qed.

(** One round of the loop of [addFaces]: the face is marked for deletion
    and, unless it also has the corner [i2], re-emitted with [newI] in the
    place of [i1]. *)
Lemma addFaces_step_inv m newI i1 i2 nf a :
  i1 ≠ i2 → cornerOk m newI i1 a →
  ∃ extra,
    addFaces_step m newI i1 i2 nf a
    = Some (NewFaces.mk (NewFaces.vertexIndices nf ++ extra)
                        ({[ a ]} ∪ NewFaces.facesToDelete nf))
    ∧ fanTriples newI extra (if hasCorner m i2 a then 0 else 1).
Proof.
  intros Hne (a1 & a2 & a3 & Hf & D12 & D13 & D23 & Hin & N1 & N2 & N3).
  unfold addFaces_step, hasCorner. rewrite Hf. cbn [mbind option_bind].
  destruct (Nat.eqb_spec a1 i1) as [E11|E11], (Nat.eqb_spec a1 i2) as [E12|E12],
    (Nat.eqb_spec a2 i1) as [E21|E21], (Nat.eqb_spec a2 i2) as [E22|E22],
    (Nat.eqb_spec a3 i1) as [E31|E31], (Nat.eqb_spec a3 i2) as [E32|E32];
    try (exfalso; congruence); try (exfalso; destruct Hin; congruence);
    try (exfalso; destruct Hin as [?|[?|?]]; congruence);
    destruct (Nat.eqb_spec i2 a1), (Nat.eqb_spec i2 a2), (Nat.eqb_spec i2 a3);
    try (exfalso; congruence);
    cbn [negb andb orb assert mbind option_bind];
    unfold NewFaces.addFace, NewFaces.deleteFace; cbn [NewFaces.vertexIndices
      NewFaces.facesToDelete];
    first [ exists []; rewrite app_nil_r; split; [reflexivity|apply fanTriples_nil]
          | eexists; split; [reflexivity|by apply fanTriples_one] ].
Qed.

Lemma addFaces_fold_inv m newI i1 i2 (l : list nat) nf :
  i1 ≠ i2 → Forall (cornerOk m newI i1) l →
  ∃ extra,
    addFaces_fold m newI i1 i2 l nf
    = Some (NewFaces.mk (NewFaces.vertexIndices nf ++ extra)
                        (list_to_set l ∪ NewFaces.facesToDelete nf))
    ∧ fanTriples newI extra (length (filter (fun a => hasCorner m i2 a = false) l)).
Proof.
  intros Hne. revert nf. induction l as [|a l IH]; intros nf HF.
  - exists []. cbn [addFaces_fold]. rewrite app_nil_r. split.
    + destruct nf. cbn. by rewrite (left_id_L ∅ (∪)).
    + apply fanTriples_nil.
  - apply Forall_cons in HF as [Ha HF].
    destruct (addFaces_step_inv m newI i1 i2 nf a Hne Ha) as (e1 & E1 & T1).
    cbn [addFaces_fold]. rewrite E1. cbn [mbind option_bind].
    destruct (IH (NewFaces.mk (NewFaces.vertexIndices nf ++ e1)
                    ({[a]} ∪ NewFaces.facesToDelete nf)) HF) as (e2 & E2 & T2).
    rewrite E2. cbn [NewFaces.vertexIndices NewFaces.facesToDelete].
    exists (e1 ++ e2). split.
    + rewrite app_assoc, list_to_set_cons, (assoc_L (∪)),
        (comm_L (∪) {[a]} (list_to_set l)), <- (assoc_L (∪)). done.
    + rewrite filter_cons. destruct (hasCorner m i2 a) eqn:Hc.
      * rewrite decide_False by done. by apply (fanTriples_app _ _ _ 0).
      * rewrite decide_True by done. by apply (fanTriples_app _ _ _ 1).
Qed.
End CollapseFacts.

Section CollapseValence.
Context {P : Type}.
Variable zero : P.
Implicit Types (m : DynamicMesh P) (f v u : nat) (nf : NewFaces.t).

Lemma addVertex_inv (p n : P) m m1 newI :
  addVertex p n m = (m1, newI) →
  Forall (fun v => v < length (vertexTable m)) (freeVertexIndices m) →
  newI = nextVertex m
  ∧ faceTable m1 = faceTable m
  ∧ vertexEntry m1 newI = Some (mkVertexEntry p n [])
  ∧ ∀ v, v ≠ newI → vertexEntry m1 v = vertexEntry m v.
Proof.
  unfold addVertex, nextVertex.
  destruct (freeVertexIndices m) as [|v0 rest]; intros [= <- <-] Hfree;
    unfold vertexEntry; simpl.
  - repeat split; try done.
    + by rewrite lookup_app_r, Nat.sub_diag.
    + intros v Hv. destruct (decide (v < length (vertexTable m))).
      * by rewrite lookup_app_l.
      * rewrite !lookup_ge_None_2; [done|lia|rewrite length_app; simpl; lia].
  - apply Forall_cons in Hfree as [Hlt _]. repeat split; try done.
    + by rewrite list_lookup_insert_eq.
    + intros v Hv. by rewrite list_lookup_insert_ne.
Qed.

Lemma isEmpty_false m f t : vertexIndices m f = Some t → isEmpty m = false.
Proof.
  unfold vertexIndices, isEmpty. intros H.
  destruct (faceTable m !! f) as [o|] eqn:E; [|done]. simpl in H. subst o.
  apply not_true_iff_false. intros Hall.
  rewrite forallb_forall in Hall.
  specialize (Hall (Some t)). simpl in Hall.
  assert (false = true); [|done]. apply Hall.
  apply list_elem_of_In. by eapply list_elem_of_lookup_2.
Qed.

(** The adding loop of [applyToMesh] gives the new vertex one adjacent face
    per emitted triple. *)
Lemma addFaces_loop_valence newI (ts : list (nat * nat)) :
  ∀ fuel numDeleted i m (fs : DynamicFaces) m' fs',
    addFaces_loop fuel numDeleted i
                  (concat (map (fun t => [newI; fst t; snd t]) ts)) m fs
      = Some (m', fs') →
    Forall (fun t => fst t ≠ newI ∧ snd t ≠ newI) ts →
    valence m' newI = valence m newI + length ts.
Proof.
  induction ts as [|[x y] ts IH]; intros fuel nd i m fs m' fs'.
  - simpl. destruct fuel; intros [= <- <-] _; lia.
  - cbn [map concat fst snd app]. intros H HF.
    apply Forall_cons in HF as [[Hx Hy] HF]. simpl in Hx, Hy.
    destruct fuel as [|fuel]; [done|]. cbn [addFaces_loop] in H.
    destruct (addFace newI x y m) as [[m1 g]|] eqn:E; cbn [mbind option_bind] in H;
      [|done].
    rewrite (IH _ _ _ _ _ _ _ H HF).
    rewrite (addFace_valence _ _ _ _ _ _ newI E).
    rewrite decide_True by done. rewrite !decide_False by done. simpl. lia.
Qed.

Lemma filter_complement_length (l : list nat) (p : nat → bool) :
  length (filter (fun a => p a = false) l) + length (filter (fun a => p a = true) l)
  = length l.
Proof.
  induction l as [|a l IH]; [done|].
  rewrite !filter_cons. destruct (p a) eqn:E.
  - rewrite decide_False by done. rewrite decide_True by done. simpl. lia.
  - rewrite decide_True by done. rewrite decide_False by done. simpl. lia.
Qed.
End CollapseValence.

Section CollapseInto.
Context {P : Type}.
Variable zero : P.
Implicit Types (m : DynamicMesh P) (f v u : nat) (nf : NewFaces.t).

Lemma fan_nonempty_live m i1 i2 :
  length (filter (fun a => hasCorner m i2 a = true) (adjacentFaces m i1)) = 2 →
  isFreeVertex m i1 = false ∧ 2 ≤ valence m i1.
Proof.
  intros H. unfold isFreeVertex, valence. unfold adjacentFaces in *.
  destruct (vertexEntry m i1); [|done]. split; [done|].
  rewrite <- H. apply length_filter.
Qed.

Lemma faceAround_cornerOk m m1 newI i1 a :
  (∀ g, vertexIndices m1 g = vertexIndices m g) →
  isFreeVertex m newI = true →
  faceAround m i1 a → cornerOk m1 newI i1 a.
Proof.
  intros Hvi Hfree (a1 & a2 & a3 & Hf & D12 & D13 & D23 & Hin & L1 & L2 & L3).
  exists a1, a2, a3. rewrite Hvi. repeat split; try done; congruence.
Qed.

(** After the general collapse the new vertex has one adjacent face for each
    face of the two fans that is not incident to the collapsed edge. *)
Lemma collapseInto_valence m i1 i2 (newPos : P) (faces : DynamicFaces) m' newI :
  i1 ≠ i2 → collapsible m i1 i2 →
  collapseInto zero m i1 i2 newPos faces = Some (m', newI) →
  valence m' newI = valence m i1 + valence m i2 - 4.
Proof.
  intros Hne [[ND1 FA1] [ND2 FA2] S1 S2 [Hfree Hslots] (f0 & Hf0 & Hf01 & Hf02)].
  unfold collapseInto.
  destruct (addVertex newPos zero m) as [m1 nI] eqn:EA.
  destruct (addVertex_inv _ _ _ _ _ EA Hslots) as (-> & FT & Enew & Eother).
  destruct (fan_nonempty_live _ _ _ S1) as [L1 V1].
  destruct (fan_nonempty_live _ _ _ S2) as [L2 V2].
  assert (N1 : i1 ≠ nextVertex m) by congruence.
  assert (N2 : i2 ≠ nextVertex m) by congruence.
  assert (Hvi : ∀ g, vertexIndices m1 g = vertexIndices m g).
  { intros g. unfold vertexIndices. by rewrite FT. }
  assert (Hhc : ∀ w a, hasCorner m1 w a = hasCorner m w a).
  { intros w a. unfold hasCorner. by rewrite Hvi. }
  assert (A1 : adjacentFaces m1 i1 = adjacentFaces m i1).
  { unfold adjacentFaces. by rewrite Eother. }
  assert (A2 : adjacentFaces m1 i2 = adjacentFaces m i2).
  { unfold adjacentFaces. by rewrite Eother. }
  assert (C1 : Forall (cornerOk m1 (nextVertex m) i1) (adjacentFaces m i1)).
  { eapply Forall_impl; [exact FA1|]. intros a. by apply faceAround_cornerOk. }
  assert (C2 : Forall (cornerOk m1 (nextVertex m) i2) (adjacentFaces m i2)).
  { eapply Forall_impl; [exact FA2|]. intros a. by apply faceAround_cornerOk. }
  unfold addFaces. rewrite A1, A2.
  destruct (addFaces_fold_inv m1 (nextVertex m) i1 i2 _ NewFaces.reset Hne C1)
    as (e1 & -> & T1).
  cbn [mbind option_bind].
  destruct (addFaces_fold_inv m1 (nextVertex m) i2 i1 _
              (NewFaces.mk (NewFaces.vertexIndices NewFaces.reset ++ e1)
                 (list_to_set (adjacentFaces m i1)
                  ∪ NewFaces.facesToDelete NewFaces.reset))
              (not_eq_sym Hne) C2) as (e2 & -> & T2).
  cbn [mbind option_bind NewFaces.vertexIndices NewFaces.facesToDelete NewFaces.reset app].
  pose proof (fanTriples_app _ _ _ _ _ T1 T2) as (ts & Ets & Hlen & Hts).
  unfold applyToMesh. cbn [NewFaces.vertexIndices NewFaces.facesToDelete].
  rewrite Ets.
  destruct (assert _); cbn [mbind option_bind]; [|done].
  destruct (deleteFaces_loop _ m1) as [md|] eqn:ED; cbn [mbind option_bind]; [|done].
  assert (Hlive : isEmpty md = false).
  { destruct (vertexIndices m f0) as [t|] eqn:Et.
    2: { unfold isFreeFace in Hf0. by rewrite Et in Hf0. }
    apply (isEmpty_false md f0 t).
    rewrite (deleteFaces_loop_other _ _ _ f0 ED); [by rewrite Hvi|].
    rewrite elem_of_elements, !elem_of_union, !elem_of_list_to_set.
    intros [?|[?|?]]; [done|done|]. by apply not_elem_of_empty in H. }
  rewrite Hlive. cbn [negb].
  destruct (addFaces_loop _ _ _ _ md faces) as [[m2 faces2]|] eqn:EL;
    cbn [mbind option_bind]; [|done].
  destruct (assert (bool_decide (adjacentFaces m2 i1 = [])));
    cbn [mbind option_bind]; [|done].
  destruct (assert (bool_decide (adjacentFaces m2 i2 = [])));
    cbn [mbind option_bind]; [|done].
  destruct (deleteVertex i1 m2) as [m3|] eqn:E3; cbn [mbind option_bind]; [|done].
  destruct (deleteVertex i2 m3) as [m4|] eqn:E4; cbn [mbind option_bind]; [|done].
  destruct (assert (isFreeVertex m4 i1)); cbn [mbind option_bind]; [|done].
  destruct (assert (isFreeVertex m4 i2)); cbn [mbind option_bind]; [|done].
  intros [= <- <-]. unfold valence at 1.
  rewrite (deleteVertex_other _ _ _ (nextVertex m) E4) by done.
  rewrite (deleteVertex_other _ _ _ (nextVertex m) E3) by done.
  change (valence m2 (nextVertex m) = valence m i1 + valence m i2 - 4).
  rewrite (addFaces_loop_valence _ _ _ _ _ _ _ _ _ EL Hts).
  assert (Hnil : adjacentFaces md (nextVertex m) = []).
  { eapply deleteFaces_loop_adjacent_nil; [exact ED|].
    unfold adjacentFaces. by rewrite Enew. }
  unfold valence at 1. rewrite Hnil, Hlen. simpl.
  pose proof (filter_complement_length (adjacentFaces m i1) (hasCorner m1 i2)) as Q1.
  pose proof (filter_complement_length (adjacentFaces m i2) (hasCorner m1 i1)) as Q2.
  assert (R1 : filter (fun a => hasCorner m1 i2 a = true) (adjacentFaces m i1)
               = filter (fun a => hasCorner m i2 a = true) (adjacentFaces m i1)).
  { apply list_filter_iff. intros a. by rewrite Hhc. }
  assert (R2 : filter (fun a => hasCorner m1 i1 a = true) (adjacentFaces m i2)
               = filter (fun a => hasCorner m i1 a = true) (adjacentFaces m i2)).
  { apply list_filter_iff. intros a. by rewrite Hhc. }
  rewrite R1, S1 in Q1. rewrite R2, S2 in Q2. unfold valence. lia.
Qed.
End CollapseInto.

Section CollapseRejection.
Context {P : Type}.
Variable between : P → P → P.
Variable zero : P.
Implicit Types (m : DynamicMesh P) (f v u : nat).

(** When [findAdjacent] finds a left face, [isValidEdge] finds a face
    around [i1] with the corner [i2]. *)
Lemma findAdjacent_loop_valid m e1 e2 (l : list nat) (acc r : Adjacent) :
  findAdjacent_loop m e1 e2 l acc = Some r →
  leftFace acc = None → is_Some (leftFace r) →
  isValidEdge_loop m e2 l = Some true.
Proof.
  revert acc. induction l as [|a l IH]; intros acc; cbn [findAdjacent_loop].
  - intros [= <-] -> [? ?]. done.
  - unfold findAdjacent_step.
    destruct (vertexIndices m a) as [[[a1 a2] a3]|] eqn:Ea; cbn [mbind option_bind];
      [|done].
    cbn [isValidEdge_loop]. rewrite Ea. cbn [mbind option_bind].
    destruct (Nat.eqb_spec e2 a1), (Nat.eqb_spec e2 a2), (Nat.eqb_spec e2 a3);
      cbn [orb]; try done.
    rewrite !andb_false_r. cbn [andb].
    intros H Hacc Hr.
    destruct (e1 =? a2); [|destruct (e1 =? a3); [|destruct (e1 =? a1)]];
      cbn [andb] in H; eapply IH; try exact H; done.
Qed.

Lemma findAdjacent_valid m i1 i2 r :
  findAdjacent m i1 i2 = Some r →
  isValidEdge_loop m i2 (adjacentFaces m i1) = Some true.
Proof.
  unfold findAdjacent.
  destruct (findAdjacent_loop _ _ _ _ _) as [acc|] eqn:E; cbn [mbind option_bind];
    [|done].
  destruct (leftFace acc) as [lf|] eqn:El; cbn [mbind option_bind]; [|done].
  intros _. eapply findAdjacent_loop_valid; [exact E|done|]. rewrite El. eauto.
Qed.

Lemma valence_live m v : 0 < valence m v → isFreeVertex m v = false.
Proof.
  intros H. apply valence_pos_live in H as [e He]. unfold isFreeVertex. by rewrite He.
Qed.

(** The prefix of [collapseEdge] up to the case distinction on the opposite
    vertices, for an edge whose endpoints have valence above 3. *)
Lemma collapseEdge_general m i1 i2 (faces : DynamicFaces) lf lv rf rv :
  3 < valence m i1 → 3 < valence m i2 → i1 ≠ i2 →
  findAdjacent m i1 i2 = Some (lf, lv, rf, rv) →
  3 ≤ valence m lv → 3 ≤ valence m rv →
  ∃ p1 p2, vertex m i1 = Some p1 ∧ vertex m i2 = Some p2 ∧
    collapseEdge between zero m i1 i2 faces =
      if lv =? rv then Some (m, false)
      else if (valence m lv =? 3) || (valence m rv =? 3) then Some (m, false)
      else
        n ← numCommonAdjacentVertices m i1 i2;
        if n =? 2 then
          '(m1, newI) ← collapseInto zero m i1 i2 (between p1 p2) faces;
          _ ← assert (valence m1 newI =? valence m i1 + valence m i2 - 4);
          Some (m1, true)
        else Some (m, false).
Proof.
  intros V1 V2 Hne Hadj VL VR.
  destruct (valence_pos_live m i1) as [e1 E1]; [lia|].
  destruct (valence_pos_live m i2) as [e2 E2]; [lia|].
  exists (position e1), (position e2).
  unfold vertex. rewrite E1, E2. split; [done|]. split; [done|].
  unfold collapseEdge, isValidEdge, vertex.
  rewrite (findAdjacent_valid _ _ _ _ Hadj), Hadj, E1, E2.
  rewrite !valence_live by lia.
  replace (3 <=? valence m i1) with true by (symmetry; apply Nat.leb_le; lia).
  replace (3 <=? valence m i2) with true by (symmetry; apply Nat.leb_le; lia).
  replace (valence m i1 =? 3) with false by (symmetry; apply Nat.eqb_neq; lia).
  replace (valence m i2 =? 3) with false by (symmetry; apply Nat.eqb_neq; lia).
  replace (i1 =? i2) with false by (symmetry; by apply Nat.eqb_neq).
  cbn [assert negb mbind option_bind fmap option_fmap option_map].
  replace (3 <=? valence m lv) with true by (symmetry; apply Nat.leb_le; lia).
  replace (3 <=? valence m rv) with true by (symmetry; apply Nat.leb_le; lia).
  reflexivity.
Qed.

(** C6.  For an edge (i1, i2) whose endpoints both have valence above 3
    (in a mesh where the two opposite vertices exist and have valence at
    least 3): [collapseEdge] returns [false] and leaves the mesh as it is
    when the opposite vertices coincide, when one of them has valence 3, or
    when the number of common adjacent vertices is not 2; and when the
    general collapse is performed on a mesh that satisfies the invariants
    around the edge, [collapseEdge] returns [true] and the new vertex has
    valence v1 + v2 - 4. *)
Theorem collapseEdge_rejection_and_valence m i1 i2 (faces : DynamicFaces)
    lf lv rf rv :
  3 < valence m i1 → 3 < valence m i2 → i1 ≠ i2 →
  findAdjacent m i1 i2 = Some (lf, lv, rf, rv) →
  3 ≤ valence m lv → 3 ≤ valence m rv →
  ((lv = rv ∨ valence m lv = 3 ∨ valence m rv = 3
    ∨ ∃ n, numCommonAdjacentVertices m i1 i2 = Some n ∧ n ≠ 2) →
   collapseEdge between zero m i1 i2 faces = Some (m, false))
  ∧ (∀ p1 p2 m' newI,
       lv ≠ rv → valence m lv ≠ 3 → valence m rv ≠ 3 →
       numCommonAdjacentVertices m i1 i2 = Some 2 →
       collapsible m i1 i2 →
       vertex m i1 = Some p1 → vertex m i2 = Some p2 →
       collapseInto zero m i1 i2 (between p1 p2) faces = Some (m', newI) →
       collapseEdge between zero m i1 i2 faces = Some (m', true)
       ∧ valence m' newI = valence m i1 + valence m i2 - 4).
Proof.
  intros V1 V2 Hne Hadj VL VR.
  destruct (collapseEdge_general m i1 i2 faces lf lv rf rv V1 V2 Hne Hadj VL VR)
    as (q1 & q2 & Hq1 & Hq2 & ->).
  split.
  - intros [->|[HL|[HR|(n & Hn & Hn2)]]].
    + by rewrite Nat.eqb_refl.
    + rewrite HL. cbn [Nat.eqb orb]. by destruct (lv =? rv).
    + rewrite HR. cbn [Nat.eqb]. rewrite orb_true_r. by destruct (lv =? rv).
    + rewrite Hn. cbn [mbind option_bind].
      replace (n =? 2) with false by (symmetry; by apply Nat.eqb_neq).
      by repeat match goal with |- context [if ?b then _ else _] => destruct b end.
  - intros p1 p2 m' newI HLR HL HR Hn Hwf Hp1 Hp2 Hinto.
    assert (p1 = q1) as -> by congruence. assert (p2 = q2) as -> by congruence.
    pose proof (collapseInto_valence zero m i1 i2 _ faces m' newI Hne Hwf Hinto) as Hv.
    split; [|exact Hv].
    replace (lv =? rv) with false by (symmetry; by apply Nat.eqb_neq).
    replace (valence m lv =? 3) with false by (symmetry; by apply Nat.eqb_neq).
    replace (valence m rv =? 3) with false by (symmetry; by apply Nat.eqb_neq).
    cbn [orb]. rewrite Hn, Hinto. cbn [mbind option_bind Nat.eqb].
    rewrite Hv, Nat.eqb_refl. reflexivity.
Qed.
End CollapseRejection.

Lemma octahedron_collapsible : collapsible Example.octahedron 0 1.
Proof.
  split.
  - solve_fanOk.
  - solve_fanOk.
  - reflexivity.
  - reflexivity.
  - split; [reflexivity|by apply Forall_nil].
  - exists 5. split; [reflexivity|].
    split; apply (bool_decide_unpack _); vm_compute; exact I.
Qed.

Lemma collapseEdge_rejection_and_valence_witness :
  collapseEdge Example.between Example.zero Example.capped 1 0 Faces.empty
  = Some (Example.capped, false)
  ∧ ∃ m' newI,
      collapseEdge Example.between Example.zero Example.octahedron 0 1 Faces.empty
      = Some (m', true)
      ∧ valence m' newI = 4.
Proof.
  split.
  - apply (proj1 (collapseEdge_rejection_and_valence Example.between Example.zero
                    Example.capped 1 0 Faces.empty 5 4 0 6
                    ltac:(vm_compute; lia) ltac:(vm_compute; lia) ltac:(lia)
                    eq_refl ltac:(vm_compute; lia) ltac:(vm_compute; lia))).
    right. right. left. reflexivity.
  - destruct (collapseInto Example.zero Example.octahedron 0 1
                (Example.between (Example.pt 0 100000 0) (Example.pt 100000 0 0))
                Faces.empty) as [[m' newI]|] eqn:E;
      [|vm_compute in E; discriminate].
    exists m', newI.
    exact (proj2 (collapseEdge_rejection_and_valence Example.between Example.zero
                    Example.octahedron 0 1 Faces.empty 0 2 3 4
                    ltac:(vm_compute; lia) ltac:(vm_compute; lia) ltac:(lia)
                    eq_refl ltac:(vm_compute; lia) ltac:(vm_compute; lia))
             _ _ m' newI ltac:(lia) ltac:(vm_compute; lia) ltac:(vm_compute; lia)
             eq_refl octahedron_collapsible eq_refl eq_refl E).
Defined.

(** ** The split position *)

Module SplitPositionFacts.
Import SplitPosition.
Local Open Scope R_scope.

Lemma dot_cross_normalized (n1 n2 : vec3) :
  dot n1 (cross n2 (normalize (cross n1 n2)))
  = / sqrt (dot (cross n1 n2) (cross n1 n2)) * dot (cross n1 n2) (cross n1 n2).
Proof.
  unfold normalize. generalize (/ sqrt (dot (cross n1 n2) (cross n1 n2))). intros s.
  destruct n1 as [[a1 a2] a3], n2 as [[b1 b2] b3]. cbn. ring.
Qed.

Lemma dot_self_pos (c : vec3) : c ≠ (0, 0, 0) → 0 < dot c c.
Proof.
  destruct c as [[c1 c2] c3]. intros Hc. cbn.
  destruct (Req_dec c1 0) as [->|H1]; [|nra].
  destruct (Req_dec c2 0) as [->|H2]; [|nra].
  destruct (Req_dec c3 0) as [->|H3]; [|nra]. done.
Qed.

(** The three planes are in general position unless the normals are
    parallel. *)
Lemma triple_product_nonzero (n1 n2 : vec3) :
  cross n1 n2 ≠ (0, 0, 0) →
  dot n1 (cross n2 (normalize (cross n1 n2))) ≠ 0.
Proof.
  intros Hc. rewrite dot_cross_normalized.
  pose proof (dot_self_pos _ Hc) as Hpos.
  apply Rmult_integral_contrapositive_currified; [|lra].
  apply Rinv_neq_0_compat. pose proof (sqrt_lt_R0 _ Hpos). lra.
Qed.

(** Cramer's rule: the point lies on the three planes. *)
Lemma cramer_on_planes (n1 n2 n3 : vec3) (d1 d2 d3 : R) :
  dot n1 (cross n2 n3) ≠ 0 →
  let q := scale (/ dot n1 (cross n2 n3))
                 (add (add (scale d1 (cross n2 n3)) (scale d2 (cross n3 n1)))
                      (scale d3 (cross n1 n2))) in
  dot q n1 = d1 ∧ dot q n2 = d2 ∧ dot q n3 = d3.
Proof.
  destruct n1 as [[a1 a2] a3], n2 as [[b1 b2] b3], n3 as [[c1 c2] c3].
  cbn. intros HT. repeat split; field; exact HT.
Qed.

(** The point on the three planes is unique. *)
Lemma cramer_unique (n1 n2 n3 q : vec3) :
  dot n1 (cross n2 n3) ≠ 0 →
  q = scale (/ dot n1 (cross n2 n3))
            (add (add (scale (dot q n1) (cross n2 n3)) (scale (dot q n2) (cross n3 n1)))
                 (scale (dot q n3) (cross n1 n2))).
Proof.
  destruct n1 as [[a1 a2] a3], n2 as [[b1 b2] b3], n3 as [[c1 c2] c3],
    q as [[q1 q2] q3].
  cbn. intros HT. repeat f_equal; field; exact HT.
Qed.

Section WithColinear.
Variable colinearUnit : vec3 → vec3 → bool.
Context {F : Type}.
Variable exceeds : F → vec3 → vec3 → bool.

(** C4.  For an edge (i1, i2) that [splitEdges] splits, with endpoint
    positions p1, p2 and normals n1, n2 (arithmetic over the reals): when the
    normals are numerically colinear the new vertex is at (p1 + p2) / 2;
    otherwise it is at 0.25 p1 + 0.5 p3 + 0.25 p2, where p3 lies on the
    tangent plane at p1, on the tangent plane at p2 and on the plane through
    p1 with normal n3 = normalize (n1 x n2), and is the only such point when
    n1 x n2 is not zero; in both cases the new vertex has the normal
    normalize (n1 + n2). *)
Theorem split_position_and_normal (m m1 : DynamicMesh vec3) (newV newV1 : NewVertices)
    (maxLength : F) (i1 i2 : nat) (e1 e2 : VertexEntry vec3) :
  vertexEntry m i1 = Some e1 →
  vertexEntry m i2 = Some e2 →
  Forall (fun v => (v < length (vertexTable m))%nat) (freeVertexIndices m) →
  split exceeds (getSplitPosition colinearUnit) splitNormal maxLength i1 i2 (m, newV)
    = Some (m1, newV1, true) →
  let p1 := position e1 in
  let n1 := normal e1 in
  let p2 := position e2 in
  let n2 := normal e2 in
  let n3 := normalize (cross n1 n2) in
  let p3 := planePoint p1 n1 p2 n2 in
  ∃ i3 pos,
    newV1 !! edgeKey i1 i2 = Some i3
    ∧ vertexEntry m1 i3 = Some (mkVertexEntry pos (normalize (add n1 n2)) [])
    ∧ (colinearUnit n1 n2 = true → pos = scale (1 / 2) (add p1 p2))
    ∧ (colinearUnit n1 n2 = false →
       pos = add (add (scale (1 / 4) p1) (scale (1 / 2) p3)) (scale (1 / 4) p2))
    ∧ (cross n1 n2 ≠ (0, 0, 0) →
       onPlane p1 n1 p3 ∧ onPlane p2 n2 p3 ∧ onPlane p1 n3 p3
       ∧ ∀ q, onPlane p1 n1 q → onPlane p2 n2 q → onPlane p1 n3 q → q = p3).
Proof.
  intros E1 E2 Hfree. unfold split. rewrite E1, E2. cbn [mbind option_bind].
  destruct (exceeds maxLength (position e1) (position e2)); [|done].
  destruct (addVertex _ _ m) as [m2 i3] eqn:EA.
  destruct (insertInEdge i1 i2 i3 newV) as [nv|] eqn:EI; cbn [mbind option_bind];
    [|done].
  intros [= <- <-]. cbv zeta.
  destruct (addVertex_inv _ _ _ _ _ EA Hfree) as (_ & _ & Enew & _).
  exists i3, (getSplitPosition colinearUnit (position e1) (normal e1) (position e2)
                (normal e2)).
  split.
  { revert EI. unfold insertInEdge, hasVertex, findVertex, makeUiKey, assert.
    destruct (Nat.eqb_spec i1 i2); cbn [negb mbind option_bind]; [done|].
    destruct (newV !! _); cbn [negb mbind option_bind]; [done|].
    intros [= <-]. apply lookup_insert_eq. }
  split; [exact Enew|].
  split; [unfold getSplitPosition; by intros ->|].
  split; [unfold getSplitPosition; by intros ->|].
  intros Hc. pose proof (triple_product_nonzero _ _ Hc) as HT.
  destruct (cramer_on_planes (normal e1) (normal e2)
              (normalize (cross (normal e1) (normal e2)))
              (dot (position e1) (normal e1)) (dot (position e2) (normal e2))
              (dot (position e1) (normalize (cross (normal e1) (normal e2)))) HT)
    as (H1 & H2 & H3).
  repeat split; try assumption.
  intros q Q1 Q2 Q3. unfold onPlane in *. unfold planePoint.
  rewrite <- Q1, <- Q2, <- Q3. by apply cramer_unique.
Qed.
End WithColinear.

Lemma split_position_and_normal_witness :
  ∃ m1 newV1 i3 pos,
    split (fun (_ : unit) _ _ => true) (getSplitPosition (fun _ _ => false)) splitNormal
          tt 0 1 (twoVertices, ∅) = Some (m1, newV1, true)
    ∧ vertexEntry m1 i3
      = Some (mkVertexEntry pos (normalize (add (1, 0, 0) (0, 1, 0))) [])
    ∧ onPlane (0, 0, 0) (1, 0, 0) (planePoint (0, 0, 0) (1, 0, 0) (1, 1, 0) (0, 1, 0)).
Proof.
  assert (∃ m1 newV1,
             split (fun (_ : unit) _ _ => true) (getSplitPosition (fun _ _ => false))
                   splitNormal tt 0 1 (twoVertices, ∅) = Some (m1, newV1, true))
    as (m1 & newV1 & E) by (eexists _, _; reflexivity).
  assert (Hc : cross (1, 0, 0) (0, 1, 0) ≠ (0, 0, 0)).
  { cbn. intros [= H]. lra. }
  destruct (split_position_and_normal (fun _ _ => false) (fun (_ : unit) _ _ => true)
              twoVertices m1 ∅ newV1 tt 0 1 _ _ eq_refl eq_refl
              ltac:(by apply Forall_nil) E)
    as (i3 & pos & _ & Hentry & _ & _ & Hplanes).
  exists m1, newV1, i3, pos. split; [exact E|]. split; [exact Hentry|].
  exact (proj1 (Hplanes Hc)).
Defined.
End SplitPositionFacts.

(** ** The collapse functions do not read vertex normals *)

Section ForgetStore.
Context {P : Type}.
Variable zero : P.
Implicit Types (m : DynamicMesh P) (f v u : nat).
Local Abbreviation fg := (forget zero).
Local Abbreviation keepMesh := (prod_map (forget zero) (fun x => x)).
Local Abbreviation keepMesh2 :=
  (prod_map (prod_map (forget zero) (fun x => x)) (fun x => x)).

Lemma vertexEntry_forget m v :
  vertexEntry (fg m) v = forgetEntry zero <$> vertexEntry m v.
Proof.
  unfold vertexEntry, forget. simpl.
  change (map (option_map (forgetEntry zero)) (vertexTable m))
    with (option_map (forgetEntry zero) <$> vertexTable m).
  rewrite list_lookup_fmap.
  by destruct (vertexTable m !! v) as [[?|]|].
Qed.

Lemma isFreeVertex_forget m v : isFreeVertex (fg m) v = isFreeVertex m v.
Proof. unfold isFreeVertex. rewrite vertexEntry_forget. by destruct (vertexEntry m v). Qed.

Lemma vertexIndices_forget m f : vertexIndices (fg m) f = vertexIndices m f.
Proof. reflexivity. Qed.

Lemma isFreeFace_forget m f : isFreeFace (fg m) f = isFreeFace m f.
Proof. reflexivity. Qed.

Lemma isEmpty_forget m : isEmpty (fg m) = isEmpty m.
Proof. reflexivity. Qed.

Lemma adjacentFaces_forget m v : adjacentFaces (fg m) v = adjacentFaces m v.
Proof. unfold adjacentFaces. rewrite vertexEntry_forget. by destruct (vertexEntry m v). Qed.

Lemma valence_forget m v : valence (fg m) v = valence m v.
Proof. unfold valence. by rewrite adjacentFaces_forget. Qed.

Lemma vertex_forget m v : vertex (fg m) v = vertex m v.
Proof. unfold vertex. rewrite vertexEntry_forget. by destruct (vertexEntry m v). Qed.

Lemma setEntry_forget m v (e : VertexEntry P) :
  setEntry v (forgetEntry zero e) (fg m) = fg (setEntry v e m).
Proof.
  unfold setEntry, forget. simpl. f_equal.
  change (map (option_map (forgetEntry zero))) with (fmap (M := list) (option_map (forgetEntry zero))).
  by rewrite list_fmap_insert.
Qed.

Lemma setVertex_forget m v (p : P) : setVertex v p (fg m) = fg <$> setVertex v p m.
Proof.
  unfold setVertex. rewrite vertexEntry_forget.
  destruct (vertexEntry m v) as [e|]; binds; [|done].
  by rewrite <- setEntry_forget.
Qed.

Lemma addVertex_forget m (p n : P) :
  addVertex p zero (fg m) = keepMesh (addVertex p n m).
Proof.
  unfold addVertex, forget. simpl.
  destruct (freeVertexIndices m) as [|v rest]; simpl.
  - by rewrite map_app, length_map.
  - f_equal. f_equal.
    change (map (option_map (forgetEntry zero)))
      with (fmap (M := list) (option_map (forgetEntry zero))).
    by rewrite list_fmap_insert.
Qed.

Lemma deleteVertex_forget m v : deleteVertex v (fg m) = fg <$> deleteVertex v m.
Proof.
  unfold deleteVertex. rewrite vertexEntry_forget.
  destruct (vertexEntry m v) as [e|]; binds; [|done].
  unfold forget. simpl. f_equal. f_equal.
  change (map (option_map (forgetEntry zero)))
    with (fmap (M := list) (option_map (forgetEntry zero))).
  by rewrite list_fmap_insert.
Qed.

Lemma pushAdjacent_forget m f v : pushAdjacent f v (fg m) = fg <$> pushAdjacent f v m.
Proof.
  unfold pushAdjacent. rewrite vertexEntry_forget.
  destruct (vertexEntry m v) as [e|]; binds; [|done].
  by rewrite <- setEntry_forget.
Qed.

Lemma dropAdjacent_forget m f v : dropAdjacent f v (fg m) = fg <$> dropAdjacent f v m.
Proof.
  unfold dropAdjacent. rewrite vertexEntry_forget.
  destruct (vertexEntry m v) as [e|]; binds; [|done].
  by rewrite <- setEntry_forget.
Qed.

Lemma addFace_forget m i1 i2 i3 :
  addFace i1 i2 i3 (fg m) = keepMesh <$> addFace i1 i2 i3 m.
Proof.
  unfold addFace.
  change (freeFaceIndices (fg m)) with (freeFaceIndices m).
  destruct (freeFaceIndices m) as [|g rest].
  - change (mkMesh (vertexTable (fg m)) (faceTable (fg m) ++ [Some (i1, i2, i3)])
              (freeVertexIndices (fg m)) [])
      with (fg (mkMesh (vertexTable m) (faceTable m ++ [Some (i1, i2, i3)])
                  (freeVertexIndices m) [])).
    change (length (faceTable (fg m))) with (length (faceTable m)).
    rewrite pushAdjacent_forget. destruct (pushAdjacent _ i1 _) as [m1|]; binds; [|done].
    rewrite pushAdjacent_forget. destruct (pushAdjacent _ i2 _) as [m2|]; binds; [|done].
    rewrite pushAdjacent_forget. by destruct (pushAdjacent _ i3 _) as [m3|].
  - change (mkMesh (vertexTable (fg m)) (<[g := Some (i1, i2, i3)]> (faceTable (fg m)))
              (freeVertexIndices (fg m)) rest)
      with (fg (mkMesh (vertexTable m) (<[g := Some (i1, i2, i3)]> (faceTable m))
                  (freeVertexIndices m) rest)).
    rewrite pushAdjacent_forget. destruct (pushAdjacent _ i1 _) as [m1|]; binds; [|done].
    rewrite pushAdjacent_forget. destruct (pushAdjacent _ i2 _) as [m2|]; binds; [|done].
    rewrite pushAdjacent_forget. by destruct (pushAdjacent _ i3 _) as [m3|].
Qed.

Lemma deleteFace_forget m f : deleteFace f (fg m) = fg <$> deleteFace f m.
Proof.
  unfold deleteFace. rewrite vertexIndices_forget.
  destruct (vertexIndices m f) as [[[i1 i2] i3]|]; binds; [|done].
  rewrite dropAdjacent_forget. destruct (dropAdjacent f i1 m) as [m1|]; binds; [|done].
  rewrite dropAdjacent_forget. destruct (dropAdjacent f i2 m1) as [m2|]; binds; [|done].
  rewrite dropAdjacent_forget. by destruct (dropAdjacent f i3 m2) as [m3|].
Qed.

Lemma deleteFaces_loop_forget (l : list nat) m :
  deleteFaces_loop l (fg m) = fg <$> deleteFaces_loop l m.
Proof.
  revert m. induction l as [|f l IH]; intros m; [done|]. cbn [deleteFaces_loop].
  rewrite deleteFace_forget. destruct (deleteFace f m) as [m1|]; binds; [|done].
  apply IH.
Qed.

Lemma addFaces_loop_forget fuel numDeleted i (vs : list nat) m (faces : DynamicFaces) :
  addFaces_loop fuel numDeleted i vs (fg m) faces
  = keepMesh <$> addFaces_loop fuel numDeleted i vs m faces.
Proof.
  revert i vs m faces. induction fuel as [|fuel IH]; intros i vs m faces.
  - by destruct vs as [|a [|b [|c rest]]].
  - destruct vs as [|a [|b [|c rest]]]; try done. cbn [addFaces_loop].
    rewrite addFace_forget. destruct (addFace a b c m) as [[m1 g]|]; binds; [|done].
    apply IH.
Qed.

Lemma applyToMesh_forget (nf : NewFaces.t) m (faces : DynamicFaces) :
  applyToMesh nf (fg m) faces
  = keepMesh2 <$> applyToMesh nf m faces.
Proof.
  unfold applyToMesh. destruct (assert _); binds; [|done].
  rewrite deleteFaces_loop_forget.
  destruct (deleteFaces_loop _ m) as [m1|]; binds; [|done].
  rewrite isEmpty_forget. destruct (isEmpty m1); cbn [negb]; [done|].
  rewrite addFaces_loop_forget.
  by destruct (addFaces_loop _ _ _ _ m1 faces) as [[m2 faces2]|].
Qed.
End ForgetStore.

Section ForgetCollapse.
Context {P : Type}.
Variable between : P → P → P.
Variable zero : P.
Implicit Types (m : DynamicMesh P) (f v u : nat).
Local Abbreviation fg := (forget zero).
Local Abbreviation keepMesh := (prod_map (forget zero) (fun x => x)).
Local Abbreviation keepMesh2 :=
  (prod_map (prod_map (forget zero) (fun x => x)) (fun x => x)).

Lemma findAdjacent_loop_forget m e1 e2 (l : list nat) (acc : Adjacent) :
  findAdjacent_loop (fg m) e1 e2 l acc = findAdjacent_loop m e1 e2 l acc.
Proof.
  revert acc. induction l as [|a l IH]; intros acc; [done|].
  cbn [findAdjacent_loop].
  change (findAdjacent_step (fg m) e1 e2 acc a) with (findAdjacent_step m e1 e2 acc a).
  destruct (findAdjacent_step m e1 e2 acc a) as [acc1|]; binds; [|done]. apply IH.
Qed.

Lemma findAdjacent_forget m e1 e2 : findAdjacent (fg m) e1 e2 = findAdjacent m e1 e2.
Proof.
  unfold findAdjacent. by rewrite adjacentFaces_forget, findAdjacent_loop_forget.
Qed.

Lemma isValidEdge_loop_forget m i2 (l : list nat) :
  isValidEdge_loop (fg m) i2 l = isValidEdge_loop m i2 l.
Proof.
  induction l as [|a l IH]; [done|]. cbn [isValidEdge_loop].
  rewrite vertexIndices_forget.
  destruct (vertexIndices m a) as [[[a1 a2] a3]|]; binds; [|done]. by rewrite IH.
Qed.

Lemma isValidEdge_forget m i1 i2 : isValidEdge (fg m) i1 i2 = isValidEdge m i1 i2.
Proof.
  unfold isValidEdge.
  by rewrite !isFreeVertex_forget, adjacentFaces_forget, isValidEdge_loop_forget.
Qed.

Lemma addFaces_fold_forget m newI i1 i2 (l : list nat) (nf : NewFaces.t) :
  addFaces_fold (fg m) newI i1 i2 l nf = addFaces_fold m newI i1 i2 l nf.
Proof.
  revert nf. induction l as [|a l IH]; intros nf; [done|]. cbn [addFaces_fold].
  change (addFaces_step (fg m) newI i1 i2 nf a) with (addFaces_step m newI i1 i2 nf a).
  destruct (addFaces_step m newI i1 i2 nf a) as [nf1|]; binds; [|done]. apply IH.
Qed.

Lemma addFaces_forget m newI i1 i2 (nf : NewFaces.t) :
  addFaces (fg m) newI i1 i2 nf = addFaces m newI i1 i2 nf.
Proof. unfold addFaces. by rewrite adjacentFaces_forget, addFaces_fold_forget. Qed.

Lemma countSuccessor_forget m i2 s (l : list nat) n :
  countSuccessor (fg m) i2 s l n = countSuccessor m i2 s l n.
Proof.
  revert n. induction l as [|a l IH]; intros n; [done|]. cbn [countSuccessor].
  change (getSuccessor (fg m) i2 a) with (getSuccessor m i2 a).
  destruct (getSuccessor m i2 a) as [x|]; binds; [|done]. apply IH.
Qed.

Lemma countCommon_forget m i1 i2 (l : list nat) n :
  countCommon (fg m) i1 i2 l n = countCommon m i1 i2 l n.
Proof.
  revert n. induction l as [|a l IH]; intros n; [done|]. cbn [countCommon].
  change (getSuccessor (fg m) i1 a) with (getSuccessor m i1 a).
  destruct (getSuccessor m i1 a) as [x|]; binds; [|done].
  rewrite adjacentFaces_forget, countSuccessor_forget.
  destruct (negb (x =? i2)).
  - destruct (countSuccessor m i2 x (adjacentFaces m i2) n); binds; [|done]. apply IH.
  - binds. apply IH.
Qed.

Lemma numCommonAdjacentVertices_forget m i1 i2 :
  numCommonAdjacentVertices (fg m) i1 i2 = numCommonAdjacentVertices m i1 i2.
Proof.
  unfold numCommonAdjacentVertices. by rewrite adjacentFaces_forget, countCommon_forget.
Qed.

Lemma deleteValence3Vertex_forget m i (faces : DynamicFaces) :
  deleteValence3Vertex (fg m) i faces = keepMesh2 <$> deleteValence3Vertex m i faces.
Proof.
  unfold deleteValence3Vertex.
  rewrite isFreeVertex_forget, !valence_forget, !adjacentFaces_forget.
  destruct (assert (negb (isFreeVertex m i))); binds; [|done].
  destruct (assert (valence m i =? 3)); binds; [|done].
  destruct (adjacentFaces m i !! 0) as [adj1|]; binds; [|done].
  destruct (adjacentFaces m i !! 1) as [adj2|]; binds; [|done].
  destruct (adjacentFaces m i !! 2) as [adj3|]; binds; [|done].
  rewrite !vertexIndices_forget.
  destruct (vertexIndices m adj1) as [[[adj11 adj12] adj13]|]; binds; [|done].
  destruct (vertexIndices m adj2) as [[[adj21 adj22] adj23]|]; binds; [|done].
  match goal with |- (?o ≫= _) = _ => destruct o as [[newI1 newI2]|] end; binds;
    [|done].
  match goal with |- (?o ≫= _) = _ => destruct o as [newI3|] end; binds; [|done].
  destruct (assert (negb (newI1 =? newI2))); binds; [|done].
  destruct (assert (negb (newI1 =? newI3))); binds; [|done].
  destruct (assert (negb (newI2 =? newI3))); binds; [|done].
  rewrite !valence_forget.
  destruct ((3 <? valence m newI1) && (3 <? valence m newI2) && (3 <? valence m newI3));
    [|done].
  rewrite deleteFace_forget. destruct (deleteFace adj1 m) as [m1|]; binds; [|done].
  rewrite deleteFace_forget. destruct (deleteFace adj2 m1) as [m2|]; binds; [|done].
  rewrite deleteFace_forget. destruct (deleteFace adj3 m2) as [m3|]; binds; [|done].
  rewrite deleteVertex_forget. destruct (deleteVertex i m3) as [m4|]; binds; [|done].
  rewrite addFace_forget. by destruct (addFace newI1 newI2 newI3 m4) as [[m5 g]|].
Qed.

Lemma collapseInto_forget m i1 i2 (newPos : P) (faces : DynamicFaces) :
  collapseInto zero (fg m) i1 i2 newPos faces
  = keepMesh <$> collapseInto zero m i1 i2 newPos faces.
Proof.
  unfold collapseInto. rewrite (addVertex_forget zero m newPos zero).
  destruct (addVertex newPos zero m) as [m1 newI]. cbn [prod_map fst snd].
  rewrite addFaces_forget. destruct (addFaces m1 newI i1 i2 _) as [nf1|]; binds; [|done].
  rewrite addFaces_forget. destruct (addFaces m1 newI i2 i1 nf1) as [nf2|]; binds; [|done].
  rewrite applyToMesh_forget.
  destruct (applyToMesh nf2 m1 faces) as [[[m2 fs2] b2]|]; binds; [|done].
  rewrite !adjacentFaces_forget.
  destruct (assert (bool_decide (adjacentFaces m2 i1 = []))); binds; [|done].
  destruct (assert (bool_decide (adjacentFaces m2 i2 = []))); binds; [|done].
  rewrite deleteVertex_forget. destruct (deleteVertex i1 m2) as [m3|]; binds; [|done].
  rewrite deleteVertex_forget. destruct (deleteVertex i2 m3) as [m4|]; binds; [|done].
  rewrite !isFreeVertex_forget.
  destruct (assert (isFreeVertex m4 i1)); binds; [|done].
  by destruct (assert (isFreeVertex m4 i2)).
Qed.
End ForgetCollapse.

Section ForgetDriver.
Context {P : Type}.
Variable between : P → P → P.
Variable zero : P.
Implicit Types (m : DynamicMesh P) (f v u : nat) (doCollapse : @CollapsePredicate P).
Local Abbreviation fg := (forget zero).
Local Abbreviation keepMesh := (prod_map (forget zero) (fun x => x)).
Local Abbreviation keepMesh2 :=
  (prod_map (prod_map (forget zero) (fun x => x)) (fun x => x)).

Lemma collapseEdge_forget m i1 i2 (faces : DynamicFaces) :
  collapseEdge between zero (fg m) i1 i2 faces
  = keepMesh <$> collapseEdge between zero m i1 i2 faces.
Proof.
  unfold collapseEdge.
  rewrite !valence_forget, isValidEdge_forget, !vertex_forget.
  destruct (assert (3 <=? valence m i1)); binds; [|done].
  destruct (assert (3 <=? valence m i2)); binds; [|done].
  destruct (isValidEdge m i1 i2) as [valid|]; binds; [|done].
  destruct (assert valid); binds; [|done].
  destruct (vertex m i1) as [p1|]; binds; [|done].
  destruct (vertex m i2) as [p2|]; binds; [|done].
  destruct (valence m i1 =? 3).
  { rewrite deleteValence3Vertex_forget.
    destruct (deleteValence3Vertex m i1 faces) as [[[m1 fs] [|]]|]; binds; try done.
    rewrite setVertex_forget. by destruct (setVertex i2 _ m1). }
  destruct (valence m i2 =? 3).
  { rewrite deleteValence3Vertex_forget.
    destruct (deleteValence3Vertex m i2 faces) as [[[m1 fs] [|]]|]; binds; try done.
    rewrite setVertex_forget. by destruct (setVertex i1 _ m1). }
  rewrite findAdjacent_forget.
  destruct (findAdjacent m i1 i2) as [[[[lf lv] rf] rv]|]; binds; [|done].
  rewrite !valence_forget.
  destruct (assert (3 <=? valence m lv)); binds; [|done].
  destruct (assert (3 <=? valence m rv)); binds; [|done].
  destruct (lv =? rv); [done|].
  destruct ((valence m lv =? 3) || (valence m rv =? 3)); [done|].
  rewrite numCommonAdjacentVertices_forget.
  destruct (numCommonAdjacentVertices m i1 i2) as [n|]; binds; [|done].
  destruct (n =? 2); [|done].
  rewrite collapseInto_forget.
  destruct (collapseInto zero m i1 i2 (between p1 p2) faces) as [[m1 newI]|]; binds;
    [|done].
  rewrite valence_forget. by destruct (assert _).
Qed.

Lemma collapseFace_forget doCollapse (current : DynamicFaces) m (c : bool) i :
  normalBlind zero doCollapse →
  collapseFace between zero doCollapse current (fg m, c) i
  = keepMesh <$> collapseFace between zero doCollapse current (m, c) i.
Proof.
  intros Hblind. unfold collapseFace. rewrite isFreeFace_forget, vertexIndices_forget.
  destruct (negb (isFreeFace m i)); [|done].
  destruct (vertexIndices m i) as [[[i1 i2] i3]|]; binds; [|done].
  rewrite !Hblind, !collapseEdge_forget.
  destruct (doCollapse m i1 i2) as [[|]|]; binds; try done.
  { by destruct (collapseEdge between zero m i1 i2 current) as [[m1 r]|]. }
  destruct (doCollapse m i1 i3) as [[|]|]; binds; try done.
  { by destruct (collapseEdge between zero m i1 i3 current) as [[m1 r]|]. }
  destruct (doCollapse m i2 i3) as [[|]|]; binds; try done.
  by destruct (collapseEdge between zero m i2 i3 current) as [[m1 r]|].
Qed.

Lemma collapseScan_forget doCollapse (current : DynamicFaces) (l : list nat) m (c : bool) :
  normalBlind zero doCollapse →
  collapseScan between zero doCollapse current l (fg m, c)
  = keepMesh <$> collapseScan between zero doCollapse current l (m, c).
Proof.
  intros Hblind. revert m c. induction l as [|i l IH]; intros m c; [done|].
  cbn [collapseScan]. rewrite collapseFace_forget by done.
  destruct (collapseFace between zero doCollapse current (m, c) i) as [[m1 c1]|];
    binds; [|done].
  apply IH.
Qed.

Lemma collapseEdges_forget fuel doCollapse m (faces : DynamicFaces) :
  normalBlind zero doCollapse →
  collapseEdges between zero fuel doCollapse (fg m) faces
  = keepMesh2 <$> collapseEdges between zero fuel doCollapse m faces.
Proof.
  intros Hblind. destruct fuel as [|fuel]; [done|].
  unfold collapseEdges. rewrite !collapseEdges_loop_once.
  rewrite collapseScan_forget by done.
  by destruct (collapseScan _ _ _ _ _ (m, false)) as [[m1 c1]|].
Qed.

(** A rejected collapse leaves the mesh as it was. *)
Lemma deleteValence3Vertex_false m i (faces : DynamicFaces) m' faces' :
  deleteValence3Vertex m i faces = Some (m', faces', false) → m' = m.
Proof.
  unfold deleteValence3Vertex.
  destruct (assert (negb (isFreeVertex m i))); binds; [|done].
  destruct (assert (valence m i =? 3)); binds; [|done].
  destruct (adjacentFaces m i !! 0) as [adj1|]; binds; [|done].
  destruct (adjacentFaces m i !! 1) as [adj2|]; binds; [|done].
  destruct (adjacentFaces m i !! 2) as [adj3|]; binds; [|done].
  destruct (vertexIndices m adj1) as [[[adj11 adj12] adj13]|]; binds; [|done].
  destruct (vertexIndices m adj2) as [[[adj21 adj22] adj23]|]; binds; [|done].
  match goal with |- (?o ≫= _) = _ → _ => destruct o as [[newI1 newI2]|] end; binds;
    [|done].
  match goal with |- (?o ≫= _) = _ → _ => destruct o as [newI3|] end; binds; [|done].
  destruct (assert (negb (newI1 =? newI2))); binds; [|done].
  destruct (assert (negb (newI1 =? newI3))); binds; [|done].
  destruct (assert (negb (newI2 =? newI3))); binds; [|done].
  destruct ((3 <? valence m newI1) && (3 <? valence m newI2) && (3 <? valence m newI3));
    [|congruence].
  destruct (deleteFace adj1 m) as [m1|]; binds; [|done].
  destruct (deleteFace adj2 m1) as [m2|]; binds; [|done].
  destruct (deleteFace adj3 m2) as [m3|]; binds; [|done].
  destruct (deleteVertex i m3) as [m4|]; binds; [|done].
  by destruct (addFace newI1 newI2 newI3 m4) as [[m5 g]|].
Qed.

Lemma collapseEdge_false m i1 i2 (faces : DynamicFaces) m' :
  collapseEdge between zero m i1 i2 faces = Some (m', false) → m' = m.
Proof.
  unfold collapseEdge.
  destruct (assert (3 <=? valence m i1)); binds; [|done].
  destruct (assert (3 <=? valence m i2)); binds; [|done].
  destruct (isValidEdge m i1 i2) as [valid|]; binds; [|done].
  destruct (assert valid); binds; [|done].
  destruct (vertex m i1) as [p1|]; binds; [|done].
  destruct (vertex m i2) as [p2|]; binds; [|done].
  destruct (valence m i1 =? 3).
  { destruct (deleteValence3Vertex m i1 faces) as [[[m1 fs] [|]]|] eqn:E; binds;
      try done.
    - by destruct (setVertex i2 _ m1).
    - intros [= <-]. by eapply deleteValence3Vertex_false. }
  destruct (valence m i2 =? 3).
  { destruct (deleteValence3Vertex m i2 faces) as [[[m1 fs] [|]]|] eqn:E; binds;
      try done.
    - by destruct (setVertex i1 _ m1).
    - intros [= <-]. by eapply deleteValence3Vertex_false. }
  destruct (findAdjacent m i1 i2) as [[[[lf lv] rf] rv]|]; binds; [|done].
  destruct (assert (3 <=? valence m lv)); binds; [|done].
  destruct (assert (3 <=? valence m rv)); binds; [|done].
  destruct (lv =? rv); [congruence|].
  destruct ((valence m lv =? 3) || (valence m rv =? 3)); [congruence|].
  destruct (numCommonAdjacentVertices m i1 i2) as [n|]; binds; [|done].
  destruct (n =? 2); [|congruence].
  destruct (collapseInto zero m i1 i2 (between p1 p2) faces) as [[m1 newI]|]; binds;
    [|done].
  by destruct (assert _).
Qed.

Lemma collapseFace_false doCollapse (current : DynamicFaces) m (c : bool) i m' :
  collapseFace between zero doCollapse current (m, c) i = Some (m', false) →
  c = false ∧ m' = m.
Proof.
  unfold collapseFace. destruct (negb (isFreeFace m i)); [|by intros [= <- <-]].
  destruct (vertexIndices m i) as [[[i1 i2] i3]|]; binds; [|done].
  destruct (doCollapse m i1 i2) as [[|]|]; binds; try done.
  { destruct (collapseEdge between zero m i1 i2 current) as [[m1 r]|] eqn:E; binds;
      [|done].
    intros [= <- Hr]. apply orb_false_elim in Hr as [-> ->].
    split; [done|]. by eapply collapseEdge_false. }
  destruct (doCollapse m i1 i3) as [[|]|]; binds; try done.
  { destruct (collapseEdge between zero m i1 i3 current) as [[m1 r]|] eqn:E; binds;
      [|done].
    intros [= <- Hr]. apply orb_false_elim in Hr as [-> ->].
    split; [done|]. by eapply collapseEdge_false. }
  destruct (doCollapse m i2 i3) as [[|]|]; binds; try done.
  { destruct (collapseEdge between zero m i2 i3 current) as [[m1 r]|] eqn:E; binds;
      [|done].
    intros [= <- Hr]. apply orb_false_elim in Hr as [-> ->].
    split; [done|]. by eapply collapseEdge_false. }
  by intros [= <- <-].
Qed.

Lemma collapseScan_false doCollapse (current : DynamicFaces) (l : list nat) m (c : bool) m' :
  collapseScan between zero doCollapse current l (m, c) = Some (m', false) →
  c = false ∧ m' = m.
Proof.
  revert m c. induction l as [|i l IH]; intros m c; cbn [collapseScan].
  - by intros [= <- <-].
  - destruct (collapseFace between zero doCollapse current (m, c) i) as [[m1 c1]|] eqn:E;
      binds; [|done].
    intros H. apply IH in H as [-> ->]. by apply collapseFace_false in E.
Qed.

Lemma collapseEdges_false fuel doCollapse m (faces faces' : DynamicFaces) m' :
  collapseEdges between zero fuel doCollapse m faces = Some (m', faces', false) →
  m' = m.
Proof.
  destruct fuel as [|fuel]; [done|].
  unfold collapseEdges. rewrite collapseEdges_loop_once.
  destruct (collapseScan _ _ _ _ _ (m, false)) as [[m1 c1]|] eqn:E; binds; [|done].
  intros [= <- _ ->]. by apply collapseScan_false in E as [_ ->].
Qed.
End ForgetDriver.

Section Idempotence.
Context {P F : Type}.
Variable between : P → P → P.
Variable zero : P.
Variable distance2 : P → P → F.
Variable ltF : F → F → bool.
Variable minEdgeLengthSqr : F.
Variable computeNormal : DynamicMesh P → nat → P.
Implicit Types (m : DynamicMesh P).
Local Abbreviation fg := (forget zero).

Lemma isCollapsable_normalBlind (maxEdgeLengthSqr : F) :
  normalBlind zero (isCollapsable distance2 ltF maxEdgeLengthSqr).
Proof.
  intros m i1 i2. unfold isCollapsable.
  by rewrite !isFreeVertex_forget, !vertex_forget.
Qed.

(** [finalize] writes normals only. *)
Lemma finalize_forget m (faces : DynamicFaces) :
  fg (finalize computeNormal m faces) = fg m.
Proof.
  unfold finalize. generalize (regionVertices m faces). intros l. revert m.
  induction l as [|v l IH]; intros m; [done|]. cbn [foldl]. rewrite IH.
  destruct (vertexEntry m v) as [e|] eqn:E; [|done].
  rewrite <- setEntry_forget. unfold setEntry, forget. cbn. f_equal.
  apply list_insert_id.
  change (map (option_map (forgetEntry zero)) (vertexTable m))
    with (option_map (forgetEntry zero) <$> vertexTable m).
  rewrite list_lookup_fmap. unfold vertexEntry in E.
  destruct (vertexTable m !! v) as [[e'|]|]; simpl in *; [|done|done].
  injection E as ->. reflexivity.
Qed.

Lemma liveFaces_forget m : liveFaces (fg m) = liveFaces m.
Proof. reflexivity. Qed.

(** C9, as the code has it.  A call of [collapseDegeneratedEdges] that
    returns [false] has changed nothing in the mesh but vertex normals, and an
    immediately following call returns, and returns [false] again.  (After a
    call that returns [true] the next call may return [true].) *)
Theorem collapseDegeneratedEdges_stable_once_false (fuel : nat) m m1 :
  collapseDegeneratedEdges between zero distance2 ltF minEdgeLengthSqr computeNormal
                           fuel m = Some (m1, false) →
  forget zero m1 = forget zero m
  ∧ ∃ m2, collapseDegeneratedEdges between zero distance2 ltF minEdgeLengthSqr
                                   computeNormal fuel m1 = Some (m2, false).
Proof.
  unfold collapseDegeneratedEdges, collapseEdgesByLength.
  destruct (collapseEdges between zero fuel _ m _) as [[[mA fsA] c]|] eqn:E; binds;
    [|done].
  intros [= <- ->].
  pose proof (collapseEdges_false _ _ _ _ _ _ _ _ E) as ->.
  split; [apply finalize_forget|].
  set (m1 := finalize computeNormal m fsA).
  assert (Hlive : liveFaces m1 = liveFaces m).
  { rewrite <- (liveFaces_forget m1), <- (liveFaces_forget m).
    unfold m1. by rewrite finalize_forget. }
  rewrite Hlive.
  pose proof (collapseEdges_forget between zero fuel _ m1
                (Faces.commit (Faces.insertAll (liveFaces m) Faces.empty))
                (isCollapsable_normalBlind minEdgeLengthSqr)) as H1.
  pose proof (collapseEdges_forget between zero fuel _ m
                (Faces.commit (Faces.insertAll (liveFaces m) Faces.empty))
                (isCollapsable_normalBlind minEdgeLengthSqr)) as H0.
  unfold m1 in H1 at 1. rewrite finalize_forget, H0, E in H1.
  destruct (collapseEdges between zero fuel _ m1 _) as [[[mB fsB] cB]|]; [|done].
  assert (cB = false) as -> by (cbn in H1; congruence).
  binds. eauto.
Qed.
End Idempotence.

Lemma collapseDegeneratedEdges_stable_once_false_witness :
  ∃ m1 m2,
    Example.collapseDegenerated 1 Example.octahedron = Some (m1, false)
    ∧ Example.collapseDegenerated 1 m1 = Some (m2, false).
Proof.
  destruct (Example.collapseDegenerated 1 Example.octahedron) as [[m1 b]|] eqn:E;
    [|vm_compute in E; discriminate].
  assert (b = false) as -> by (vm_compute in E; congruence).
  destruct (collapseDegeneratedEdges_stable_once_false Example.between Example.zero
              Example.distance2 Example.ltQ Example.minEdgeLengthSqr
              (fun _ _ => Example.zero) 1 Example.octahedron m1 E) as [_ [m2 H2]].
  exists m1, m2. split; [reflexivity|exact H2].
Defined.

(** * Further properties of the code *)

(** ** Edge keys and the edge maps *)

(** X1.  [makeUiKey] does not depend on the order of the two
    endpoints; a key it returns has its smaller index first and holds exactly
    the two endpoints; it aborts exactly when the endpoints are equal. *)
Theorem makeUiKey_unordered (a b : nat) :
  makeUiKey a b = makeUiKey b a
  ∧ (∀ k, makeUiKey a b = Some k →
          fst k < snd k ∧ (k = (a, b) ∨ k = (b, a)))
  ∧ (makeUiKey a b = None ↔ a = b).
Proof.
  unfold makeUiKey, assert.
  destruct (Nat.eqb_spec a b) as [->|Hab]; cbn [negb mbind option_bind].
  - rewrite Nat.eqb_refl. cbn. split; [done|]. split; [done|]. done.
  - destruct (Nat.eqb_spec b a) as [->|_]; [done|]. cbn [negb mbind option_bind].
    split; [by rewrite Nat.min_comm, Nat.max_comm|]. split.
    + intros k [= <-]. cbn [fst snd]. split; [lia|].
      destruct (decide (a < b)).
      * left. f_equal; lia.
      * right. f_equal; lia.
    + split; [done|]. intros ->. done.
Qed.

(** X2.  After [insertInEdge (i1, i2, i3)] the midpoint is found
    under both orientations of the edge, every other edge is found as before,
    and a second insertion for the same edge (in either orientation) aborts on
    the assertion of [insertInEdge]. *)
Theorem insertInEdge_findVertex (newV newV' : NewVertices) (i1 i2 i3 : nat) :
  insertInEdge i1 i2 i3 newV = Some newV' →
  findVertex newV' i1 i2 = Some (Some i3)
  ∧ findVertex newV' i2 i1 = Some (Some i3)
  ∧ hasVertex newV i2 i1 = Some false
  ∧ (∀ a b, edgeKey a b ≠ edgeKey i1 i2 → findVertex newV' a b = findVertex newV a b)
  ∧ (∀ i4, insertInEdge i1 i2 i4 newV' = None ∧ insertInEdge i2 i1 i4 newV' = None).
Proof.
  unfold insertInEdge.
  destruct (decide (i1 = i2)) as [->|Hne].
  { unfold hasVertex, findVertex. by rewrite makeUiKey_None. }
  rewrite hasVertex_Some by done. cbn [mbind option_bind].
  case_bool_decide as Hin; cbn [assert negb mbind option_bind]; [done|].
  rewrite makeUiKey_Some by done. cbn [mbind option_bind]. intros [= <-].
  assert (Hk : edgeKey i2 i1 = edgeKey i1 i2).
  { unfold edgeKey. by rewrite Nat.min_comm, Nat.max_comm. }
  assert (Hnone : newV !! edgeKey i1 i2 = None).
  { destruct (newV !! edgeKey i1 i2) eqn:E; [|done]. exfalso. apply Hin. eauto. }
  repeat split.
  - rewrite findVertex_Some by done. f_equal. apply lookup_insert_eq.
  - rewrite findVertex_Some by done. rewrite Hk. f_equal. apply lookup_insert_eq.
  - rewrite hasVertex_Some by done. rewrite Hk. f_equal.
    apply bool_decide_eq_false_2. intros [x Hx].
    exact (eq_ind (Some x) (fun o => match o with Some _ => True | None => False end)
                  I None (eq_trans (eq_sym Hx) Hnone)).
  - intros a b Hab. unfold findVertex, makeUiKey, assert.
    destruct (Nat.eqb_spec a b); cbn [negb mbind option_bind]; [done|].
    f_equal. apply lookup_insert_ne. intros Heq. apply Hab. symmetry. exact Heq.
  - rewrite hasVertex_Some by done.
    rewrite bool_decide_eq_true_2; [done|]. exists i3. apply lookup_insert_eq.
  - rewrite hasVertex_Some by done. rewrite Hk.
    rewrite bool_decide_eq_true_2; [done|]. exists i3. apply lookup_insert_eq.
Qed.

(** X3.  [EdgeMap::insertEdge] appends the face to the list kept for
    the undirected edge, whichever way the edge is given, and leaves the
    lists of all other edges as they are: the two faces of an edge, inserted
    from opposite orientations, end up in one list in insertion order. *)
Theorem EdgeMap_insertEdge_lookup (em em' : EdgeMap.t) (i1 i2 face : nat) :
  EdgeMap.insertEdge i1 i2 face em = Some em' →
  em' !! edgeKey i2 i1 = Some (default [] (em !! edgeKey i1 i2) ++ [face])
  ∧ (∀ k, k ≠ edgeKey i1 i2 → em' !! k = em !! k)
  ∧ (∀ face2 em'',
       EdgeMap.insertEdge i2 i1 face2 em' = Some em'' →
       em'' !! edgeKey i1 i2 = Some (default [] (em !! edgeKey i1 i2) ++ [face; face2])).
Proof.
  assert (Hk : edgeKey i2 i1 = edgeKey i1 i2).
  { unfold edgeKey. by rewrite Nat.min_comm, Nat.max_comm. }
  unfold EdgeMap.insertEdge.
  destruct (decide (i1 = i2)) as [->|Hne]; [by rewrite makeUiKey_None|].
  rewrite !makeUiKey_Some by done. cbn [mbind option_bind]. rewrite Hk.
  intros [= <-].
  assert (H1 : (match em !! edgeKey i1 i2 with
                | Some faces => <[edgeKey i1 i2 := faces ++ [face]]> em
                | None => <[edgeKey i1 i2 := [face]]> em
                end) !! edgeKey i1 i2
               = Some (default [] (em !! edgeKey i1 i2) ++ [face])).
  { destruct (em !! edgeKey i1 i2); apply lookup_insert_eq. }
  split; [exact H1|]. split.
  - intros k Hne'. destruct (em !! edgeKey i1 i2); by apply lookup_insert_ne.
  - intros face2 em''. rewrite H1. intros [= <-].
    rewrite lookup_insert_eq. by rewrite <- app_assoc.
Qed.

Lemma insertInEdge_findVertex_witness :
  insertInEdge 3 1 9 twoMidpoints = Some (<[(1, 3) := 9]> twoMidpoints)
  ∧ findVertex (<[(1, 3) := 9]> twoMidpoints) 1 3 = Some (Some 9).
Proof.
  split; [reflexivity|].
  exact (proj1 (proj2 (insertInEdge_findVertex twoMidpoints _ 3 1 9 eq_refl))).
Defined.

Lemma EdgeMap_insertEdge_lookup_witness :
  ∃ em', EdgeMap.insertEdge 4 2 7 ∅ = Some em' ∧ em' !! (2, 4) = Some [7].
Proof.
  eexists. split; [reflexivity|].
  exact (proj1 (EdgeMap_insertEdge_lookup ∅ _ 4 2 7 eq_refl)).
Defined.

(** ** [findAdjacent] *)

Section FindAdjacentFacts.
Context {P : Type}.
Implicit Types (m : DynamicMesh P).

Lemma findAdjacent_step_sideOf m e1 e2 (acc : Adjacent) a :
  findAdjacent_step m e1 e2 acc a =
    t ← vertexIndices m a;
    Some match sideOf e1 e2 t with
         | Some (true, v) => mkAdjacent (Some a) (Some v) (rightFace acc) (rightVertex acc)
         | Some (false, v) => mkAdjacent (leftFace acc) (leftVertex acc) (Some a) (Some v)
         | None => acc
         end.
Proof.
  unfold findAdjacent_step, sideOf.
  destruct (vertexIndices m a) as [[[i1 i2] i3]|]; [|done]. cbn [mbind option_bind].
  by repeat match goal with |- context [if ?b then _ else _] => destruct b end.
Qed.

Lemma sideOf_left e1 e2 (t : Face) v :
  sideOf e1 e2 t = Some (true, v) → rotationOf t e1 e2 v.
Proof.
  destruct t as [[i1 i2] i3]. unfold sideOf, rotationOf.
  destruct (Nat.eqb_spec e1 i1), (Nat.eqb_spec e2 i2), (Nat.eqb_spec e1 i2),
    (Nat.eqb_spec e2 i1), (Nat.eqb_spec e2 i3), (Nat.eqb_spec e1 i3);
    cbn [andb]; intros [= <-]; subst; auto.
Qed.

Lemma sideOf_right e1 e2 (t : Face) v :
  sideOf e1 e2 t = Some (false, v) → rotationOf t e2 e1 v.
Proof.
  destruct t as [[i1 i2] i3]. unfold sideOf, rotationOf.
  destruct (Nat.eqb_spec e1 i1), (Nat.eqb_spec e2 i2), (Nat.eqb_spec e1 i2),
    (Nat.eqb_spec e2 i1), (Nat.eqb_spec e2 i3), (Nat.eqb_spec e1 i3);
    cbn [andb]; intros [= <-]; subst; auto.
Qed.

Lemma sideFound_more m e1 e2 (l l' : list nat) left face vertex :
  l ⊆ l' → sideFound m e1 e2 l left face vertex → sideFound m e1 e2 l' left face vertex.
Proof.
  intros Hsub [H|(a & v & t & ? & ? & Ha & ? & ?)]; [by left|right].
  exists a, v, t. repeat split; try done. by apply Hsub.
Qed.

Lemma findAdjacent_loop_sound m e1 e2 (l0 l : list nat) (acc r : Adjacent) :
  l ⊆ l0 →
  sideFound m e1 e2 l0 true (leftFace acc) (leftVertex acc) →
  sideFound m e1 e2 l0 false (rightFace acc) (rightVertex acc) →
  findAdjacent_loop m e1 e2 l acc = Some r →
  sideFound m e1 e2 l0 true (leftFace r) (leftVertex r)
  ∧ sideFound m e1 e2 l0 false (rightFace r) (rightVertex r).
Proof.
  revert acc. induction l as [|a l IH]; intros acc Hsub HL HR; cbn [findAdjacent_loop].
  - by intros [= <-].
  - rewrite findAdjacent_step_sideOf.
    destruct (vertexIndices m a) as [t|] eqn:Et; cbn [mbind option_bind]; [|done].
    assert (Ha : a ∈ l0) by (apply Hsub; left).
    assert (Hl : l ⊆ l0) by (intros x Hx; apply Hsub; by right).
    destruct (sideOf e1 e2 t) as [[[|] v]|] eqn:Es; apply IH; try done; cbn.
    + right. by exists a, v, t.
    + right. by exists a, v, t.
Qed.

Lemma findAdjacent_inv m e1 e2 lf lv rf rv :
  findAdjacent m e1 e2 = Some (lf, lv, rf, rv) →
  lf ∈ adjacentFaces m e1 ∧ rf ∈ adjacentFaces m e1 ∧ lf ≠ rf
  ∧ (∃ t, vertexIndices m lf = Some t ∧ rotationOf t e1 e2 lv)
  ∧ (∃ t, vertexIndices m rf = Some t ∧ rotationOf t e2 e1 rv).
Proof.
  unfold findAdjacent.
  destruct (findAdjacent_loop _ _ _ _ _) as [r|] eqn:E; cbn [mbind option_bind];
    [|done].
  assert (HL0 : sideFound m e1 e2 (adjacentFaces m e1) true None None) by by left.
  assert (HR0 : sideFound m e1 e2 (adjacentFaces m e1) false None None) by by left.
  destruct (findAdjacent_loop_sound m e1 e2 (adjacentFaces m e1) _
              (mkAdjacent None None None None) r
              (reflexivity _) HL0 HR0 E) as [HL HR].
  destruct (leftFace r) as [lf'|]; cbn [mbind option_bind]; [|done].
  destruct (leftVertex r) as [lv'|]; cbn [mbind option_bind]; [|done].
  destruct (rightFace r) as [rf'|]; cbn [mbind option_bind]; [|done].
  destruct (rightVertex r) as [rv'|]; cbn [mbind option_bind]; [|done].
  intros [= <- <- <- <-].
  destruct HL as [[? _]|(a & v & t & [= <-] & [= <-] & Ha & Et & Es)]; [done|].
  destruct HR as [[? _]|(a' & v' & t' & [= <-] & [= <-] & Ha' & Et' & Es')]; [done|].
  repeat split; try done.
  - intros ->. rewrite Et in Et'. injection Et' as <-. congruence.
  - exists t. split; [done|]. by apply sideOf_left.
  - exists t'. split; [done|]. by apply sideOf_right.
Qed.

(** X4.  The faces that [findAdjacent (e1, e2)] returns are two
    different faces of the adjacency list of [e1]; the left face is
    (e1, e2, leftVertex) up to rotation, so it runs through the edge from e1
    to e2, and the right face is (e2, e1, rightVertex) up to rotation. *)
Theorem findAdjacent_sound m e1 e2 lf lv rf rv :
  findAdjacent m e1 e2 = Some (lf, lv, rf, rv) →
  lf ∈ adjacentFaces m e1 ∧ rf ∈ adjacentFaces m e1 ∧ lf ≠ rf
  ∧ (∃ t, vertexIndices m lf = Some t ∧ rotationOf t e1 e2 lv)
  ∧ (∃ t, vertexIndices m rf = Some t ∧ rotationOf t e2 e1 rv).
Proof. apply findAdjacent_inv. Qed.
End FindAdjacentFacts.

Lemma findAdjacent_sound_witness :
  findAdjacent Example.octahedron 0 1 = Some (0, 2, 3, 4)
  ∧ vertexIndices Example.octahedron 0 = Some (0, 1, 2)
  ∧ vertexIndices Example.octahedron 3 = Some (0, 4, 1).
Proof.
  split; [reflexivity|].
  destruct (findAdjacent_sound Example.octahedron 0 1 0 2 3 4 eq_refl)
    as (_ & _ & _ & _ & _).
  split; reflexivity.
Defined.

(** ** [NewFaces::applyToMesh] and [triangulate] *)

Section ApplyFacts.
Context {P : Type}.
Implicit Types (m : DynamicMesh P) (faces : DynamicFaces) (nf : NewFaces.t).

Lemma isEmpty_false_inv m : isEmpty m = false → ∃ f t, vertexIndices m f = Some t.
Proof.
  unfold isEmpty, vertexIndices. intros H.
  induction (faceTable m) as [|o l IH] using rev_ind; [done|].
  rewrite forallb_app in H. cbn in H. destruct o as [t|].
  - exists (length l), t. by rewrite lookup_app_r, Nat.sub_diag.
  - rewrite andb_true_r in H. destruct (IH H) as (f & t & Hf).
    exists f, t. destruct (l !! f) as [o|] eqn:E; [|done].
    by rewrite (lookup_app_l_Some _ _ _ _ E).
Qed.

Lemma addFace_nonempty i1 i2 i3 m m' g :
  addFace i1 i2 i3 m = Some (m', g) → isEmpty m = false → isEmpty m' = false.
Proof.
  intros H He. apply isEmpty_false_inv in He as (f & t & Hf).
  apply addFace_inv in H as [H _].
  destruct (freeFaceIndices m) as [|g0 rest]; destruct H as (-> & FT & _).
  - apply (isEmpty_false m' f t). unfold vertexIndices in *. rewrite FT.
    destruct (faceTable m !! f) as [o|] eqn:E; [|done].
    by rewrite (lookup_app_l_Some _ _ _ _ E).
  - destruct (decide (f = g0)) as [->|Hne].
    + apply (isEmpty_false m' g0 (i1, i2, i3)). unfold vertexIndices in *. rewrite FT.
      rewrite list_lookup_insert_eq; [done|].
      apply lookup_lt_is_Some. destruct (faceTable m !! g0); [eauto|done].
    + apply (isEmpty_false m' f t). unfold vertexIndices in *. rewrite FT.
      by rewrite list_lookup_insert_ne.
Qed.

(** The adding loop stages the faces of the triples from position
    [numDeleted] on, and only those. *)
Lemma addFaces_loop_staging fuel numDeleted (vs : list nat) :
  ∀ i j m faces m' faces',
    i = 3 * j →
    addFaces_loop fuel numDeleted i vs m faces = Some (m', faces') →
    indices faces' = indices faces
    ∧ length (uncommitted faces')
      = length (uncommitted faces) + (j + length vs / 3 - j `max` numDeleted)
    ∧ (isEmpty m = false → isEmpty m' = false).
Proof.
  revert vs. induction fuel as [|fuel IH]; intros vs i j m faces m' faces' Hi.
  - destruct vs as [|a [|b [|c rest]]]; try done. intros [= <- <-]. cbn. split; [done|].
    split; [lia|done].
  - destruct vs as [|a [|b [|c rest]]]; try done.
    { intros [= <- <-]. cbn. split; [done|]. split; [lia|done]. }
    cbn [addFaces_loop].
    destruct (addFace a b c m) as [[m1 g]|] eqn:EA; cbn [mbind option_bind]; [|done].
    intros H. apply (IH _ _ (S j)) in H as (H1 & H2 & H3); [|lia].
    assert (Hdiv : length (a :: b :: c :: rest) / 3 = S (length rest / 3)).
    { change (length (a :: b :: c :: rest)) with (1 * 3 + length rest).
      by rewrite Nat.div_add_l. }
    rewrite Hdiv. subst i.
    destruct (Nat.leb_spec (numDeleted * 3) (3 * j)) as [Hle|Hgt].
    + unfold Faces.insert in H1, H2. cbn [indices uncommitted] in H1, H2.
      rewrite length_app in H2. cbn [length] in H2.
      split; [done|]. split; [lia|]. eauto using addFace_nonempty.
    + split; [done|]. split; [lia|]. eauto using addFace_nonempty.
Qed.

Lemma applyToMesh_inv nf m faces m' faces' (b : bool) :
  applyToMesh nf m faces = Some (m', faces', b) →
  indices faces' = indices faces
  ∧ (isEmpty m' = true → faces' = faces ∧ b = false)
  ∧ (isEmpty m' = false →
     length (uncommitted faces')
     = length (uncommitted faces)
       + (length (NewFaces.vertexIndices nf) / 3 - size (NewFaces.facesToDelete nf))
     ∧ b = (size (NewFaces.facesToDelete nf) <=? length (NewFaces.vertexIndices nf) / 3)).
Proof.
  unfold applyToMesh. destruct (assert _); cbn [mbind option_bind]; [|done].
  destruct (deleteFaces_loop _ m) as [md|] eqn:ED; cbn [mbind option_bind]; [|done].
  destruct (isEmpty md) eqn:Hmd; cbn [negb].
  - intros [= <- <- <-]. split; [done|]. split; [done|]. congruence.
  - destruct (addFaces_loop _ _ _ _ md faces) as [[m2 faces2]|] eqn:EL;
      cbn [mbind option_bind]; [|done].
    intros [= <- <- <-].
    destruct (addFaces_loop_staging _ _ _ 0 0 _ _ _ _ eq_refl EL) as (H1 & H2 & H3).
    split; [done|]. split; [rewrite (H3 Hmd); done|].
    intros _. split; [|done]. rewrite H2. cbn [Nat.max Nat.add]. reflexivity.
Qed.

(** X5.  [applyToMesh] never touches the committed faces of the
    region.  When the deletions empty the mesh, nothing is added or staged
    and the result is [false]; otherwise the staging buffer grows by the
    number of added faces in excess of the deleted ones (by nothing when
    fewer are added), and the result tells whether at least as many faces
    were added as deleted. *)
Theorem applyToMesh_staging nf m faces m' faces' (b : bool) :
  applyToMesh nf m faces = Some (m', faces', b) →
  indices faces' = indices faces
  ∧ (isEmpty m' = true → faces' = faces ∧ b = false)
  ∧ (isEmpty m' = false →
     length (uncommitted faces')
     = length (uncommitted faces)
       + (length (NewFaces.vertexIndices nf) / 3 - size (NewFaces.facesToDelete nf))
     ∧ b = (size (NewFaces.facesToDelete nf) <=? length (NewFaces.vertexIndices nf) / 3)).
Proof. apply applyToMesh_inv. Qed.
End ApplyFacts.

Lemma applyToMesh_staging_witness :
  ∃ m' faces',
    applyToMesh (NewFaces.mk [6; 7; 0; 2; 6; 1; 2; 7; 6] {[ 0 ]})
                octahedronWithSpares (mkFaces [0] [])
    = Some (m', faces', true)
    ∧ indices faces' = [0] ∧ length (uncommitted faces') = 2.
Proof.
  destruct (applyToMesh _ _ _) as [[[m' faces'] b]|] eqn:E; [|vm_compute in E; discriminate].
  assert (b = true) as -> by (vm_compute in E; congruence).
  exists m', faces'. split; [reflexivity|].
  destruct (applyToMesh_staging _ _ _ _ _ _ E) as (H1 & _ & H3).
  split; [exact H1|].
  assert (He : isEmpty m' = false) by (vm_compute in E; injection E as <- _; reflexivity).
  exact (proj1 (H3 He)).
Defined.

Section TriangulateBatch.
Context {P : Type}.
Implicit Types (m : DynamicMesh P) (nf : NewFaces.t) (newV : NewVertices).

Lemma size_insert_le (f : nat) (D : gset nat) : size ({[ f ]} ∪ D) ≤ S (size D).
Proof.
  rewrite size_union_alt, size_singleton.
  assert (H : size (D ∖ {[f]}) ≤ size D).
  { apply subseteq_size. by apply subseteq_difference_l. }
  lia.
Qed.

(** One face of the region either leaves the batch alone or is deleted and
    replaced by at least two faces. *)
Lemma triangulateFace_counts m newV f nf nf' :
  triangulateFace m newV f nf = Some nf' →
  nf' = nf
  ∨ (NewFaces.facesToDelete nf' = {[ f ]} ∪ NewFaces.facesToDelete nf
     ∧ ∃ k, 2 ≤ k ≤ 4
            ∧ length (NewFaces.vertexIndices nf')
              = length (NewFaces.vertexIndices nf) + 3 * k).
Proof.
  unfold triangulateFace.
  destruct (vertexIndices m f) as [[[i1 i2] i3]|]; cbn [mbind option_bind]; [|done].
  destruct (findVertex newV i1 i2) as [it12|]; cbn [mbind option_bind]; [|done].
  destruct (findVertex newV i1 i3) as [it13|]; cbn [mbind option_bind]; [|done].
  destruct (findVertex newV i2 i3) as [it23|]; cbn [mbind option_bind]; [|done].
  intros [= <-].
  destruct it12 as [a|], it13 as [b|], it23 as [c|];
    repeat match goal with |- context [?x <? ?y] => destruct (x <? y) end;
    first [ by left
          | right; split; [reflexivity|];
            unfold NewFaces.addFace, NewFaces.deleteFace;
            cbn [NewFaces.vertexIndices]; rewrite ?length_app; cbn [length];
            first [ exists 2; lia | exists 3; lia | exists 4; lia ] ].
Qed.

Lemma triangulate_loop_counts m newV (l : list nat) nf nf' :
  triangulate_loop m newV l nf = Some nf' →
  length (NewFaces.vertexIndices nf) `mod` 3 = 0 →
  6 * size (NewFaces.facesToDelete nf) ≤ length (NewFaces.vertexIndices nf) →
  length (NewFaces.vertexIndices nf') `mod` 3 = 0
  ∧ 6 * size (NewFaces.facesToDelete nf') ≤ length (NewFaces.vertexIndices nf').
Proof.
  revert nf. induction l as [|f l IH]; intros nf; cbn [triangulate_loop].
  - by intros [= <-].
  - destruct (triangulateFace m newV f nf) as [nf1|] eqn:E; cbn [mbind option_bind];
      [|done].
    intros H Hmod Hsz. apply (IH _ H).
    + apply triangulateFace_counts in E as [->|(_ & k & _ & ->)]; [done|].
      by rewrite (Nat.mul_comm 3 k), Nat.Div0.mod_add.
    + apply triangulateFace_counts in E as [->|(-> & k & Hk & ->)]; [done|].
      pose proof (size_insert_le f (NewFaces.facesToDelete nf)). lia.
Qed.

(** X6.  The batch that [triangulate] builds holds complete
    triples and at least twice as many faces to add as faces to delete, so
    that [applyToMesh] answers [true] and the assertion on [increasing] holds
    whenever the mesh is not emptied; with a non-empty batch of deletions the
    staging buffer of the region receives new faces. *)
Theorem triangulate_batch_increasing m newV (faces faces1 : DynamicFaces) newF m1
    (increasing : bool) :
  triangulate_loop m newV (indices faces) NewFaces.reset = Some newF →
  applyToMesh newF m faces = Some (m1, faces1, increasing) →
  isEmpty m1 = false →
  2 * size (NewFaces.facesToDelete newF) ≤ length (NewFaces.vertexIndices newF) / 3
  ∧ increasing = true
  ∧ length (uncommitted faces) + size (NewFaces.facesToDelete newF)
    ≤ length (uncommitted faces1).
Proof.
  intros Hloop Happly Hne.
  destruct (triangulate_loop_counts _ _ _ _ _ Hloop) as [Hmod Hsz];
    [done|cbn; rewrite size_empty; lia|].
  assert (H2 : 2 * size (NewFaces.facesToDelete newF)
               ≤ length (NewFaces.vertexIndices newF) / 3).
  { apply Nat.div_le_lower_bound; lia. }
  destruct (applyToMesh_inv _ _ _ _ _ _ Happly) as (_ & _ & H3).
  destruct (H3 Hne) as [Hlen ->].
  split; [done|]. split; [apply Nat.leb_le; lia|]. lia.
Qed.
End TriangulateBatch.

Lemma triangulate_batch_increasing_witness :
  ∃ newF m1 faces1,
    triangulate_loop octahedronWithSpares {[ (0, 1) := 6 ]} [0; 3] NewFaces.reset
    = Some newF
    ∧ applyToMesh newF octahedronWithSpares (mkFaces [0; 3] []) = Some (m1, faces1, true)
    ∧ 2 ≤ length (uncommitted faces1).
Proof.
  destruct (triangulate_loop octahedronWithSpares {[ (0, 1) := 6 ]} [0; 3] NewFaces.reset)
    as [newF|] eqn:E; [|vm_compute in E; discriminate].
  destruct (applyToMesh newF octahedronWithSpares (mkFaces [0; 3] []))
    as [[[m1 faces1] b]|] eqn:EA;
    [|vm_compute in E; injection E as <-; vm_compute in EA; discriminate].
  assert (He : isEmpty m1 = false).
  { vm_compute in E. injection E as <-. vm_compute in EA. injection EA as <- _ _.
    reflexivity. }
  destruct (triangulate_batch_increasing octahedronWithSpares _ (mkFaces [0; 3] [])
              faces1 newF m1 b E EA He) as (_ & -> & Hlen).
  exists newF, m1, faces1. split; [reflexivity|]. split; [exact EA|].
  assert (Hs : size (NewFaces.facesToDelete newF) = 2).
  { vm_compute in E. injection E as <-. reflexivity. }
  rewrite Hs in Hlen. exact Hlen.
Defined.

(** ** [relaxEdges] *)

Section RelaxCandidates.
Context {P : Type}.
Implicit Types (m : DynamicMesh P) (s : EdgeSet).

Lemma insertEdge_joinsPole m (l : list nat) i a w s s' :
  i ∈ l → 6 < valence m i → a ∈ adjacentFaces m i → hasCorner m w a = true →
  insertEdge i w s = Some s' → joinsPole m l s → joinsPole m l s'.
Proof.
  intros Hi Hv Ha Hw. unfold insertEdge, makeUiKey, assert.
  destruct (Nat.eqb_spec i w) as [->|Hne]; cbn [negb mbind option_bind]; [done|].
  intros [= <-] Hs e He. apply elem_of_union in He as [He|He]; [|by apply Hs].
  apply elem_of_singleton in He as ->. exists i, a, w. repeat split; done.
Qed.

Lemma collectFace_joinsPole m (l : list nat) i a s s' :
  i ∈ l → 6 < valence m i → a ∈ adjacentFaces m i →
  collectFace m i s a = Some s' → joinsPole m l s → joinsPole m l s'.
Proof.
  intros Hi Hv Ha. unfold collectFace.
  destruct (vertexIndices m a) as [[[i1 i2] i3]|] eqn:Et; cbn [mbind option_bind];
    [|done].
  assert (H1 : hasCorner m i1 a = true).
  { unfold hasCorner. by rewrite Et, Nat.eqb_refl. }
  assert (H2 : hasCorner m i2 a = true).
  { unfold hasCorner. by rewrite Et, Nat.eqb_refl, orb_true_r. }
  assert (H3 : hasCorner m i3 a = true).
  { unfold hasCorner. by rewrite Et, Nat.eqb_refl, orb_true_r. }
  intros H Hs.
  destruct (negb (i =? i1)).
  - destruct (insertEdge i i1 s) as [s1|] eqn:E1; cbn [mbind option_bind] in H; [|done].
    pose proof (insertEdge_joinsPole _ _ _ _ _ _ _ Hi Hv Ha H1 E1 Hs) as Hs1.
    destruct (negb (i =? i2)).
    + destruct (insertEdge i i2 s1) as [s2|] eqn:E2; cbn [mbind option_bind] in H;
        [|done].
      pose proof (insertEdge_joinsPole _ _ _ _ _ _ _ Hi Hv Ha H2 E2 Hs1) as Hs2.
      destruct (negb (i =? i3)); [|by injection H as <-].
      eapply insertEdge_joinsPole; [exact Hi|exact Hv|exact Ha|exact H3|exact H|done].
    + cbn [mbind option_bind] in H.
      destruct (negb (i =? i3)); [|by injection H as <-].
      eapply insertEdge_joinsPole; [exact Hi|exact Hv|exact Ha|exact H3|exact H|done].
  - cbn [mbind option_bind] in H. destruct (negb (i =? i2)).
    + destruct (insertEdge i i2 s) as [s2|] eqn:E2; cbn [mbind option_bind] in H;
        [|done].
      pose proof (insertEdge_joinsPole _ _ _ _ _ _ _ Hi Hv Ha H2 E2 Hs) as Hs2.
      destruct (negb (i =? i3)); [|by injection H as <-].
      eapply insertEdge_joinsPole; [exact Hi|exact Hv|exact Ha|exact H3|exact H|done].
    + cbn [mbind option_bind] in H.
      destruct (negb (i =? i3)); [|by injection H as <-].
      eapply insertEdge_joinsPole; [exact Hi|exact Hv|exact Ha|exact H3|exact H|done].
Qed.

Lemma collectFaces_joinsPole m (l la : list nat) i s s' :
  i ∈ l → 6 < valence m i → la ⊆ adjacentFaces m i →
  collectFaces m i la s = Some s' → joinsPole m l s → joinsPole m l s'.
Proof.
  intros Hi Hv. revert s. induction la as [|a la IH]; intros s Hsub; cbn [collectFaces].
  - by intros [= <-].
  - destruct (collectFace m i s a) as [s1|] eqn:E; cbn [mbind option_bind]; [|done].
    intros H Hs. eapply IH; [|exact H|].
    + intros x Hx. apply Hsub. by right.
    + eapply collectFace_joinsPole; [exact Hi|exact Hv| |exact E|exact Hs].
      apply Hsub. left.
Qed.

Lemma collectEdges_joinsPole m (l0 l : list nat) s s' :
  l ⊆ l0 → collectEdges m l s = Some s' → joinsPole m l0 s → joinsPole m l0 s'.
Proof.
  revert s. induction l as [|i l IH]; intros s Hsub; cbn [collectEdges].
  - by intros [= <-].
  - unfold collectVertex at 1.
    assert (Hl : l ⊆ l0) by (intros x Hx; apply Hsub; by right).
    destruct (Nat.ltb_spec 6 (valence m i)) as [Hv|Hv].
    + destruct (collectFaces m i (adjacentFaces m i) s) as [s1|] eqn:E;
        cbn [mbind option_bind]; [|done].
      intros H Hs. eapply IH; [exact Hl|exact H|].
      eapply collectFaces_joinsPole; [|exact Hv|reflexivity|exact E|exact Hs].
      apply Hsub. left.
    + cbn [mbind option_bind]. by apply IH.
Qed.

Lemma collectEdges_no_poles m (l : list nat) s :
  Forall (fun v => valence m v ≤ 6) l → collectEdges m l s = Some s.
Proof.
  induction 1 as [|i l Hi _ IH]; [done|]. cbn [collectEdges]. unfold collectVertex.
  destruct (Nat.ltb_spec 6 (valence m i)); [lia|]. cbn [mbind option_bind]. exact IH.
Qed.

(** X7.  Every edge that a pass of [relaxEdges] considers joins a
    vertex of the region whose valence exceeds 6 with another corner of one of
    its adjacent faces; on a region without such a vertex the pass considers
    no edge and returns the mesh as it is. *)
Theorem relaxEdges_only_at_poles m (faces : DynamicFaces) :
  (∀ es, candidateEdges m faces = Some es →
         ∀ e, e ∈ es →
           ∃ i a w, i ∈ regionVertices m faces ∧ 6 < valence m i
                    ∧ a ∈ adjacentFaces m i ∧ hasCorner m w a = true
                    ∧ w ≠ i ∧ e = edgeKey i w)
  ∧ (Faces.hasUncomitted faces = false →
     Forall (fun v => valence m v ≤ 6) (regionVertices m faces) →
     candidateEdges m faces = Some [] ∧ relaxEdges m faces = Some m).
Proof.
  split.
  - intros es. unfold candidateEdges.
    destruct (collectEdges m (regionVertices m faces) ∅) as [s|] eqn:E;
      cbn [mbind option_bind]; [|done].
    intros [= <-] e He. apply elem_of_elements in He.
    eapply (collectEdges_joinsPole m (regionVertices m faces)); [reflexivity|exact E| |exact He].
    intros e' He'. by apply not_elem_of_empty in He'.
  - intros Hu Hv. unfold relaxEdges, candidateEdges.
    rewrite Hu, (collectEdges_no_poles _ _ _ Hv). cbn [negb assert mbind option_bind].
    by rewrite elements_empty.
Qed.
End RelaxCandidates.

Lemma relaxEdges_only_at_poles_witness :
  relaxEdges Example.octahedron (Example.allFaces Example.octahedron)
  = Some Example.octahedron.
Proof.
  refine (proj2 (proj2 (relaxEdges_only_at_poles Example.octahedron
                          (Example.allFaces Example.octahedron)) eq_refl _)).
  apply Forall_forall. intros v Hv. apply (bool_decide_unpack _).
  revert v Hv. apply Forall_forall. vm_compute. repeat constructor.
Defined.

Section FlipValences.
Context {P : Type}.
Implicit Types (m : DynamicMesh P) (f v : nat).

Lemma filter_ne_idem (l : list nat) f :
  filter (fun a => a ≠ f) (filter (fun a => a ≠ f) l) = filter (fun a => a ≠ f) l.
Proof.
  induction l as [|a l IH]; [done|]. rewrite filter_cons.
  destruct (decide (a ≠ f)) as [Ha|Ha]; [|exact IH].
  rewrite filter_cons, decide_True by done. by rewrite IH.
Qed.

Lemma length_filter_ne (l : list nat) f :
  NoDup l →
  length (filter (fun a => a ≠ f) l) = length l - (if decide (f ∈ l) then 1 else 0).
Proof.
  induction 1 as [|a l Ha Hl IH]; [done|]. rewrite filter_cons.
  destruct (decide (a = f)) as [->|Hne].
  - rewrite decide_False by (intros H; by apply H).
    rewrite decide_True by left. rewrite IH, decide_False by done. cbn. lia.
  - rewrite decide_True by done. cbn [length]. rewrite IH.
    destruct (decide (f ∈ l)) as [Hin|Hin].
    + rewrite decide_True by (by right). destruct l; [by apply elem_of_nil in Hin|].
      cbn. lia.
    + rewrite decide_False; [lia|]. intros [?|?]%elem_of_cons; congruence.
Qed.

Lemma deleteFace_adjacent f m m' v a b c :
  deleteFace f m = Some m' → vertexIndices m f = Some (a, b, c) →
  adjacentFaces m' v =
    if decide (v = a ∨ v = b ∨ v = c)
    then filter (fun x => x ≠ f) (adjacentFaces m v)
    else adjacentFaces m v.
Proof.
  unfold deleteFace. intros H Hf. rewrite Hf in H. cbn [mbind option_bind] in H.
  destruct (dropAdjacent f a m) as [m1|] eqn:E1; cbn [mbind option_bind] in H; [|done].
  destruct (dropAdjacent f b m1) as [m2|] eqn:E2; cbn [mbind option_bind] in H; [|done].
  destruct (dropAdjacent f c m2) as [m3|] eqn:E3; cbn [mbind option_bind] in H; [|done].
  injection H as <-.
  match goal with |- ?L = _ => change L with (adjacentFaces m3 v) end.
  rewrite (dropAdjacent_adjacent _ _ _ _ v E3), (dropAdjacent_adjacent _ _ _ _ v E2),
    (dropAdjacent_adjacent _ _ _ _ v E1).
  destruct (decide (v = a)), (decide (v = b)), (decide (v = c));
    rewrite ?filter_ne_idem;
    first [ rewrite decide_True by tauto; reflexivity
          | rewrite decide_False by tauto; reflexivity ].
Qed.

Lemma deleteFace_valence f m m' v a b c :
  deleteFace f m = Some m' → vertexIndices m f = Some (a, b, c) →
  NoDup (adjacentFaces m v) →
  NoDup (adjacentFaces m' v)
  ∧ valence m' v
    = valence m v
      - (if decide ((v = a ∨ v = b ∨ v = c) ∧ f ∈ adjacentFaces m v) then 1 else 0).
Proof.
  intros H Hf Hnd. unfold valence. rewrite (deleteFace_adjacent _ _ _ v _ _ _ H Hf).
  destruct (decide (v = a ∨ v = b ∨ v = c)) as [Hv|Hv].
  - split; [by apply NoDup_filter|]. rewrite length_filter_ne by done.
    destruct (decide (f ∈ adjacentFaces m v)).
    + by rewrite decide_True.
    + by rewrite decide_False by tauto.
  - split; [done|]. rewrite decide_False by tauto. lia.
Qed.

Lemma rotationOf_corners (t : Face) a b c v :
  rotationOf t a b c →
  ∃ x y z, t = (x, y, z) ∧ ((v = x ∨ v = y ∨ v = z) ↔ (v = a ∨ v = b ∨ v = c)).
Proof.
  intros [-> | [-> | ->]]; eexists _, _, _; (split; [reflexivity|]); tauto.
Qed.

(** The valences after the four mesh operations of a flip. *)
Lemma flipEdge_valences_inv m (edge : nat * nat) lf lv rf rv m' nl nr :
  findAdjacent m (fst edge) (snd edge) = Some (lf, lv, rf, rv) →
  flipEdge m edge lf lv rf rv = Some (m', nl, nr) →
  NoDup [fst edge; snd edge; lv; rv] →
  Forall (fun v => NoDup (adjacentFaces m v)) [fst edge; snd edge; lv; rv] →
  lf ∈ adjacentFaces m (snd edge) → lf ∈ adjacentFaces m lv →
  rf ∈ adjacentFaces m (snd edge) → rf ∈ adjacentFaces m rv →
  S (valence m' (fst edge)) = valence m (fst edge)
  ∧ S (valence m' (snd edge)) = valence m (snd edge)
  ∧ valence m' lv = S (valence m lv)
  ∧ valence m' rv = S (valence m rv).
Proof.
  destruct edge as [e1 e2]. cbn [fst snd].
  intros Hadj Hflip Hdist Hnd L2 LL R2 RR.
  destruct (findAdjacent_inv _ _ _ _ _ _ _ Hadj)
    as (L1 & R1 & Hne & (tl & Htl & Hrl) & (tr & Htr & Hrr)).
  apply NoDup_cons in Hdist as [D1 Hdist]. apply NoDup_cons in Hdist as [D2 Hdist].
  apply NoDup_cons in Hdist as [D3 _].
  repeat rewrite not_elem_of_cons in D1. repeat rewrite not_elem_of_cons in D2.
  repeat rewrite not_elem_of_cons in D3.
  destruct D1 as (D12 & D1L & D1R & _), D2 as (D2L & D2R & _), D3 as (DLR & _).
  rewrite !Forall_cons in Hnd. destruct Hnd as (N1 & N2 & NL & NR & _).
  unfold flipEdge in Hflip. cbn [fst snd] in Hflip.
  destruct (deleteFace lf m) as [m1|] eqn:E1; cbn [mbind option_bind] in Hflip; [|done].
  destruct (deleteFace rf m1) as [m2|] eqn:E2; cbn [mbind option_bind] in Hflip; [|done].
  destruct (addFace lv e1 rv m2) as [[m3 g3]|] eqn:E3; cbn [mbind option_bind] in Hflip;
    [|done].
  destruct (addFace rv e2 lv m3) as [[m4 g4]|] eqn:E4; cbn [mbind option_bind] in Hflip;
    [|done].
  injection Hflip as <- _ _.
  assert (Htr1 : vertexIndices m1 rf = Some tr).
  { rewrite (deleteFace_other _ _ _ rf E1); [done|]. by apply not_eq_sym. }
  destruct (rotationOf_corners tl e1 e2 lv) with (v := e1) as (x & y & z & -> & _);
    [done|].
  destruct (rotationOf_corners tr e2 e1 rv) with (v := e1) as (x' & y' & z' & -> & _);
    [done|].
  assert (CL : ∀ v, (v = x ∨ v = y ∨ v = z) ↔ (v = e1 ∨ v = e2 ∨ v = lv)).
  { intros v. destruct Hrl as [[= -> -> ->] | [[= -> -> ->] | [= -> -> ->]]]; tauto. }
  assert (CR : ∀ v, (v = x' ∨ v = y' ∨ v = z') ↔ (v = e2 ∨ v = e1 ∨ v = rv)).
  { intros v. destruct Hrr as [[= -> -> ->] | [[= -> -> ->] | [= -> -> ->]]]; tauto. }
  assert (Hstep : ∀ v, NoDup (adjacentFaces m v) →
            valence m4 v
            = valence m v
              - (if decide ((v = e1 ∨ v = e2 ∨ v = lv) ∧ lf ∈ adjacentFaces m v)
                 then 1 else 0)
              - (if decide ((v = e2 ∨ v = e1 ∨ v = rv)
                            ∧ rf ∈ adjacentFaces m1 v) then 1 else 0)
              + (if decide (v = lv) then 1 else 0)
              + (if decide (v = e1) then 1 else 0)
              + (if decide (v = rv) then 1 else 0)
              + (if decide (v = rv) then 1 else 0)
              + (if decide (v = e2) then 1 else 0)
              + (if decide (v = lv) then 1 else 0)).
  { intros v Hv.
    destruct (deleteFace_valence _ _ _ v _ _ _ E1 Htl Hv) as [Hv1 V1].
    destruct (deleteFace_valence _ _ _ v _ _ _ E2 Htr1 Hv1) as [Hv2 V2].
    rewrite (addFace_valence _ _ _ _ _ _ v E4), (addFace_valence _ _ _ _ _ _ v E3).
    rewrite V2, V1.
    destruct (decide ((v = x ∨ v = y ∨ v = z) ∧ lf ∈ adjacentFaces m v)) as [A|A];
      destruct (decide ((v = e1 ∨ v = e2 ∨ v = lv) ∧ lf ∈ adjacentFaces m v)) as [B|B];
      try (exfalso; rewrite CL in A; tauto);
      destruct (decide ((v = x' ∨ v = y' ∨ v = z') ∧ rf ∈ adjacentFaces m1 v)) as [C|C];
      destruct (decide ((v = e2 ∨ v = e1 ∨ v = rv) ∧ rf ∈ adjacentFaces m1 v)) as [D|D];
      try (exfalso; rewrite CR in C; tauto); lia. }
  assert (Hrf1 : ∀ v, rf ∈ adjacentFaces m v → rf ∈ adjacentFaces m1 v).
  { intros v Hin. rewrite (deleteFace_adjacent _ _ _ v _ _ _ E1 Htl).
    destruct (decide _); [|done]. apply list_elem_of_filter. split; [|done].
    by apply not_eq_sym. }
  assert (Hpos : ∀ v f, f ∈ adjacentFaces m v → 0 < valence m v).
  { intros v f Hin. unfold valence. destruct (adjacentFaces m v); [|cbn; lia].
    by apply elem_of_nil in Hin. }
  assert (Hpos2 : ∀ v, lf ∈ adjacentFaces m v → rf ∈ adjacentFaces m v →
                       2 ≤ valence m v).
  { intros v H1 H2. unfold valence.
    destruct (adjacentFaces m v) as [|a [|b l]]; [by apply elem_of_nil in H1| |cbn; lia].
    apply list_elem_of_singleton in H1, H2. congruence. }
  repeat split.
  - rewrite (Hstep e1 N1).
    rewrite decide_True by tauto. rewrite decide_True by (split; [tauto|by apply Hrf1]).
    rewrite (decide_False (P := e1 = lv)), (decide_True (P := e1 = e1)),
      (decide_False (P := e1 = rv)), (decide_False (P := e1 = e2)) by done.
    pose proof (Hpos2 e1 L1 R1). lia.
  - rewrite (Hstep e2 N2).
    rewrite decide_True by tauto. rewrite decide_True by (split; [tauto|by apply Hrf1]).
    rewrite (decide_False (P := e2 = lv)), (decide_False (P := e2 = e1)),
      (decide_False (P := e2 = rv)), (decide_True (P := e2 = e2)) by done.
    pose proof (Hpos2 e2 L2 R2). lia.
  - rewrite (Hstep lv NL).
    rewrite decide_True by tauto.
    rewrite (decide_False (P := (lv = e2 ∨ lv = e1 ∨ lv = rv) ∧ _))
      by (intros [[?|[?|?]] _]; congruence).
    rewrite (decide_True (P := lv = lv)), (decide_False (P := lv = e1)),
      (decide_False (P := lv = rv)), (decide_False (P := lv = e2)) by done.
    pose proof (Hpos lv lf LL). lia.
  - rewrite (Hstep rv NR).
    rewrite (decide_False (P := (rv = e1 ∨ rv = e2 ∨ rv = lv) ∧ _))
      by (intros [[?|[?|?]] _]; congruence).
    rewrite decide_True by (split; [tauto|by apply Hrf1]).
    rewrite (decide_False (P := rv = lv)), (decide_False (P := rv = e1)),
      (decide_True (P := rv = rv)), (decide_False (P := rv = e2)) by done.
    pose proof (Hpos rv rf RR). lia.
Qed.

(** X8.  On a mesh whose adjacency lists around the edge are consistent
    (no repetition, both incident faces listed at their corners, the four
    vertices distinct), a flip lowers the valence of both endpoints of the
    edge by one and raises the valence of both opposite vertices by one.  The
    value [post] that [isRelaxable] computes is therefore the deviation of the
    four valences from 6 after the flip, and a flip that [relaxEdges] performs
    strictly lowers that deviation. *)
Theorem flipEdge_lowers_deviation m (edge : nat * nat) lf lv rf rv m' nl nr :
  findAdjacent m (fst edge) (snd edge) = Some (lf, lv, rf, rv) →
  flipEdge m edge lf lv rf rv = Some (m', nl, nr) →
  NoDup [fst edge; snd edge; lv; rv] →
  Forall (fun v => NoDup (adjacentFaces m v)) [fst edge; snd edge; lv; rv] →
  lf ∈ adjacentFaces m (snd edge) → lf ∈ adjacentFaces m lv →
  rf ∈ adjacentFaces m (snd edge) → rf ∈ adjacentFaces m rv →
  (S (valence m' (fst edge)) = valence m (fst edge)
   ∧ S (valence m' (snd edge)) = valence m (snd edge)
   ∧ valence m' lv = S (valence m lv)
   ∧ valence m' rv = S (valence m rv))
  ∧ deviation m' (fst edge) (snd edge) lv rv
    = post (Z.of_nat (valence m (fst edge))) (Z.of_nat (valence m (snd edge)))
           (Z.of_nat (valence m lv)) (Z.of_nat (valence m rv))
  ∧ (isRelaxable m edge lv rv = true →
     (deviation m' (fst edge) (snd edge) lv rv
      < deviation m (fst edge) (snd edge) lv rv)%Z).
Proof.
  intros Hadj Hflip Hdist Hnd L2 LL R2 RR.
  pose proof (flipEdge_valences_inv _ _ _ _ _ _ _ _ _ Hadj Hflip Hdist Hnd L2 LL R2 RR)
    as (V1 & V2 & VL & VR).
  split; [done|].
  assert (Hdev : deviation m' (fst edge) (snd edge) lv rv
                 = post (Z.of_nat (valence m (fst edge))) (Z.of_nat (valence m (snd edge)))
                        (Z.of_nat (valence m lv)) (Z.of_nat (valence m rv))).
  { unfold deviation, pre, post. rewrite VL, VR, <- V1, <- V2.
    rewrite !Nat2Z.inj_succ. f_equal; [f_equal; [f_equal|]|]; f_equal; lia. }
  split; [exact Hdev|].
  intros Hrel. rewrite Hdev. unfold deviation.
  apply isRelaxable_spec in Hrel as (_ & _ & Hlt). exact Hlt.
Qed.
End FlipValences.

Lemma flipEdge_lowers_deviation_witness :
  ∃ m', flipEdge Example.bipyramid8 (0, 6) 5 7 4 5 = Some (m', 4, 5)
        ∧ (deviation m' 0 6 7 5 < deviation Example.bipyramid8 0 6 7 5)%Z.
Proof.
  destruct (flipEdge Example.bipyramid8 (0, 6) 5 7 4 5) as [[[m' nl] nr]|] eqn:E;
    [|vm_compute in E; discriminate].
  assert (nl = 4 ∧ nr = 5) as [-> ->] by (vm_compute in E; split; congruence).
  exists m'. split; [reflexivity|].
  refine (proj2 (proj2 (flipEdge_lowers_deviation Example.bipyramid8 (0, 6) 5 7 4 5
                          m' 4 5 eq_refl E _ _ _ _ _ _)) eq_refl).
  - apply (bool_decide_unpack _). vm_compute. exact I.
  - repeat (apply Forall_cons; split;
            [apply (bool_decide_unpack _); vm_compute; exact I|]).
    by apply Forall_nil.
  - apply (bool_decide_unpack _). vm_compute. exact I.
  - apply (bool_decide_unpack _). vm_compute. exact I.
  - apply (bool_decide_unpack _). vm_compute. exact I.
  - apply (bool_decide_unpack _). vm_compute. exact I.
Defined.

(** ** Region expansion *)

Section DomainFacts.
Context {P : Type}.
Implicit Types (m : DynamicMesh P) (faces : DynamicFaces) (l : list nat).

Lemma merge_spec (staged committed : list nat) :
  committed `prefix_of` Faces.merge committed staged
  ∧ (∀ x, x ∈ Faces.merge committed staged ↔ x ∈ committed ∨ x ∈ staged)
  ∧ (NoDup committed → NoDup (Faces.merge committed staged)).
Proof.
  unfold Faces.merge. revert committed.
  induction staged as [|a staged IH]; intros committed; cbn [foldl].
  - split; [done|]. split; [|done]. intros x. rewrite elem_of_nil. tauto.
  - case_bool_decide as Ha.
    + destruct (IH committed) as (H1 & H2 & H3). split; [done|]. split; [|done].
      intros x. rewrite H2, elem_of_cons. split; [tauto|].
      intros [?|[Hxa|?]]; [tauto| |tauto]. left. by rewrite Hxa.
    + destruct (IH (committed ++ [a])) as (H1 & H2 & H3). split.
      * etrans; [|exact H1]. by apply prefix_app_r.
      * split.
        -- intros x. rewrite H2, elem_of_app, !elem_of_cons, elem_of_nil. tauto.
        -- intros Hnd. apply H3. apply NoDup_app. split; [done|]. split.
           ++ intros x Hx ->%list_elem_of_singleton. done.
           ++ apply NoDup_singleton.
Qed.

Lemma insertMissing_spec l faces :
  indices (insertMissing l faces) = indices faces
  ∧ ∀ x, x ∈ uncommitted (insertMissing l faces)
         ↔ x ∈ uncommitted faces ∨ (x ∈ l ∧ x ∉ indices faces).
Proof.
  revert faces. induction l as [|a l IH]; intros faces.
  - split; [done|]. intros x. cbn. rewrite elem_of_nil. tauto.
  - change (insertMissing (a :: l) faces)
      with (insertMissing l (if Faces.contains a faces then faces
                             else Faces.insert a faces)).
    unfold Faces.contains. case_bool_decide as Ha.
    + destruct (IH faces) as [H1 H2]. split; [done|]. intros x.
      rewrite H2, elem_of_cons. split; [tauto|].
      intros [?|[[Hxa|?] Hn]]; [tauto| |tauto]. exfalso. apply Hn. by rewrite Hxa.
    + destruct (IH (Faces.insert a faces)) as [H1 H2]. split; [done|]. intros x.
      rewrite H2. cbn [Faces.insert uncommitted indices].
      rewrite elem_of_app, !elem_of_cons, elem_of_nil. split.
      * intros [[?|[Hxa|[]]]|[? ?]]; [tauto| |tauto].
        right. split; [tauto|]. by rewrite Hxa.
      * intros [?|[[Hxa|?] ?]]; tauto.
Qed.

Lemma extendFace_spec m faces i faces1 :
  extendFace m faces i = Some faces1 →
  indices faces1 = indices faces
  ∧ ∀ x, x ∈ uncommitted faces1
         ↔ x ∈ uncommitted faces
           ∨ ((x ∉ indices faces) ∧ ∃ v, hasCorner m v i = true ∧ x ∈ adjacentFaces m v).
Proof.
  unfold extendFace, hasCorner.
  destruct (vertexIndices m i) as [[[i1 i2] i3]|]; cbn [mbind option_bind]; [|done].
  intros [= <-].
  destruct (insertMissing_spec (adjacentFaces m i1) faces) as [A1 B1].
  destruct (insertMissing_spec (adjacentFaces m i2)
              (insertMissing (adjacentFaces m i1) faces)) as [A2 B2].
  destruct (insertMissing_spec (adjacentFaces m i3)
              (insertMissing (adjacentFaces m i2)
                 (insertMissing (adjacentFaces m i1) faces))) as [A3 B3].
  split; [congruence|]. intros x. rewrite B3, B2, B1, A2, A1. split.
  - intros [[[?|[? ?]]|[? ?]]|[? ?]]; [by left|right..]; (split; [done|]).
    + exists i1. by rewrite Nat.eqb_refl.
    + exists i2. by rewrite Nat.eqb_refl, orb_true_r.
    + exists i3. by rewrite Nat.eqb_refl, orb_true_r.
  - intros [?|[Hx (v & Hv & Ha)]]; [tauto|].
    apply orb_true_iff in Hv as [Hv|Hv%Nat.eqb_eq]; [|subst; tauto].
    apply orb_true_iff in Hv as [Hv%Nat.eqb_eq|Hv%Nat.eqb_eq]; subst; tauto.
Qed.

Lemma extendRing_spec m l faces faces1 :
  extendRing m l faces = Some faces1 →
  indices faces1 = indices faces
  ∧ ∀ x, x ∈ uncommitted faces1
         ↔ x ∈ uncommitted faces
           ∨ ((x ∉ indices faces)
              ∧ ∃ f v, f ∈ l ∧ hasCorner m v f = true ∧ x ∈ adjacentFaces m v).
Proof.
  revert faces. induction l as [|i l IH]; intros faces; cbn [extendRing].
  - intros [= <-]. split; [done|]. intros x. split; [tauto|].
    intros [?|(_ & f & v & Hf & _)]; [done|]. by apply elem_of_nil in Hf.
  - destruct (extendFace m faces i) as [fs|] eqn:E; cbn [mbind option_bind]; [|done].
    intros H. apply IH in H as [A B]. apply extendFace_spec in E as [A' B'].
    split; [congruence|]. intros x. rewrite B, B', A'. split.
    + intros [[?|(? & v & ? & ?)]|(? & f & v & ? & ? & ?)]; [by left|right..];
        (split; [done|]).
      * exists i, v. split; [left|done].
      * exists f, v. split; [by right|done].
    + intros [?|(? & f & v & [->|?]%elem_of_cons & ? & ?)]; [tauto| |].
      * left. right. eauto.
      * right. split; [done|]. eauto.
Qed.

(** One ring of [extendDomain]: the loop over the committed faces and the
    [commit]. *)
Lemma extendRings_step m faces faces1 :
  uncommitted faces = [] →
  extendRing m (indices faces) faces = Some faces1 →
  indices faces `prefix_of` indices (Faces.commit faces1)
  ∧ uncommitted (Faces.commit faces1) = []
  ∧ (NoDup (indices faces) → NoDup (indices (Faces.commit faces1)))
  ∧ ∀ x, x ∈ indices (Faces.commit faces1) ↔ x ∈ indices faces ∨ inRing m faces x.
Proof.
  intros Hu H. apply extendRing_spec in H as [A B].
  destruct (merge_spec (uncommitted faces1) (indices faces1)) as (M1 & M2 & M3).
  cbn [Faces.commit indices uncommitted]. rewrite <- A.
  split; [done|]. split; [done|]. split; [done|].
  intros x. rewrite M2, B, Hu, A. unfold inRing. rewrite elem_of_nil. split.
  - intros [?|[[]|(_ & f & v & ?)]]; [by left|right; eauto].
  - intros [?|(f & v & ?)]; [by left|].
    destruct (decide (x ∈ indices faces)); [by left|]. right. right. eauto.
Qed.

Lemma extendRings_spec m (numRings : nat) faces faces' :
  uncommitted faces = [] →
  extendRings m numRings faces = Some faces' →
  indices faces `prefix_of` indices faces'
  ∧ uncommitted faces' = []
  ∧ (NoDup (indices faces) → NoDup (indices faces'))
  ∧ (numRings = 0 → faces' = faces)
  ∧ (1 ≤ numRings → ∀ x, inRing m faces x → x ∈ indices faces')
  ∧ (numRings = 1 → ∀ x, x ∈ indices faces' → x ∈ indices faces ∨ inRing m faces x).
Proof.
  revert faces. induction numRings as [|n IH]; intros faces Hu; cbn [extendRings].
  - intros [= <-]. repeat split; try done; lia.
  - destruct (extendRing m (indices faces) faces) as [faces1|] eqn:E;
      cbn [mbind option_bind]; [|done].
    intros H. destruct (extendRings_step _ _ _ Hu E) as (S1 & S2 & S3 & S4).
    destruct (IH _ S2 H) as (I1 & I2 & I3 & I4 & I5 & I6).
    split; [by etrans|]. split; [done|]. split; [auto|]. split; [lia|]. split.
    + intros _ x Hx. eapply elem_of_prefix; [|exact I1]. apply S4. by right.
    + intros Hn x Hx. assert (n = 0) as -> by lia. rewrite (I4 eq_refl) in Hx.
      by apply S4.
Qed.

(** X9.  [extendDomain] keeps the committed faces of the region
    in place and appends new ones, leaves the staging buffer empty and never
    commits a face twice.  With at least one ring, every face that is adjacent
    to a corner of a committed face ends up in the region; with exactly one
    ring nothing else is added; with no ring the region is unchanged. *)
Theorem extendDomain_one_ring m faces (numRings : nat) faces' :
  extendDomain m faces numRings = Some faces' →
  indices faces `prefix_of` indices faces'
  ∧ uncommitted faces' = []
  ∧ (NoDup (indices faces) → NoDup (indices faces'))
  ∧ (numRings = 0 → faces' = faces)
  ∧ (1 ≤ numRings → ∀ x, inRing m faces x → x ∈ indices faces')
  ∧ (numRings = 1 → ∀ x, x ∈ indices faces' → x ∈ indices faces ∨ inRing m faces x).
Proof.
  unfold extendDomain, Faces.hasUncomitted.
  destruct (uncommitted faces) eqn:Hu; cbn [negb assert mbind option_bind]; [|done].
  by apply extendRings_spec.
Qed.

Lemma extendAtPole_fold m (l : list nat) faces :
  indices (foldl (extendAtPole m) faces l) = indices faces
  ∧ ∀ x, x ∈ uncommitted (foldl (extendAtPole m) faces l)
         ↔ x ∈ uncommitted faces
           ∨ ((x ∉ indices faces)
              ∧ ∃ i, i ∈ l ∧ 6 < valence m i ∧ x ∈ adjacentFaces m i).
Proof.
  revert faces. induction l as [|i l IH]; intros faces; cbn [foldl].
  - split; [done|]. intros x. split; [tauto|].
    intros [?|(_ & i & Hi & _)]; [done|]. by apply elem_of_nil in Hi.
  - set (f1 := extendAtPole m faces i). destruct (IH f1) as [A B].
    assert (Hf1 : (6 < valence m i ∧ f1 = insertMissing (adjacentFaces m i) faces)
                  ∨ (valence m i ≤ 6 ∧ f1 = faces)).
    { unfold f1, extendAtPole.
      destruct (Nat.ltb_spec 6 (valence m i)); [left|right]; done. }
    clearbody f1. destruct Hf1 as [[Hv ->]|[Hv ->]].
    + destruct (insertMissing_spec (adjacentFaces m i) faces) as [A' B'].
      split; [congruence|]. intros x. rewrite B, B', A'. split.
      * intros [[?|[? ?]]|(? & j & ? & ? & ?)]; [by left|right..]; (split; [done|]).
        -- exists i. split; [left|done].
        -- exists j. split; [by right|done].
      * intros [?|(? & j & [->|?]%elem_of_cons & ? & ?)]; [tauto|tauto|].
        right. split; [done|]. eauto.
    + split; [done|]. intros x. rewrite B. split.
      * intros [?|(? & j & ? & ? & ?)]; [by left|right]. split; [done|].
        exists j. split; [by right|done].
      * intros [?|(? & j & [->|?]%elem_of_cons & ? & ?)]; [tauto|lia|].
        right. split; [done|]. eauto.
Qed.

(** X10.  [extendDomainByPoles] keeps the committed
    faces, leaves the staging buffer empty, and commits besides them exactly
    the faces adjacent to a vertex of the region whose valence exceeds 6; a
    region without such a vertex is returned unchanged. *)
Theorem extendDomainByPoles_spec m faces faces' :
  extendDomainByPoles m faces = Some faces' →
  indices faces `prefix_of` indices faces'
  ∧ uncommitted faces' = []
  ∧ (NoDup (indices faces) → NoDup (indices faces'))
  ∧ (∀ x, x ∈ indices faces'
          ↔ x ∈ indices faces
            ∨ ∃ i, i ∈ regionVertices m faces ∧ 6 < valence m i
                   ∧ x ∈ adjacentFaces m i)
  ∧ (Forall (fun v => valence m v ≤ 6) (regionVertices m faces) → faces' = faces).
Proof.
  unfold extendDomainByPoles, Faces.hasUncomitted.
  destruct (uncommitted faces) eqn:Hu; cbn [negb assert mbind option_bind]; [|done].
  intros [= <-].
  destruct (extendAtPole_fold m (regionVertices m faces) faces) as [A B].
  destruct (merge_spec (uncommitted (foldl (extendAtPole m) faces (regionVertices m faces)))
              (indices (foldl (extendAtPole m) faces (regionVertices m faces))))
    as (M1 & M2 & M3).
  cbn [Faces.commit indices uncommitted]. rewrite A in M1, M2, M3.
  split; [by rewrite A|]. split; [done|]. split; [by rewrite A|]. split.
  - intros x. rewrite A, M2, B, Hu, elem_of_nil. split.
    + intros [?|[[]|(_ & i & ?)]]; [by left|right; eauto].
    + intros [?|(i & ?)]; [by left|].
      destruct (decide (x ∈ indices faces)); [by left|]. right. right. eauto.
  - intros Hv. destruct faces as [idx unc]. cbn in Hu. subst unc.
    assert (Hf : foldl (extendAtPole m) (mkFaces idx []) (regionVertices m (mkFaces idx []))
                 = mkFaces idx []).
    { generalize (regionVertices m (mkFaces idx [])) Hv. intros l Hl.
      induction Hl as [|i l Hi _ IH]; [done|]. cbn [foldl]. unfold extendAtPole at 2.
      destruct (Nat.ltb_spec 6 (valence m i)); [lia|]. exact IH. }
    rewrite Hf. reflexivity.
Qed.
End DomainFacts.

Lemma extendDomain_one_ring_witness :
  ∃ faces', extendDomain Example.octahedron (mkFaces [0] []) 1 = Some faces'
            ∧ 7 ∈ indices faces' ∧ uncommitted faces' = [].
Proof.
  destruct (extendDomain Example.octahedron (mkFaces [0] []) 1) as [faces'|] eqn:E;
    [|vm_compute in E; discriminate].
  destruct (extendDomain_one_ring _ _ _ _ E) as (_ & Hu & _ & _ & Hring & _).
  exists faces'. split; [reflexivity|]. split; [|exact Hu].
  apply Hring; [lia|]. exists 0, 1. split; [left|]. split; [reflexivity|].
  apply (bool_decide_unpack _). vm_compute. exact I.
Defined.

Lemma extendDomainByPoles_spec_witness :
  ∃ faces', extendDomainByPoles Example.bipyramid8 (mkFaces [8] []) = Some faces'
            ∧ 15 ∈ indices faces'.
Proof.
  destruct (extendDomainByPoles Example.bipyramid8 (mkFaces [8] [])) as [faces'|] eqn:E;
    [|vm_compute in E; discriminate].
  destruct (extendDomainByPoles_spec _ _ _ E) as (_ & _ & _ & Hiff & _).
  exists faces'. split; [reflexivity|]. apply Hiff. right. exists 9.
  split; [apply (bool_decide_unpack _); vm_compute; exact I|].
  split; [vm_compute; lia|]. apply (bool_decide_unpack _). vm_compute. exact I.
Defined.

(** *** Collapse *)

Section Valence3.
Context {P : Type}.
Implicit Types (m : DynamicMesh P).

(** X11.  [deleteValence3Vertex] takes its third neighbour from the
    second adjacent face as the first stored corner that differs from the two
    neighbours found in the first adjacent face.  When the vertex [i] itself
    is stored before the third neighbour there (as first corner, or as second
    corner after one of the two neighbours), that corner is [i], whose valence
    is 3: the function returns [false] and leaves mesh and region as they
    are, whatever the valences of the three neighbours. *)
Theorem deleteValence3Vertex_storage_order m i (faces : DynamicFaces) adj1 adj2 adj3
    (t1 : Face) a b x c d :
  isFreeVertex m i = false →
  adjacentFaces m i = [adj1; adj2; adj3] →
  vertexIndices m adj1 = Some t1 → rotationOf t1 i a b →
  a ≠ i → b ≠ i → a ≠ b →
  vertexIndices m adj2 = Some (i, c, d)
  ∨ (vertexIndices m adj2 = Some (x, i, d) ∧ (x = a ∨ x = b)) →
  deleteValence3Vertex m i faces = Some (m, faces, false).
Proof.
  intros Hlive Hadj Ht1 Hrot Ha Hb Hab H2. unfold deleteValence3Vertex.
  assert (Hv : valence m i = 3) by (unfold valence; by rewrite Hadj).
  rewrite Hlive, Hv, Hadj. cbn [negb assert Nat.eqb mbind option_bind lookup list_lookup].
  rewrite Ht1.
  assert (Hpair : (let '(adj11, adj12, adj13) := t1 in
                   if i =? adj11 then Some (adj12, adj13)
                   else if i =? adj12 then Some (adj13, adj11)
                   else if i =? adj13 then Some (adj11, adj12) else None)
                  = Some (a, b)).
  { destruct Hrot as [-> | [-> | ->]].
    - by rewrite Nat.eqb_refl.
    - destruct (Nat.eqb_spec i b); [congruence|]. by rewrite Nat.eqb_refl.
    - destruct (Nat.eqb_spec i a); [congruence|].
      destruct (Nat.eqb_spec i b); [congruence|]. by rewrite Nat.eqb_refl. }
  destruct t1 as [[adj11 adj12] adj13]. cbn [mbind option_bind].
  assert (Hia : (i =? a) = false) by (apply Nat.eqb_neq; congruence).
  assert (Hib : (i =? b) = false) by (apply Nat.eqb_neq; congruence).
  assert (Hab' : (a =? b) = false) by (by apply Nat.eqb_neq).
  assert (Hai : (a =? i) = false) by (by apply Nat.eqb_neq).
  assert (Hbi : (b =? i) = false) by (by apply Nat.eqb_neq).
  destruct H2 as [H2 | [H2 Hx]]; rewrite H2; cbn [mbind option_bind]; rewrite Hpair;
    cbn [mbind option_bind].
  - rewrite Hia, Hib. cbn [negb andb mbind option_bind]. rewrite Hab', Hai, Hbi.
    cbn [negb assert mbind option_bind]. rewrite Hv. cbn. by rewrite !andb_false_r.
  - assert (Hx' : negb (x =? a) && negb (x =? b) = false).
    { destruct Hx as [-> | ->]; rewrite Nat.eqb_refl; cbn; by rewrite ?andb_false_r. }
    rewrite Hx', Hia, Hib. cbn [negb andb mbind option_bind]. rewrite Hab', Hai, Hbi.
    cbn [negb assert mbind option_bind]. rewrite Hv. cbn. by rewrite !andb_false_r.
Qed.

Lemma addFace_live i1 i2 i3 m m' g v :
  addFace i1 i2 i3 m = Some (m', g) → isFreeVertex m' v = isFreeVertex m v.
Proof.
  unfold addFace.
  destruct (freeFaceIndices m) as [|g0 rest]; cbn [mbind option_bind].
  all: destruct (pushAdjacent _ i1 _) as [m1|] eqn:E1; cbn [mbind option_bind]; [|done].
  all: destruct (pushAdjacent _ i2 m1) as [m2|] eqn:E2; cbn [mbind option_bind]; [|done].
  all: destruct (pushAdjacent _ i3 m2) as [m3|] eqn:E3; cbn [mbind option_bind]; [|done].
  all: intros [= <- <-].
  all: rewrite (pushAdjacent_live _ _ _ _ v E3), (pushAdjacent_live _ _ _ _ v E2),
         (pushAdjacent_live _ _ _ _ v E1); reflexivity.
Qed.

Lemma deleteVertex_inv u m m' :
  deleteVertex u m = Some m' →
  isFreeVertex m u = false ∧ isFreeVertex m' u = true
  ∧ faceTable m' = faceTable m ∧ freeFaceIndices m' = freeFaceIndices m
  ∧ ∀ v, v ≠ u → vertexEntry m' v = vertexEntry m v.
Proof.
  unfold deleteVertex, isFreeVertex.
  destruct (vertexEntry m u) as [e|] eqn:E; cbn [mbind option_bind]; [|done].
  intros [= <-]. apply vertexEntry_lt in E as Hlt.
  unfold vertexEntry. cbn [vertexTable faceTable freeFaceIndices].
  rewrite list_lookup_insert_eq by done. cbn.
  repeat split; try done. intros v Hv. by rewrite list_lookup_insert_ne.
Qed.

Lemma deleteValence3Vertex_inv m i (faces : DynamicFaces) m' faces' :
  deleteValence3Vertex m i faces = Some (m', faces', true) →
  ∃ adj1 adj2 adj3 t1 t2 a b c,
    adjacentFaces m i = [adj1; adj2; adj3]
    ∧ vertexIndices m adj1 = Some t1 ∧ rotationOf t1 i a b
    ∧ vertexIndices m adj2 = Some t2 ∧ hasCorner m c adj2 = true
    ∧ a ≠ b ∧ a ≠ c ∧ b ≠ c ∧ a ≠ i ∧ b ≠ i ∧ c ≠ i
    ∧ 3 < valence m a ∧ 3 < valence m b ∧ 3 < valence m c
    ∧ isFreeVertex m' i = true
    ∧ isFreeFace m' adj1 = true ∧ isFreeFace m' adj2 = true
    ∧ vertexIndices m' adj3 = Some (a, b, c)
    ∧ faces' = Faces.insert adj3 faces
    ∧ ∀ g, g ≠ adj1 → g ≠ adj2 → g ≠ adj3 → vertexIndices m' g = vertexIndices m g.
Proof.
  unfold deleteValence3Vertex.
  destruct (isFreeVertex m i) eqn:Hlive; cbn [negb assert mbind option_bind]; [done|].
  destruct (Nat.eqb_spec (valence m i) 3) as [Hv|]; cbn [assert mbind option_bind]; [|done].
  destruct (adjacentFaces m i) as [|adj1 [|adj2 [|adj3 [|? ?]]]] eqn:Hadj;
    try (unfold valence in Hv; rewrite Hadj in Hv; cbn in Hv; lia).
  cbn [lookup list_lookup mbind option_bind].
  destruct (vertexIndices m adj1) as [[[adj11 adj12] adj13]|] eqn:Ht1;
    cbn [mbind option_bind]; [|done].
  destruct (vertexIndices m adj2) as [[[adj21 adj22] adj23]|] eqn:Ht2;
    cbn [mbind option_bind]; [|done].
  match goal with |- (?o ≫= _) = _ → _ => destruct o as [[a b]|] eqn:Hpair end;
    cbn [mbind option_bind]; [|done].
  match goal with |- (?o ≫= _) = _ → _ => destruct o as [c|] eqn:Hthird end;
    cbn [mbind option_bind]; [|done].
  destruct (Nat.eqb_spec a b) as [|Hab]; cbn [negb assert mbind option_bind]; [done|].
  destruct (Nat.eqb_spec a c) as [|Hac]; cbn [negb assert mbind option_bind]; [done|].
  destruct (Nat.eqb_spec b c) as [|Hbc]; cbn [negb assert mbind option_bind]; [done|].
  destruct (Nat.ltb_spec 3 (valence m a)) as [Va|]; cbn [andb]; [|done].
  destruct (Nat.ltb_spec 3 (valence m b)) as [Vb|]; cbn [andb]; [|done].
  destruct (Nat.ltb_spec 3 (valence m c)) as [Vc|]; cbn [andb]; [|done].
  destruct (deleteFace adj1 m) as [m1|] eqn:E1; cbn [mbind option_bind]; [|done].
  destruct (deleteFace adj2 m1) as [m2|] eqn:E2; cbn [mbind option_bind]; [|done].
  destruct (deleteFace adj3 m2) as [m3|] eqn:E3; cbn [mbind option_bind]; [|done].
  destruct (deleteVertex i m3) as [m4|] eqn:E4; cbn [mbind option_bind]; [|done].
  destruct (addFace a b c m4) as [[m5 f]|] eqn:E5; cbn [mbind option_bind]; [|done].
  intros [= <- <-].
  destruct (deleteFace_inv _ _ _ E1) as (L1 & F1 & R1 & _).
  destruct (deleteFace_inv _ _ _ E2) as (L2 & F2 & R2 & _).
  destruct (deleteFace_inv _ _ _ E3) as (L3 & F3 & R3 & _).
  destruct (deleteVertex_inv _ _ _ E4) as (_ & D4 & F4 & R4 & _).
  destruct (addFace_inv _ _ _ _ _ _ E5) as (H5 & _).
  rewrite R4, R3 in H5. destruct H5 as (-> & F5 & _).
  assert (N12 : adj2 ≠ adj1).
  { intros ->. destruct L2 as [t L2]. apply vertexIndices_lt in Ht1.
    unfold vertexIndices in L2. rewrite F1, list_lookup_insert_eq in L2; done. }
  assert (N23 : adj3 ≠ adj2).
  { intros ->. destruct L3 as [t L3]. apply vertexIndices_lt in Ht2.
    unfold vertexIndices in L3. rewrite F2, list_lookup_insert_eq in L3; [done|].
    rewrite F1, length_insert. done. }
  assert (N13 : adj3 ≠ adj1).
  { intros ->. destruct L3 as [t L3]. apply vertexIndices_lt in Ht1.
    unfold vertexIndices in L3.
    rewrite F2, list_lookup_insert_ne, F1, list_lookup_insert_eq in L3; done. }
  assert (Hlt3 : adj3 < length (faceTable m)).
  { destruct L3 as [t L3]. apply vertexIndices_lt in L3.
    by rewrite F2, F1, !length_insert in L3. }
  assert (Hft : faceTable m5
                = <[adj3 := Some (a, b, c)]>
                    (<[adj3 := None]> (<[adj2 := None]> (<[adj1 := None]> (faceTable m))))).
  { by rewrite F5, F4, F3, F2, F1. }
  exists adj1, adj2, adj3, (adj11, adj12, adj13), (adj21, adj22, adj23), a, b, c.
  assert (Hai : a ≠ i) by (intros ->; lia).
  assert (Hbi : b ≠ i) by (intros ->; lia).
  assert (Hci : c ≠ i) by (intros ->; lia).
  split; [done|]. split; [done|]. split.
  { unfold rotationOf. revert Hpair.
    destruct (Nat.eqb_spec i adj11) as [<-|]; [intros [= <- <-]; by left|].
    destruct (Nat.eqb_spec i adj12) as [<-|]; [intros [= <- <-]; right; by left|].
    destruct (Nat.eqb_spec i adj13) as [<-|]; [intros [= <- <-]; right; by right|done]. }
  split; [done|]. split.
  { unfold hasCorner. rewrite Ht2. revert Hthird.
    destruct (negb (adj21 =? a) && negb (adj21 =? b));
      [intros [= <-]; by rewrite Nat.eqb_refl|].
    destruct (negb (adj22 =? a) && negb (adj22 =? b));
      [intros [= <-]; by rewrite Nat.eqb_refl, orb_true_r|].
    destruct (negb (adj23 =? a) && negb (adj23 =? b));
      [intros [= <-]; by rewrite Nat.eqb_refl, !orb_true_r|done]. }
  do 9 (split; [done|]).
  split; [by rewrite (addFace_live _ _ _ _ _ _ i E5)|].
  split.
  { rewrite isFreeFace_lookup, Hft.
    rewrite list_lookup_insert_ne, list_lookup_insert_ne, list_lookup_insert_ne,
      list_lookup_insert_eq; [done|by apply vertexIndices_lt in Ht1|done..]. }
  split.
  { rewrite isFreeFace_lookup, Hft.
    rewrite list_lookup_insert_ne, list_lookup_insert_ne, list_lookup_insert_eq;
      [done| |done..].
    rewrite length_insert. by apply vertexIndices_lt in Ht2. }
  split.
  { unfold vertexIndices. rewrite Hft, list_lookup_insert_eq; [done|].
    by rewrite !length_insert. }
  split; [done|].
  intros g G1 G2 G3. unfold vertexIndices. rewrite Hft.
  by rewrite !list_lookup_insert_ne.
Qed.

(** X12.  When [deleteValence3Vertex] returns [true]: the vertex
    had the adjacent faces adj1, adj2, adj3; the first one is (i, a, b) up to
    its first corner, [c] is a corner of the second one; a, b, c are pairwise
    distinct, differ from [i] and had valence above 3; afterwards [i] is
    free, adj1 and adj2 are free, the index adj3 holds the new face
    (a, b, c), which is staged in the region, and no other face changed. *)
Theorem deleteValence3Vertex_success m i (faces : DynamicFaces) m' faces' :
  deleteValence3Vertex m i faces = Some (m', faces', true) →
  ∃ adj1 adj2 adj3 t1 t2 a b c,
    adjacentFaces m i = [adj1; adj2; adj3]
    ∧ vertexIndices m adj1 = Some t1 ∧ rotationOf t1 i a b
    ∧ vertexIndices m adj2 = Some t2 ∧ hasCorner m c adj2 = true
    ∧ a ≠ b ∧ a ≠ c ∧ b ≠ c ∧ a ≠ i ∧ b ≠ i ∧ c ≠ i
    ∧ 3 < valence m a ∧ 3 < valence m b ∧ 3 < valence m c
    ∧ isFreeVertex m' i = true
    ∧ isFreeFace m' adj1 = true ∧ isFreeFace m' adj2 = true
    ∧ vertexIndices m' adj3 = Some (a, b, c)
    ∧ faces' = Faces.insert adj3 faces
    ∧ ∀ g, g ≠ adj1 → g ≠ adj2 → g ≠ adj3 → vertexIndices m' g = vertexIndices m g.
Proof. apply deleteValence3Vertex_inv. Qed.
End Valence3.

Lemma deleteValence3Vertex_storage_order_witness :
  deleteValence3Vertex cappedFirst 6 (mkFaces [0] [])
  = Some (cappedFirst, mkFaces [0] [], false).
Proof.
  apply (deleteValence3Vertex_storage_order cappedFirst 6 _ 0 1 2 (6, 0, 1) 0 1 0 1 2);
    try reflexivity; try lia.
  - by left.
  - by left.
Defined.

Lemma deleteValence3Vertex_success_witness :
  ∃ m', deleteValence3Vertex Example.capped 6 (mkFaces [0] [])
        = Some (m', mkFaces [0] [2], true)
        ∧ isFreeVertex m' 6 = true ∧ vertexIndices m' 2 = Some (0, 1, 2).
Proof.
  destruct (deleteValence3Vertex Example.capped 6 (mkFaces [0] []))
    as [[[m' faces'] [|]]|] eqn:E; try (vm_compute in E; discriminate).
  destruct (deleteValence3Vertex_success _ _ _ _ _ E)
    as (adj1 & adj2 & adj3 & t1 & t2 & a & b & c & Hadj & _ & _ & _ & _ & _ & _ & _
        & _ & _ & _ & _ & _ & _ & Hfree & _ & _ & _ & _ & _).
  exists m'. split; [|split; [exact Hfree|]].
  - vm_compute in E. injection E as <- <-. reflexivity.
  - vm_compute in E. injection E as <- _. reflexivity.
Defined.

Section CollapseOutcome.
Context {P : Type}.
Variable between : P → P → P.
Variable zero : P.
Implicit Types (m : DynamicMesh P) (doCollapse : @CollapsePredicate P).

Lemma setVertex_inv v (p : P) m m' :
  setVertex v p m = Some m' →
  vertex m' v = Some p
  ∧ faceTable m' = faceTable m
  ∧ (∀ u, u ≠ v → vertexEntry m' u = vertexEntry m u)
  ∧ ∀ u, adjacentFaces m' u = adjacentFaces m u.
Proof.
  unfold setVertex. destruct (vertexEntry m v) as [e|] eqn:E; cbn [mbind option_bind];
    [|done].
  intros [= <-]. apply vertexEntry_lt in E as Hlt. split.
  { unfold vertex. rewrite vertexEntry_setEntry by done. by rewrite decide_True. }
  split; [done|]. split.
  { intros u Hu. rewrite vertexEntry_setEntry by done. by rewrite decide_False. }
  intros u. unfold adjacentFaces. rewrite vertexEntry_setEntry by done.
  destruct (decide (u = v)) as [->|]; [by rewrite E|done].
Qed.

Lemma isValidEdge_distinct m i1 i2 b : isValidEdge m i1 i2 = Some b → i1 ≠ i2.
Proof.
  unfold isValidEdge. destruct (Nat.eqb_spec i1 i2); [done|]. done.
Qed.

Lemma collapseEdge_valence3_inv m i1 i2 (faces : DynamicFaces) m' :
  valence m i1 = 3 ∨ valence m i2 = 3 →
  collapseEdge between zero m i1 i2 faces = Some (m', true) →
  ∃ p1 p2 adj1 adj2 adj3 a b c,
    vertex m i1 = Some p1 ∧ vertex m i2 = Some p2
    ∧ adjacentFaces m (removedEndpoint m i1 i2) = [adj1; adj2; adj3]
    ∧ isFreeVertex m' (removedEndpoint m i1 i2) = true
    ∧ vertex m' (keptEndpoint m i1 i2) = Some (between p1 p2)
    ∧ isFreeFace m' adj1 = true ∧ isFreeFace m' adj2 = true
    ∧ vertexIndices m' adj3 = Some (a, b, c)
    ∧ (removedEndpoint m i1 i2 ∉ [a; b; c])
    ∧ ∀ g, g ≠ adj1 → g ≠ adj2 → g ≠ adj3 → vertexIndices m' g = vertexIndices m g.
Proof.
  intros H3. unfold collapseEdge, removedEndpoint, keptEndpoint.
  destruct (assert (3 <=? valence m i1)); binds; [|done].
  destruct (assert (3 <=? valence m i2)); binds; [|done].
  destruct (isValidEdge m i1 i2) as [valid|] eqn:Hvalid; binds; [|done].
  apply isValidEdge_distinct in Hvalid.
  destruct (assert valid); binds; [|done].
  destruct (vertex m i1) as [p1|]; binds; [|done].
  destruct (vertex m i2) as [p2|]; binds; [|done].
  assert (Hgen : ∀ gone kept m1 fs,
            gone ≠ kept →
            deleteValence3Vertex m gone faces = Some (m1, fs, true) →
            (m2 ← setVertex kept (between p1 p2) m1; Some (m2, true)) = Some (m', true) →
            ∃ p1' p2' adj1 adj2 adj3 a b c,
              Some p1 = Some p1' ∧ Some p2 = Some p2'
              ∧ adjacentFaces m gone = [adj1; adj2; adj3]
              ∧ isFreeVertex m' gone = true
              ∧ vertex m' kept = Some (between p1' p2')
              ∧ isFreeFace m' adj1 = true ∧ isFreeFace m' adj2 = true
              ∧ vertexIndices m' adj3 = Some (a, b, c)
              ∧ (gone ∉ [a; b; c])
              ∧ ∀ g, g ≠ adj1 → g ≠ adj2 → g ≠ adj3 →
                     vertexIndices m' g = vertexIndices m g).
  { intros gone kept m1 fs Hne E HS.
    destruct (setVertex kept (between p1 p2) m1) as [m2|] eqn:E2; binds; [|done].
    injection HS as <-.
    destruct (deleteValence3Vertex_inv _ _ _ _ _ E)
      as (adj1 & adj2 & adj3 & t1 & t2 & a & b & c & Hadj & _ & _ & _ & _ & _ & _ & _
          & Ha & Hb & Hc & _ & _ & _ & Hfree & F1 & F2 & F3 & _ & Hother).
    destruct (setVertex_inv _ _ _ _ E2) as (S1 & S2 & S3 & _).
    exists p1, p2, adj1, adj2, adj3, a, b, c.
    split; [done|]. split; [done|]. split; [done|]. split.
    { unfold isFreeVertex in *. by rewrite S3. }
    split; [done|].
    unfold isFreeFace, vertexIndices in *. rewrite !S2.
    split; [done|]. split; [done|]. split; [done|]. split; [|done].
    rewrite !not_elem_of_cons. repeat split; try done. apply not_elem_of_nil. }
  destruct (Nat.eqb_spec (valence m i1) 3) as [V1|V1].
  { destruct (deleteValence3Vertex m i1 faces) as [[[m1 fs] [|]]|] eqn:E; binds;
      [|done|done].
    intros HS. eapply Hgen; [done|exact E|]. 
    destruct (setVertex i2 _ m1); binds; [|done]. by injection HS as ->. }
  destruct (Nat.eqb_spec (valence m i2) 3) as [V2|V2]; [|lia].
  destruct (deleteValence3Vertex m i2 faces) as [[[m1 fs] [|]]|] eqn:E; binds;
    [|done|done].
  intros HS. eapply Hgen; [done|exact E|].
  destruct (setVertex i1 _ m1); binds; [|done]. by injection HS as ->.
Qed.

Lemma collapseEdges_scan_inv fuel doCollapse m (faces : DynamicFaces) m' faces' (c : bool) :
  collapseEdges between zero (S fuel) doCollapse m faces = Some (m', faces', c) →
  collapseEdges between zero 1 doCollapse m faces = Some (m', faces', c)
  ∧ collapseScan between zero doCollapse
      (Faces.commit (Faces.insertAll (indices faces) Faces.empty))
      (indices (Faces.commit (Faces.insertAll (indices faces) Faces.empty)))
      (m, false) = Some (m', c)
  ∧ (c = false → m' = m).
Proof.
  intros H. split; [by rewrite <- (collapseEdges_fuel between zero fuel)|]. split.
  - unfold collapseEdges in H. rewrite collapseEdges_loop_once in H.
    destruct (collapseScan _ _ _ _ _ _) as [[m1 c1]|]; binds; [|done].
    cbn in H. by injection H as <- _ <-.
  - intros ->. by eapply collapseEdges_false.
Qed.

(** X13.  A call of [collapseEdge] that returns [false] has
    not changed the mesh: every rejection is decided before the first write. *)
Theorem collapseEdge_rejected_unchanged m i1 i2 (faces : DynamicFaces) m' :
  collapseEdge between zero m i1 i2 faces = Some (m', false) → m' = m.
Proof. apply collapseEdge_false. Qed.

(** X14.  A call of [collapseEdge] that returns [true] on an
    edge with an endpoint of valence 3: the removed endpoint ([i1] if its
    valence is 3, else [i2]) is free afterwards, the other endpoint sits at
    the midpoint of the two old positions, two of the three faces around the
    removed endpoint are free, the third index holds a face that does not
    reference the removed endpoint, and no other face changed. *)
Theorem collapseEdge_valence3 m i1 i2 (faces : DynamicFaces) m' :
  valence m i1 = 3 ∨ valence m i2 = 3 →
  collapseEdge between zero m i1 i2 faces = Some (m', true) →
  ∃ p1 p2 adj1 adj2 adj3 a b c,
    vertex m i1 = Some p1 ∧ vertex m i2 = Some p2
    ∧ adjacentFaces m (removedEndpoint m i1 i2) = [adj1; adj2; adj3]
    ∧ isFreeVertex m' (removedEndpoint m i1 i2) = true
    ∧ vertex m' (keptEndpoint m i1 i2) = Some (between p1 p2)
    ∧ isFreeFace m' adj1 = true ∧ isFreeFace m' adj2 = true
    ∧ vertexIndices m' adj3 = Some (a, b, c)
    ∧ (removedEndpoint m i1 i2 ∉ [a; b; c])
    ∧ ∀ g, g ≠ adj1 → g ≠ adj2 → g ≠ adj3 → vertexIndices m' g = vertexIndices m g.
Proof. apply collapseEdge_valence3_inv. Qed.

(** X15.  [collapseEdges] hands [current] to [collapseEdge] by
    value, so nothing is ever staged in [current] and the body of its
    [do ... while] loop runs exactly once: whatever the bound on the
    iterations, the result is that of one iteration, the mesh and the flag are
    those of one scan over the committed faces of the region, and a result
    [false] means that the mesh is unchanged. *)
Theorem collapseEdges_single_scan fuel doCollapse m (faces : DynamicFaces) m' faces'
    (c : bool) :
  collapseEdges between zero (S fuel) doCollapse m faces = Some (m', faces', c) →
  collapseEdges between zero 1 doCollapse m faces = Some (m', faces', c)
  ∧ collapseScan between zero doCollapse
      (Faces.commit (Faces.insertAll (indices faces) Faces.empty))
      (indices (Faces.commit (Faces.insertAll (indices faces) Faces.empty)))
      (m, false) = Some (m', c)
  ∧ (c = false → m' = m).
Proof. apply collapseEdges_scan_inv. Qed.
End CollapseOutcome.

Section DeleteFacesFacts.
Context {P F : Type}.
Variable between : P → P → P.
Variable zero : P.
Variable distance2 : P → P → F.
Variable ltF : F → F → bool.
Variable minEdgeLengthSqr : F.
Variable computeNormal : DynamicMesh P → nat → P.
Implicit Types (m : DynamicMesh P).

(** X16.  [deleteFaces] reports [false] only if neither of its
    two collapse passes collapsed an edge; the mesh then differs from the
    input in vertex normals at most.  One iteration of each driver loop is
    all that a call performs. *)
Theorem deleteFaces_false_only_normals fuel m (faces : DynamicFaces) m' faces' :
  deleteFaces between zero distance2 ltF minEdgeLengthSqr computeNormal (S fuel) m faces
  = Some (m', faces', false) →
  forget zero m' = forget zero m
  ∧ deleteFaces between zero distance2 ltF minEdgeLengthSqr computeNormal 1 m faces
    = Some (m', faces', false)
  ∧ ∃ faces1,
      collapseAllEdges between zero 1 m faces = Some (m, faces1, false)
      ∧ collapseEdgesByLength between zero distance2 ltF 1 m minEdgeLengthSqr faces1
        = Some (m, faces', false).
Proof.
  unfold deleteFaces, collapseAllEdges, collapseEdgesByLength.
  rewrite (collapseEdges_fuel between zero fuel).
  destruct (collapseEdges between zero 1 _ m faces) as [[[m1 faces1] c1]|] eqn:E1;
    binds; [|done].
  rewrite (collapseEdges_fuel between zero fuel).
  destruct (collapseEdges between zero 1 _ m1 faces1) as [[[m2 faces2] c2]|] eqn:E2;
    binds; [|done].
  intros [= <- <- Hc]. apply orb_false_elim in Hc as [-> ->].
  apply collapseEdges_false in E1 as E1'. subst m1.
  apply collapseEdges_false in E2 as E2'. subst m2.
  split; [apply finalize_forget|]. split; [done|]. by exists faces1.
Qed.
End DeleteFacesFacts.

Lemma collapseEdge_rejected_unchanged_witness :
  ∃ m', collapseEdge Example.between Example.zero Example.capped 1 0 (mkFaces [5] [])
        = Some (m', false) ∧ m' = Example.capped.
Proof.
  destruct (collapseEdge Example.between Example.zero Example.capped 1 0 (mkFaces [5] []))
    as [[m' [|]]|] eqn:E; try (vm_compute in E; discriminate).
  exists m'. split; [reflexivity|].
  exact (collapseEdge_rejected_unchanged _ _ _ _ _ _ _ E).
Defined.

Lemma collapseEdge_valence3_witness :
  ∃ m', collapseEdge Example.between Example.zero Example.capped 6 0 (mkFaces [0] [])
        = Some (m', true) ∧ isFreeVertex m' 6 = true.
Proof.
  destruct (collapseEdge Example.between Example.zero Example.capped 6 0 (mkFaces [0] []))
    as [[m' [|]]|] eqn:E; try (vm_compute in E; discriminate).
  exists m'. split; [reflexivity|].
  assert (H3 : valence Example.capped 6 = 3 ∨ valence Example.capped 0 = 3)
    by (left; reflexivity).
  destruct (collapseEdge_valence3 Example.between Example.zero _ _ _ _ _ H3 E)
    as (p1 & p2 & adj1 & adj2 & adj3 & a & b & c & _ & _ & _ & Hfree & _).
  exact Hfree.
Defined.

Lemma collapseEdges_single_scan_witness :
  ∃ m' faces',
    collapseEdges Example.between Example.zero 7 Example.always Example.capped
                  (mkFaces [5] []) = Some (m', faces', false)
    ∧ m' = Example.capped.
Proof.
  destruct (collapseEdges Example.between Example.zero 7 Example.always Example.capped
              (mkFaces [5] [])) as [[[m' faces'] [|]]|] eqn:E;
    try (vm_compute in E; discriminate).
  exists m', faces'. split; [reflexivity|].
  destruct (collapseEdges_single_scan _ _ _ _ _ _ _ _ _ E) as (_ & _ & H).
  by apply H.
Defined.

Lemma deleteFaces_false_only_normals_witness :
  ∃ m' faces',
    deleteFaces Example.between Example.zero Example.distance2 Example.ltQ
      Example.minEdgeLengthSqr (fun _ _ => Example.zero) 3 Example.capped (mkFaces [5] [])
    = Some (m', faces', false)
    ∧ forget Example.zero m' = forget Example.zero Example.capped.
Proof.
  destruct (deleteFaces Example.between Example.zero Example.distance2 Example.ltQ
              Example.minEdgeLengthSqr (fun _ _ => Example.zero) 3 Example.capped
              (mkFaces [5] [])) as [[[m' faces'] [|]]|] eqn:E;
    try (vm_compute in E; discriminate).
  exists m', faces'. split; [reflexivity|].
  by destruct (deleteFaces_false_only_normals _ _ _ _ _ _ _ _ _ _ _ E) as (H & _).
Defined.

(** *** The pass of [splitEdges] *)

Section SplitPass.
Context {P F : Type}.
Variable exceeds : F → P → P → bool.
Variable getSplitPosition : P → P → P → P → P.
Variable splitNormal : P → P → P.
Implicit Types (m : DynamicMesh P) (newV : NewVertices).

Local Abbreviation split' := (split exceeds getSplitPosition splitNormal).
Local Abbreviation splitUnlessPresent' :=
  (splitUnlessPresent exceeds getSplitPosition splitNormal).
Local Abbreviation splitFace' := (splitFace exceeds getSplitPosition splitNormal).
Local Abbreviation frame := (splitFrame exceeds).

Lemma isFreeVertex_true m v : isFreeVertex m v = true ↔ vertexEntry m v = None.
Proof. unfold isFreeVertex. by destruct (vertexEntry m v). Qed.

Lemma isFreeVertex_false m v : isFreeVertex m v = false ↔ is_Some (vertexEntry m v).
Proof.
  unfold isFreeVertex. destruct (vertexEntry m v); split; intros H; try done;
    try (by eexists); by destruct H.
Qed.

Lemma addVertex_frame (p n : P) m m1 i :
  freeSlots m → addVertex p n m = (m1, i) →
  faceTable m1 = faceTable m ∧ freeFaceIndices m1 = freeFaceIndices m
  ∧ isFreeVertex m i = true
  ∧ vertexEntry m1 i = Some (mkVertexEntry p n [])
  ∧ (∀ v, v ≠ i → vertexEntry m1 v = vertexEntry m v)
  ∧ freeSlots m1.
Proof.
  intros [Hnd Hfree]. unfold addVertex.
  destruct (freeVertexIndices m) as [|v0 rest] eqn:Efree; intros [= <- <-].
  - split; [done|]. split; [done|]. split.
    { apply isFreeVertex_true. unfold vertexEntry. by rewrite lookup_ge_None_2. }
    split.
    { unfold vertexEntry. cbn [vertexTable].
      by rewrite lookup_app_r, Nat.sub_diag. }
    split.
    { intros v Hv. unfold vertexEntry. cbn [vertexTable].
      destruct (decide (v < length (vertexTable m))).
      - by rewrite lookup_app_l.
      - rewrite !lookup_ge_None_2; [done|lia|rewrite length_app; cbn; lia]. }
    split; cbn [freeVertexIndices]; [apply NoDup_nil_2|apply Forall_nil_2].
  - apply NoDup_cons in Hnd as [Hnotin Hnd].
    apply Forall_cons in Hfree as [[Hlt Hv0] Hfree].
    split; [done|]. split; [done|]. split; [done|]. split.
    { unfold vertexEntry. cbn [vertexTable]. by rewrite list_lookup_insert_eq. }
    split.
    { intros v Hv. unfold vertexEntry. cbn [vertexTable].
      by rewrite list_lookup_insert_ne. }
    split; cbn [freeVertexIndices]; [done|].
    rewrite Forall_forall in Hfree. apply Forall_forall. intros v Hv.
    destruct (Hfree v Hv) as [Hl Hf]. split.
    { cbn [vertexTable]. by rewrite length_insert. }
    rewrite isFreeVertex_true in *. unfold vertexEntry in *. cbn [vertexTable].
    rewrite list_lookup_insert_ne; [done|]. intros <-. done.
Qed.

Lemma midpoint_weaken (a b : NewVertices) (k : nat * nat) (i j : nat) :
  a ⊆ b → a !! k = Some i → b !! k = Some j → i = j.
Proof.
  intros Hs Ha Hb. eapply lookup_weaken in Ha; [|exact Hs].
  pose proof (eq_trans (eq_sym Ha) Hb) as H. by injection H.
Qed.

Lemma midpoint_insert (newV : NewVertices) (k k' : nat * nat) (i : nat) :
  (<[k := i]> newV : NewVertices) !! k'
  = if decide (k' = k) then Some i else newV !! k'.
Proof.
  destruct (decide (k' = k)) as [->|]; [apply lookup_insert_eq|by apply lookup_insert_ne].
Qed.

Lemma frame_refl maxLength (l : list nat) m newV : frame maxLength l m newV m newV.
Proof.
  split; [done|]. split; [done|]. split; [done|]. split; [done|]. split.
  - intros k i H1 H2. congruence.
  - intros k k' i H1 _ H2. congruence.
Qed.

Lemma overlong_mono maxLength m m' a b :
  (∀ v e, vertexEntry m v = Some e → vertexEntry m' v = Some e) →
  overlong exceeds maxLength m a b = true → overlong exceeds maxLength m' a b = true.
Proof.
  intros Hkeep. unfold overlong.
  destruct (vertexEntry m a) as [va|] eqn:Ea; [|done].
  destruct (vertexEntry m b) as [vb|] eqn:Eb; [|done].
  by rewrite (Hkeep _ _ Ea), (Hkeep _ _ Eb).
Qed.

Lemma frame_trans maxLength (l : list nat) m newV m1 newV1 m2 newV2 :
  frame maxLength l m newV m1 newV1 → frame maxLength l m1 newV1 m2 newV2 →
  frame maxLength l m newV m2 newV2.
Proof.
  intros (A1 & A2 & A3 & A4 & A5 & A6) (B1 & B2 & B3 & B4 & B5 & B6).
  assert (Hlive : ∀ i, isFreeVertex m1 i = true → isFreeVertex m i = true).
  { intros i. rewrite !isFreeVertex_true. intros H1.
    destruct (vertexEntry m i) as [e|] eqn:E; [|done].
    apply A3 in E. congruence. }
  assert (Hlive2 : ∀ i, isFreeVertex m1 i = false → isFreeVertex m2 i = false).
  { intros i. rewrite !isFreeVertex_false. intros [e E]. exists e. by apply B3. }
  split; [congruence|]. split; [congruence|]. split; [by auto|].
  split; [by etrans|]. split.
  - intros k i H2 H0. destruct (newV1 !! k) as [i1|] eqn:E1.
    + assert (i1 = i) as ->.
      { by eapply midpoint_weaken. }
      destruct (A5 k i E1 H0) as (F0 & F1 & f & t & a & b & Hf & Ht & Hab & Hk & Ho).
      split; [done|]. split; [by apply Hlive2|].
      exists f, t, a, b. repeat split; try done. by eapply overlong_mono.
    + destruct (B5 k i H2 E1) as (F0 & F1 & f & t & a & b & Hf & Ht & Hab & Hk & Ho).
      split; [by apply Hlive|]. split; [done|].
      exists f, t, a, b. repeat split; try done.
      unfold vertexIndices in *. by rewrite <- A1.
  - intros k k' i H2 H2' H0 H0'.
    destruct (newV1 !! k) as [i1|] eqn:E1; destruct (newV1 !! k') as [i1'|] eqn:E1'.
    + assert (i1 = i) as ->.
      { by eapply midpoint_weaken. }
      assert (i1' = i) as ->.
      { by eapply midpoint_weaken. }
      by eapply A6.
    + assert (i1 = i) as ->.
      { by eapply midpoint_weaken. }
      destruct (A5 k i E1 H0) as (_ & F1 & _).
      destruct (B5 k' i H2' E1') as (F0 & _). congruence.
    + assert (i1' = i) as ->.
      { by eapply midpoint_weaken. }
      destruct (A5 k' i E1' H0') as (_ & F1 & _).
      destruct (B5 k i H2 E1) as (F0 & _). congruence.
    + by eapply B6.
Qed.

Lemma frame_weaken maxLength (l l' : list nat) m newV m1 newV1 :
  (∀ f, f ∈ l → f ∈ l') →
  frame maxLength l m newV m1 newV1 → frame maxLength l' m newV m1 newV1.
Proof.
  intros Hsub (A1 & A2 & A3 & A4 & A5 & A6).
  split; [done|]. split; [done|]. split; [done|]. split; [done|]. split; [|done].
  intros k i H H0. destruct (A5 k i H H0) as (F0 & F1 & f & t & a & b & Hf & ?).
  split; [done|]. split; [done|]. exists f, t, a, b. split; [auto|done].
Qed.

(** One guarded call on the edge (a, b) of the face [f]. *)
Lemma splitUnlessPresent_frame maxLength f t a b m newV w m1 newV1 w1 :
  freeSlots m → vertexIndices m f = Some t → (a, b) ∈ edgesOf t →
  splitUnlessPresent' maxLength a b (m, newV, w) = Some (m1, newV1, w1) →
  freeSlots m1
  ∧ frame maxLength [f] m newV m1 newV1
  ∧ (overlong exceeds maxLength m a b = true → is_Some (newV1 !! edgeKey a b)).
Proof.
  intros Hfs Ht Hab. unfold splitUnlessPresent.
  destruct (decide (a = b)) as [->|Hne].
  { unfold hasVertex, findVertex. by rewrite makeUiKey_None. }
  rewrite hasVertex_Some by done. cbn [mbind option_bind].
  case_bool_decide as Hin; cbn [negb].
  { intros [= <- <- <-]. split; [done|]. split; [apply frame_refl|]. done. }
  unfold split, overlong.
  destruct (vertexEntry m a) as [va|] eqn:Ea; cbn [mbind option_bind]; [|done].
  destruct (vertexEntry m b) as [vb|] eqn:Eb; cbn [mbind option_bind]; [|done].
  destruct (exceeds maxLength (position va) (position vb)) eqn:Ex.
  - destruct (addVertex _ _ m) as [m2 i3] eqn:Eadd.
    unfold insertInEdge. rewrite hasVertex_Some by done. cbn [mbind option_bind].
    rewrite bool_decide_eq_false_2 by done. cbn [negb assert mbind option_bind].
    rewrite makeUiKey_Some by done. cbn [mbind option_bind].
    intros [= <- <- <-].
    destruct (addVertex_frame _ _ _ _ _ Hfs Eadd) as (V1 & V2 & V3 & V4 & V5 & V6).
    assert (Hnone : newV !! edgeKey a b = None).
    { destruct (newV !! edgeKey a b) eqn:E; [|done]. exfalso. apply Hin. eauto. }
    assert (Hkeep : ∀ v e, vertexEntry m v = Some e → vertexEntry m2 v = Some e).
    { intros v e E. rewrite V5; [done|]. intros ->.
      apply isFreeVertex_true in V3. congruence. }
    split; [done|]. split.
    + split; [done|]. split; [done|]. split; [done|].
      split; [by apply insert_subseteq|]. split.
      * intros k i Hk Hk0.
        pose proof (eq_trans (eq_sym (midpoint_insert newV (edgeKey a b) k i3)) Hk) as L.
        destruct (decide (k = edgeKey a b)) as [->|Hkne].
        -- injection L as <-.
           split; [done|]. split; [apply isFreeVertex_false; by rewrite V4|].
           exists f, t, a, b. split; [by left|]. repeat split; try done.
           unfold overlong. by rewrite (Hkeep _ _ Ea), (Hkeep _ _ Eb).
        -- pose proof (eq_trans (eq_sym L) Hk0) as X. discriminate X.
      * intros k k' i Hk Hk' Hk0 Hk0'.
        pose proof (eq_trans (eq_sym (midpoint_insert newV (edgeKey a b) k i3)) Hk) as L.
        pose proof (eq_trans (eq_sym (midpoint_insert newV (edgeKey a b) k' i3)) Hk') as L'.
        destruct (decide (k = edgeKey a b)) as [->|Hkne];
          destruct (decide (k' = edgeKey a b)) as [->|Hkne']; try done.
        -- pose proof (eq_trans (eq_sym L') Hk0') as X. discriminate X.
        -- pose proof (eq_trans (eq_sym L) Hk0) as X. discriminate X.
        -- pose proof (eq_trans (eq_sym L) Hk0) as X. discriminate X.
    + intros _. exists i3. apply lookup_insert_eq.
  - intros [= <- <- <-]. split; [done|]. split; [apply frame_refl|]. done.
Qed.

Lemma splitFace_frame maxLength f m newV m' newV' (keep : bool) :
  freeSlots m →
  splitFace' maxLength f (m, newV) = Some (m', newV', keep) →
  ∃ t, vertexIndices m f = Some t
       ∧ freeSlots m'
       ∧ frame maxLength [f] m newV m' newV'
       ∧ ∀ a b, (a, b) ∈ edgesOf t → overlong exceeds maxLength m a b = true →
                is_Some (newV' !! edgeKey a b).
Proof.
  intros Hfs. unfold splitFace.
  destruct (vertexIndices m f) as [[[i1 i2] i3]|] eqn:Ht; cbn [mbind option_bind]; [|done].
  destruct (splitUnlessPresent' maxLength i1 i2 (m, newV, false))
    as [[[m1 nv1] w1]|] eqn:E1; cbn [mbind option_bind]; [|done].
  destruct (splitUnlessPresent' maxLength i1 i3 (m1, nv1, w1))
    as [[[m2 nv2] w2]|] eqn:E2; cbn [mbind option_bind]; [|done].
  intros E3.
  assert (H12 : (i1, i2) ∈ edgesOf (i1, i2, i3)) by (cbn [edgesOf]; rewrite !elem_of_cons; auto).
  assert (H13 : (i1, i3) ∈ edgesOf (i1, i2, i3)) by (cbn [edgesOf]; rewrite !elem_of_cons; auto).
  assert (H23 : (i2, i3) ∈ edgesOf (i1, i2, i3)) by (cbn [edgesOf]; rewrite !elem_of_cons; auto).
  destruct (splitUnlessPresent_frame _ _ _ _ _ _ _ _ _ _ _ Hfs Ht H12 E1)
    as (Hfs1 & Fr1 & C1).
  assert (Ht1 : vertexIndices m1 f = Some (i1, i2, i3)).
  { destruct Fr1 as (A1 & _). unfold vertexIndices in *. by rewrite A1. }
  destruct (splitUnlessPresent_frame _ _ _ _ _ _ _ _ _ _ _ Hfs1 Ht1 H13 E2)
    as (Hfs2 & Fr2 & C2).
  assert (Ht2 : vertexIndices m2 f = Some (i1, i2, i3)).
  { destruct Fr2 as (A1 & _). unfold vertexIndices in *. by rewrite A1. }
  destruct (splitUnlessPresent_frame _ _ _ _ _ _ _ _ _ _ _ Hfs2 Ht2 H23 E3)
    as (Hfs3 & Fr3 & C3).
  pose proof (frame_trans _ _ _ _ _ _ _ _ Fr1 Fr2) as Fr12.
  pose proof (frame_trans _ _ _ _ _ _ _ _ Fr12 Fr3) as Fr123.
  exists (i1, i2, i3). split; [done|]. split; [done|]. split; [done|].
  intros a b Hab Ho. cbn [edgesOf] in Hab.
  destruct Fr1 as (_ & _ & K1 & _). destruct Fr2 as (_ & _ & K2 & S2 & _).
  destruct Fr3 as (_ & _ & _ & S3 & _). destruct Fr12 as (_ & _ & K12 & _).
  rewrite !elem_of_cons, elem_of_nil in Hab.
  destruct Hab as [[= -> ->] | [[= -> ->] | [[= -> ->] | []]]].
  - destruct (C1 Ho) as [x Hx]. exists x.
    eapply lookup_weaken; [|exact S3]. eapply lookup_weaken; [|exact S2]. exact Hx.
  - destruct (C2 (overlong_mono _ _ _ _ _ K1 Ho)) as [x Hx]. exists x.
    eapply lookup_weaken; [|exact S3]. exact Hx.
  - exact (C3 (overlong_mono _ _ _ _ _ K12 Ho)).
Qed.

Lemma splitEdges_filter_frame maxLength (l : list nat) m newV m' newV' (kept : list nat) :
  freeSlots m →
  Faces.filterM (splitFace' maxLength) l (m, newV) = Some (m', newV', kept) →
  freeSlots m'
  ∧ frame maxLength l m newV m' newV'
  ∧ sublist kept l
  ∧ ∀ f t a b, f ∈ l → vertexIndices m f = Some t → (a, b) ∈ edgesOf t →
               overlong exceeds maxLength m a b = true →
               is_Some (newV' !! edgeKey a b).
Proof.
  revert m newV kept. induction l as [|f l IH]; intros m newV kept Hfs;
    cbn [Faces.filterM].
  - intros [= <- <- <-]. split; [done|]. split; [apply frame_refl|].
    split; [done|]. intros f t a b Hf. by apply elem_of_nil in Hf.
  - destruct (splitFace' maxLength f (m, newV)) as [[[m1 nv1] keep]|] eqn:E1;
      cbn [mbind option_bind]; [|done].
    destruct (Faces.filterM (splitFace' maxLength) l (m1, nv1)) as [[[m2 nv2] kept2]|]
      eqn:E2; cbn [mbind option_bind]; [|done].
    intros [= <- <- <-].
    destruct (splitFace_frame _ _ _ _ _ _ _ Hfs E1) as (t0 & Ht0 & Hfs1 & Fr1 & C1).
    destruct (IH _ _ _ Hfs1 E2) as (Hfs2 & Fr2 & Sub & C2).
    split; [done|]. split.
    { eapply frame_trans.
      - eapply frame_weaken; [|exact Fr1]. intros g Hg.
        apply list_elem_of_singleton in Hg as ->. by left.
      - eapply frame_weaken; [|exact Fr2]. intros g Hg. by right. }
    split.
    { destruct keep; [by apply sublist_skip|by apply sublist_cons]. }
    intros g t a b Hg Ht Hab Ho.
    destruct Fr1 as (A1 & _ & K1 & _). destruct Fr2 as (_ & _ & _ & S2 & _).
    apply elem_of_cons in Hg as [->|Hg].
    + assert (t = t0) as -> by congruence.
      destruct (C1 a b Hab Ho) as [x Hx]. exists x.
      eapply lookup_weaken; [|exact S2]. exact Hx.
    + eapply C2; [exact Hg| |exact Hab|by eapply overlong_mono].
      unfold vertexIndices in *. by rewrite A1.
Qed.

Lemma splitEdges_inv m newV maxLength (faces : DynamicFaces) m1 newV1 faces1 :
  freeSlots m →
  splitEdges exceeds getSplitPosition splitNormal m newV maxLength faces
  = Some (m1, newV1, faces1) →
  uncommitted faces = [] ∧ uncommitted faces1 = []
  ∧ freeSlots m1
  ∧ frame maxLength (indices faces) m newV m1 newV1
  ∧ sublist (indices faces1) (indices faces)
  ∧ ∀ f t a b, f ∈ indices faces → vertexIndices m f = Some t → (a, b) ∈ edgesOf t →
               overlong exceeds maxLength m a b = true →
               is_Some (newV1 !! edgeKey a b).
Proof.
  intros Hfs. unfold splitEdges, Faces.hasUncomitted.
  destruct (uncommitted faces) eqn:Hu; cbn [negb assert mbind option_bind]; [|done].
  destruct (Faces.filterM _ _ _) as [[[m2 nv2] kept]|] eqn:E; cbn [mbind option_bind];
    [|done].
  intros [= <- <- <-]. cbn [indices uncommitted].
  destruct (splitEdges_filter_frame _ _ _ _ _ _ _ Hfs E) as (H1 & H2 & H3 & H4).
  done.
Qed.

(** X17.  On a mesh whose vertex free-list is consistent, a pass
    of [splitEdges] adds and removes no face, changes no live vertex, keeps
    every midpoint that was registered, keeps the free-list consistent, and
    returns a sub-sequence of the committed faces with an empty staging
    buffer. *)
Theorem splitEdges_frame m newV maxLength (faces : DynamicFaces) m1 newV1 faces1 :
  freeSlots m →
  splitEdges exceeds getSplitPosition splitNormal m newV maxLength faces
  = Some (m1, newV1, faces1) →
  faceTable m1 = faceTable m
  ∧ freeFaceIndices m1 = freeFaceIndices m
  ∧ (∀ v e, vertexEntry m v = Some e → vertexEntry m1 v = Some e)
  ∧ newV ⊆ newV1
  ∧ freeSlots m1
  ∧ sublist (indices faces1) (indices faces)
  ∧ uncommitted faces1 = [].
Proof.
  intros Hfs H. destruct (splitEdges_inv _ _ _ _ _ _ _ Hfs H)
    as (_ & U & Hfs1 & (A1 & A2 & A3 & A4 & _) & Sub & _).
  done.
Qed.

(** X18.  After a pass of [splitEdges], every edge of a
    committed face of the region whose endpoints were farther apart than
    [maxLength] has a midpoint registered in the map. *)
Theorem splitEdges_complete m newV maxLength (faces : DynamicFaces) m1 newV1 faces1
    f (t : Face) a b :
  freeSlots m →
  splitEdges exceeds getSplitPosition splitNormal m newV maxLength faces
  = Some (m1, newV1, faces1) →
  f ∈ indices faces → vertexIndices m f = Some t → (a, b) ∈ edgesOf t →
  overlong exceeds maxLength m a b = true →
  is_Some (newV1 !! edgeKey a b).
Proof.
  intros Hfs H. destruct (splitEdges_inv _ _ _ _ _ _ _ Hfs H) as (_ & _ & _ & _ & _ & C).
  apply C.
Qed.

(** X19.  Every midpoint that a pass of [splitEdges] registers is
    a vertex that was free before the pass and is live after it, it is
    registered under the key of an edge of a committed face of the region
    whose endpoints are farther apart than [maxLength], and two different keys
    never receive the same new vertex. *)
Theorem splitEdges_new_midpoints m newV maxLength (faces : DynamicFaces) m1 newV1 faces1 :
  freeSlots m →
  splitEdges exceeds getSplitPosition splitNormal m newV maxLength faces
  = Some (m1, newV1, faces1) →
  (∀ k i, newV1 !! k = Some i → newV !! k = None →
     isFreeVertex m i = true ∧ isFreeVertex m1 i = false
     ∧ ∃ f t a b, f ∈ indices faces ∧ vertexIndices m f = Some t ∧ (a, b) ∈ edgesOf t
                  ∧ k = edgeKey a b ∧ overlong exceeds maxLength m1 a b = true)
  ∧ (∀ k k' i, newV1 !! k = Some i → newV1 !! k' = Some i →
       newV !! k = None → newV !! k' = None → k = k').
Proof.
  intros Hfs H. destruct (splitEdges_inv _ _ _ _ _ _ _ Hfs H)
    as (_ & _ & _ & (_ & _ & _ & _ & A5 & A6) & _).
  done.
Qed.
End SplitPass.

Lemma freeSlots_octahedron : freeSlots Example.octahedron.
Proof. split; [apply NoDup_nil_2|apply Forall_nil_2]. Qed.

Lemma splitEdges_frame_witness :
  ∃ m1 newV1 faces1,
    splitEdges Example.exceeds Example.midpointSplit Example.firstNormal
               Example.octahedron ∅ (1 # 2)%Q (mkFaces [0] []) = Some (m1, newV1, faces1)
    ∧ faceTable m1 = faceTable Example.octahedron.
Proof.
  destruct (splitEdges Example.exceeds Example.midpointSplit Example.firstNormal
              Example.octahedron ∅ (1 # 2)%Q (mkFaces [0] []))
    as [[[m1 newV1] faces1]|] eqn:E; [|vm_compute in E; discriminate].
  exists m1, newV1, faces1. split; [reflexivity|].
  by destruct (splitEdges_frame _ _ _ _ _ _ _ _ _ _ freeSlots_octahedron E) as (H & _).
Defined.

Lemma splitEdges_complete_witness :
  ∃ m1 newV1 faces1,
    splitEdges Example.exceeds Example.midpointSplit Example.firstNormal
               Example.octahedron ∅ (1 # 2)%Q (mkFaces [0] []) = Some (m1, newV1, faces1)
    ∧ is_Some (newV1 !! edgeKey 1 2).
Proof.
  destruct (splitEdges Example.exceeds Example.midpointSplit Example.firstNormal
              Example.octahedron ∅ (1 # 2)%Q (mkFaces [0] []))
    as [[[m1 newV1] faces1]|] eqn:E; [|vm_compute in E; discriminate].
  exists m1, newV1, faces1. split; [reflexivity|].
  apply (splitEdges_complete _ _ _ _ _ _ _ _ _ _ 0 (0, 1, 2) 1 2 freeSlots_octahedron E).
  - by left.
  - reflexivity.
  - cbn [edgesOf]. rewrite !elem_of_cons. auto.
  - reflexivity.
Defined.

Lemma splitEdges_new_midpoints_witness :
  ∃ m1 newV1 faces1,
    splitEdges Example.exceeds Example.midpointSplit Example.firstNormal
               Example.octahedron ∅ (1 # 2)%Q (mkFaces [0] []) = Some (m1, newV1, faces1)
    ∧ ∀ k i, newV1 !! k = Some i → isFreeVertex Example.octahedron i = true.
Proof.
  destruct (splitEdges Example.exceeds Example.midpointSplit Example.firstNormal
              Example.octahedron ∅ (1 # 2)%Q (mkFaces [0] []))
    as [[[m1 newV1] faces1]|] eqn:E; [|vm_compute in E; discriminate].
  exists m1, newV1, faces1. split; [reflexivity|].
  destruct (splitEdges_new_midpoints _ _ _ _ _ _ _ _ _ _ freeSlots_octahedron E)
    as (H & _).
  intros k i Hk. by destruct (H k i Hk (lookup_empty k)) as (Hfree & _).
Defined.

(** ** The edge iterator of a face *)

Module WingedEdgeIteratorFacts.
Import WingedEdgeIterator.
Section Iterator.
Context {WFace WEdge : Type} `{EqDecision WEdge}.
Variable faceEdge : WFace → WEdge.
Variable successor : WEdge → WFace → WEdge.

Local Abbreviation advance' := (advance faceEdge successor).
Local Abbreviation nthEdge' := (nthEdge faceEdge successor).

Lemma advance_S f n : advance' f (S n) = next successor (advance' f n).
Proof. reflexivity. Qed.

Lemma nthEdge_add f j k :
  nthEdge' f (j + k) = Nat.iter j (fun e => successor e f) (nthEdge' f k).
Proof. unfold nthEdge. by rewrite Nat.iter_add. Qed.

Lemma advance_state f n :
  _face (advance' f n) = f
  ∧ _start (advance' f n) = faceEdge f
  ∧ _edge (advance' f n) = nthEdge' f n
  ∧ (_hasEdge (advance' f n) = true ↔ ∀ k, 1 ≤ k ≤ n → nthEdge' f k ≠ faceEdge f).
Proof.
  induction n as [|n (IH1 & IH2 & IH3 & IH4)].
  - repeat split; try done. intros k Hk. lia.
  - rewrite advance_S. unfold next. cbn [_face _start _edge _hasEdge].
    rewrite IH1, IH2, IH3.
    change (successor (nthEdge' f n) f) with (nthEdge' f (S n)).
    split; [done|]. split; [done|]. split; [done|].
    destruct (decide (nthEdge' f (S n) = faceEdge f)) as [Heq|Hne].
    + split; [done|]. intros Hall. exfalso. apply (Hall (S n)); [lia|done].
    + rewrite IH4. split.
      * intros Hall k Hk. destruct (decide (k = S n)) as [->|]; [done|].
        apply Hall. lia.
      * intros Hall k Hk. apply Hall. lia.
Qed.

Lemma nthEdge_distinct f p j k :
  nthEdge' f p = faceEdge f →
  (∀ i, 0 < i < p → nthEdge' f i ≠ faceEdge f) →
  j < k < p → nthEdge' f j ≠ nthEdge' f k.
Proof.
  intros Hp Hmin Hjk Heq.
  apply (Hmin (p - k + j)); [lia|].
  rewrite nthEdge_add, Heq, <- nthEdge_add.
  replace (p - k + k) with p by lia. done.
Qed.

Lemma advance_cycle_inv f p :
  0 < p →
  nthEdge' f p = faceEdge f →
  (∀ i, 0 < i < p → nthEdge' f i ≠ faceEdge f) →
  (∀ n, n < p → edge (advance' f n) = Some (nthEdge' f n))
  ∧ (∀ n, p ≤ n → edge (advance' f n) = None)
  ∧ NoDup (nthEdge' f <$> seq 0 p).
Proof.
  intros Hpos Hp Hmin. split; [|split].
  - intros n Hn. destruct (advance_state f n) as (_ & _ & E & H).
    unfold edge. rewrite (proj2 H); [by rewrite E|].
    intros k Hk. apply Hmin. lia.
  - intros n Hn. destruct (advance_state f n) as (_ & _ & E & H).
    unfold edge. destruct (_hasEdge (advance' f n)); [|done].
    exfalso. apply (proj1 H eq_refl p); [lia|done].
  - apply NoDup_alt. intros i j x Hi Hj.
    rewrite list_lookup_fmap in Hi, Hj.
    destruct (seq 0 p !! i) as [i'|] eqn:Ei; [|done].
    destruct (seq 0 p !! j) as [j'|] eqn:Ej; [|done].
    apply lookup_seq in Ei as [-> Hi']. apply lookup_seq in Ej as [-> Hj'].
    cbn [fmap option_fmap option_map Nat.add] in Hi, Hj.
    injection Hi as Hi. injection Hj as Hj.
    destruct (Nat.lt_trichotomy i j) as [Hlt|[->|Hlt]]; [|done|].
    + exfalso. apply (nthEdge_distinct f p i j Hp Hmin); [lia|by rewrite Hi, Hj].
    + exfalso. apply (nthEdge_distinct f p j i Hp Hmin); [lia|by rewrite Hi, Hj].
Qed.

(** X20.  After [n] calls of [next ()] the iterator still refers to
    its face and its first edge, its current edge is the [n]-th successor of
    the first edge, and [_hasEdge] is true exactly if none of the first [n]
    successors is the first edge again: once the walk has come back to the
    first edge, [_hasEdge] stays false. *)
Theorem advance_tracks_successors f n :
  _face (advance faceEdge successor f n) = f
  ∧ _start (advance faceEdge successor f n) = faceEdge f
  ∧ _edge (advance faceEdge successor f n) = nthEdge faceEdge successor f n
  ∧ (_hasEdge (advance faceEdge successor f n) = true
     ↔ ∀ k, 1 ≤ k ≤ n → nthEdge faceEdge successor f k ≠ faceEdge f).
Proof. apply advance_state. Qed.

(** X21.  When the successors of the first edge come back to it
    after [p] steps and not before, the iterator yields the [p] edges of the
    cycle, one per call of [next ()], these edges are pairwise distinct, and
    [edge ()] fails its assertion from the [p]-th call of [next ()] on. *)
Theorem advance_enumerates_cycle f p :
  0 < p →
  nthEdge faceEdge successor f p = faceEdge f →
  (∀ i, 0 < i < p → nthEdge faceEdge successor f i ≠ faceEdge f) →
  (∀ n, n < p → edge (advance faceEdge successor f n)
                = Some (nthEdge faceEdge successor f n))
  ∧ (∀ n, p ≤ n → edge (advance faceEdge successor f n) = None)
  ∧ NoDup (nthEdge faceEdge successor f <$> seq 0 p).
Proof. apply advance_cycle_inv. Qed.
End Iterator.

Lemma advance_enumerates_cycle_witness :
  edge (advance (fun _ : unit => 0) (fun e _ => (e + 1) mod 3) tt 2) = Some 2
  ∧ edge (advance (fun _ : unit => 0) (fun e _ => (e + 1) mod 3) tt 3) = None.
Proof.
  assert (Hmin : ∀ i, 0 < i < 3 →
            nthEdge (fun _ : unit => 0) (fun e _ => (e + 1) mod 3) tt i ≠ 0).
  { intros [|[|[|i]]] Hi; try lia; vm_compute; discriminate. }
  destruct (advance_enumerates_cycle (fun _ : unit => 0) (fun e _ => (e + 1) mod 3)
              tt 3 ltac:(lia) eq_refl Hmin) as (H1 & H2 & _).
  split; [exact (H1 2 ltac:(lia))|exact (H2 3 ltac:(lia))].
Defined.
End WingedEdgeIteratorFacts.

(** ** The vertex cache of the carve action *)

Module CarveFacts.
Section Cache.
Context {P F : Type}.
Variable add : P → P → P.
Variable scale : P → F → P.
Variable distance : P → P → F.
Variable ltF : F → F → bool.
Variable zeroF : F.
Variable brushY : F → F.
Implicit Types (cache : gmap nat (@Carve.VertexData P F)) (vd : @Carve.VertexData P F).

Local Abbreviation carveVertex' := (Carve.carveVertex add scale distance ltF brushY).
Local Abbreviation computeNewPositions' :=
  (Carve.computeNewPositions add scale distance ltF brushY).

Lemma cache_insert cache (k k' : nat) vd :
  <[k := vd]> cache !! k'
  = if decide (k' = k) then Some vd else cache !! k'.
Proof.
  destruct (decide (k' = k)) as [->|]; [apply lookup_insert_eq|by apply lookup_insert_ne].
Qed.

Lemma emplace_inv (k : nat) data cache cache' vd :
  Carve.emplace k data cache = (cache', vd) →
  cache' !! k = Some vd
  ∧ (∀ j old, cache !! j = Some old → cache' !! j = Some old)
  ∧ (∀ j, j ≠ k → cache' !! j = cache !! j)
  ∧ (cache !! k = None → vd = data).
Proof.
  unfold Carve.emplace. destruct (cache !! k) as [old|] eqn:E; intros [= <- <-].
  - done.
  - split; [apply lookup_insert_eq|]. split.
    + intros j o Hj. rewrite cache_insert. destruct (decide (j = k)) as [->|]; [|done].
      pose proof (eq_trans (eq_sym Hj) E) as X. discriminate X.
    + split; [|done]. intros j Hj. by apply lookup_insert_ne.
Qed.

Lemma cacheVertex_inv (index : nat) (p n : P) cache cache' vd :
  Carve.cacheVertex zeroF index p n cache = (cache', vd) →
  Carve.cachedVertex index cache' = Some vd
  ∧ (∀ j old, cache !! j = Some old → cache' !! j = Some old)
  ∧ (∀ j, j ≠ index → cache' !! j = cache !! j)
  ∧ (cache !! index = None → vd = Carve.newVertexData zeroF p n).
Proof.
  unfold Carve.cacheVertex, Carve.cachedVertex.
  destruct (cache !! index) as [it|] eqn:E.
  - destruct (negb (Carve.wasCarved it)).
    + intros H. apply emplace_inv in H as (H1 & H2 & H3 & _).
      split; [done|]. split; [done|]. split; [done|]. intros X. discriminate X.
    + intros [= <- <-]. split; [done|]. split; [done|]. split; [done|].
      intros X. discriminate X.
  - intros H. apply emplace_inv in H as (H1 & H2 & H3 & H4).
    split; [done|]. split; [done|]. split; [done|]. intros _. by apply H4.
Qed.

Lemma maxF_idem (x y : F) : Carve.maxF ltF (Carve.maxF ltF x y) y = Carve.maxF ltF x y.
Proof.
  unfold Carve.maxF. destruct (ltF x y) eqn:E; [|by rewrite E].
  by destruct (ltF y y).
Qed.

Lemma carveVertex_inv (poa : P) vd :
  Carve.position (carveVertex' poa vd).1 = Carve.position vd
  ∧ Carve.normal (carveVertex' poa vd).1 = Carve.normal vd
  ∧ Carve.wasCarved (carveVertex' poa vd).1 = true
  ∧ (Carve.getDelta (carveVertex' poa vd).1 = Carve.getDelta vd
     ∨ Carve.getDelta (carveVertex' poa vd).1 = Carve.brushDelta distance brushY poa vd)
  ∧ (carveVertex' poa vd).2
    = add (Carve.position vd)
          (scale (Carve.normal vd) (Carve.getDelta (carveVertex' poa vd).1))
  ∧ carveVertex' poa (carveVertex' poa vd).1 = carveVertex' poa vd.
Proof.
  unfold Carve.carveVertex, Carve.setDelta, Carve.getDelta, Carve.wasCarved,
    Carve.brushDelta.
  cbn [fst snd Carve.position Carve.normal Carve.carved Carve.delta].
  split; [done|]. split; [done|]. split; [done|]. split.
  { unfold Carve.maxF. destruct (ltF _ _); [by right|by left]. }
  split; [done|]. by rewrite maxF_idem.
Qed.

Lemma computeNewPositions_inv (poa : P) (vertices : list nat) cache :
  (is_Some (computeNewPositions' poa vertices cache)
   ↔ Forall (fun v => is_Some (cache !! v)) vertices)
  ∧ ∀ cache' newPositions,
      computeNewPositions' poa vertices cache = Some (cache', newPositions) →
      length newPositions = length vertices
      ∧ (∀ v, v ∈ vertices →
           ∃ vd, cache' !! v = Some vd ∧ Carve.wasCarved vd = true)
      ∧ (∀ v, v ∉ vertices → cache' !! v = cache !! v)
      ∧ (∀ v, is_Some (cache' !! v) ↔ is_Some (cache !! v)).
Proof.
  revert cache. induction vertices as [|v rest IH]; intros cache;
    cbn [Carve.computeNewPositions].
  - split; [split; [intros _; apply Forall_nil_2|by eauto]|].
    intros cache' ps [= <- <-]. split; [done|]. split; [|done].
    intros v Hv. by apply elem_of_nil in Hv.
  - unfold Carve.cachedVertex.
    destruct (cache !! v) as [vd|] eqn:E; cbn [mbind option_bind].
    2:{ split.
        - split; [by intros [? ?]|]. intros H. apply Forall_cons in H as [[? H] _].
          pose proof (eq_trans (eq_sym E) H) as X. discriminate X.
        - done. }
    destruct (carveVertex' poa vd) as [vd1 p] eqn:Ec.
    destruct (IH (<[v := vd1]> cache)) as [IHa IHb].
    assert (Hdom : ∀ u, is_Some (<[v := vd1]> cache !! u)
                        ↔ is_Some (cache !! u)).
    { intros u. rewrite cache_insert. destruct (decide (u = v)) as [->|]; [|done].
      split; intros _; [by rewrite E|done]. }
    split.
    + destruct (computeNewPositions' poa rest (<[v := vd1]> cache)) as [[c1 ps]|] eqn:Er;
        cbn [mbind option_bind].
      * split; [|by eauto]. intros _. apply Forall_cons. split; [by rewrite E|].
        eapply Forall_impl; [apply IHa; eauto|]. intros u Hu. by apply Hdom.
      * split; [by intros [? ?]|]. intros H. apply Forall_cons in H as [_ H].
        exfalso. assert (Hs : is_Some (@None (gmap nat (@Carve.VertexData P F) * list P))).
        { apply IHa. eapply Forall_impl; [exact H|]. intros u Hu. by apply Hdom. }
        by destruct Hs.
    + intros cache' newPositions.
      destruct (computeNewPositions' poa rest (<[v := vd1]> cache)) as [[c1 ps]|] eqn:Er;
        cbn [mbind option_bind]; [|done].
      intros [= <- <-]. destruct (IHb _ _ eq_refl) as (L & Cv & Oth & Dom).
      split; [cbn; by rewrite L|]. split; [|split].
      * intros u Hu. destruct (decide (u ∈ rest)) as [Hin|Hnin]; [by apply Cv|].
        apply elem_of_cons in Hu as [->|]; [|done].
        exists vd1. split.
        -- rewrite (Oth v Hnin). apply lookup_insert_eq.
        -- pose proof (carveVertex_inv poa vd) as (_ & _ & Hc & _).
           by rewrite Ec in Hc.
      * intros u Hu. apply not_elem_of_cons in Hu as [Hne Hu].
        rewrite (Oth u Hu). by apply lookup_insert_ne.
      * intros u. rewrite Dom. apply Hdom.
Qed.

(** X22.  [cacheVertex] returns the record that is stored for the
    vertex afterwards, so that [cachedVertex] finds it; it changes no entry
    that was present, the one of this vertex included: a record that is
    cached but not carved is kept as it is and not replaced by the current
    position and normal, because [emplace] keeps an element whose key is
    present.  Only a vertex that was absent receives a fresh record. *)
Theorem cacheVertex_keeps_entries (index : nat) (p n : P) cache cache' vd :
  Carve.cacheVertex zeroF index p n cache = (cache', vd) →
  Carve.cachedVertex index cache' = Some vd
  ∧ (∀ j old, cache !! j = Some old → cache' !! j = Some old)
  ∧ (∀ j, j ≠ index → cache' !! j = cache !! j)
  ∧ (cache !! index = None → vd = Carve.newVertexData zeroF p n).
Proof. apply cacheVertex_inv. Qed.

(** X23.  [carveVertex] keeps position and normal of the record,
    marks it as carved, sets its delta to the old delta or to the value of
    the brush at the record's distance, and returns position + normal * delta
    for the delta it has set; carving the same record again from the same
    point changes nothing more. *)
Theorem carveVertex_idempotent (poa : P) vd :
  Carve.position (carveVertex' poa vd).1 = Carve.position vd
  ∧ Carve.normal (carveVertex' poa vd).1 = Carve.normal vd
  ∧ Carve.wasCarved (carveVertex' poa vd).1 = true
  ∧ (Carve.getDelta (carveVertex' poa vd).1 = Carve.getDelta vd
     ∨ Carve.getDelta (carveVertex' poa vd).1 = Carve.brushDelta distance brushY poa vd)
  ∧ (carveVertex' poa vd).2
    = add (Carve.position vd)
          (scale (Carve.normal vd) (Carve.getDelta (carveVertex' poa vd).1))
  ∧ carveVertex' poa (carveVertex' poa vd).1 = carveVertex' poa vd.
Proof. apply carveVertex_inv. Qed.

(** X24.  The loop of [carveFaces] that computes the new
    positions runs through (no [assert (false)] in [cachedVertex]) exactly
    when every vertex of the affected faces is cached; it then yields one
    position per vertex, so the assertion on the two sizes holds, every such
    vertex is marked as carved in the cache, the other records are unchanged
    and no record is added. *)
Theorem computeNewPositions_spec (poa : P) (vertices : list nat) cache :
  (is_Some (computeNewPositions' poa vertices cache)
   ↔ Forall (fun v => is_Some (cache !! v)) vertices)
  ∧ ∀ cache' newPositions,
      computeNewPositions' poa vertices cache = Some (cache', newPositions) →
      length newPositions = length vertices
      ∧ (∀ v, v ∈ vertices →
           ∃ vd, cache' !! v = Some vd ∧ Carve.wasCarved vd = true)
      ∧ (∀ v, v ∉ vertices → cache' !! v = cache !! v)
      ∧ (∀ v, is_Some (cache' !! v) ↔ is_Some (cache !! v)).
Proof. apply computeNewPositions_inv. Qed.
End Cache.

Lemma cacheVertex_keeps_entries_witness :
  ∃ cache' vd,
    Carve.cacheVertex 0%Z 1 9%Z 9%Z {[1 := Carve.newVertexData 0%Z 5%Z 7%Z]}
    = (cache', vd)
    ∧ cache' !! 1 = Some (Carve.newVertexData 0%Z 5%Z 7%Z).
Proof.
  destruct (Carve.cacheVertex 0%Z 1 9%Z 9%Z {[1 := Carve.newVertexData 0%Z 5%Z 7%Z]})
    as [cache' vd] eqn:E.
  exists cache', vd. split; [reflexivity|].
  destruct (cacheVertex_keeps_entries _ _ _ _ _ _ _ E) as (_ & H & _).
  apply H. reflexivity.
Defined.
End CarveFacts.

(** ** [extendAndFilterDomain] *)

Section FrontierFacts.
Context {P : Type}.
Implicit Types (m : DynamicMesh P) (faces : DynamicFaces) (l : list nat).

Lemma extendInto_spec (frontier : gset nat) l faces (ext : gset nat) :
  indices (foldl (extendInto frontier) (faces, ext) l).1 = indices faces
  ∧ ∀ x, x ∈ uncommitted (foldl (extendInto frontier) (faces, ext) l).1
         ↔ x ∈ uncommitted faces
           ∨ (x ∈ l ∧ (x ∉ indices faces) ∧ x ∉ frontier).
Proof.
  revert faces ext. induction l as [|a l IH]; intros faces ext; cbn [foldl].
  - split; [done|]. intros x. rewrite elem_of_nil. tauto.
  - unfold extendInto at 2 4. unfold Faces.contains.
    destruct (decide (a ∈ indices faces)) as [Ha|Ha].
    { rewrite bool_decide_eq_true_2 by done. cbn [negb andb].
      destruct (IH faces ext) as [H1 H2]. split; [done|]. intros x.
      rewrite H2, elem_of_cons. split; [tauto|].
      intros [?|[[->|?] [? ?]]]; tauto. }
    rewrite bool_decide_eq_false_2 by done. cbn [negb andb].
    destruct (decide (a ∈ frontier)) as [Hf|Hf].
    { rewrite bool_decide_eq_false_2 by tauto.
      destruct (IH faces ext) as [H1 H2]. split; [done|]. intros x.
      rewrite H2, elem_of_cons. split; [tauto|].
      intros [?|[[->|?] [? ?]]]; tauto. }
    rewrite bool_decide_eq_true_2 by done.
    destruct (IH (Faces.insert a faces) ({[a]} ∪ ext)) as [H1 H2]. split; [done|].
    intros x. rewrite H2. cbn [Faces.insert uncommitted indices].
    rewrite elem_of_app, !elem_of_cons, elem_of_nil. split.
    + intros [[?|[->|[]]]|[? ?]]; tauto.
    + intros [?|[[->|?] ?]]; tauto.
Qed.

Lemma extendFrontierFace_spec m (frontier : gset nat) faces (ext : gset nat) i faces1 ext1 :
  extendFrontierFace m frontier (faces, ext) i = Some (faces1, ext1) →
  indices faces1 = indices faces
  ∧ ∀ x, x ∈ uncommitted faces1
         ↔ x ∈ uncommitted faces
           ∨ ((x ∉ indices faces) ∧ (x ∉ frontier)
              ∧ ∃ v, hasCorner m v i = true ∧ x ∈ adjacentFaces m v).
Proof.
  unfold extendFrontierFace, hasCorner.
  destruct (vertexIndices m i) as [[[i1 i2] i3]|]; cbn [mbind option_bind]; [|done].
  destruct (foldl (extendInto frontier) (faces, ext) (adjacentFaces m i1))
    as [f1 e1] eqn:E1.
  destruct (foldl (extendInto frontier) (f1, e1) (adjacentFaces m i2))
    as [f2 e2] eqn:E2.
  destruct (foldl (extendInto frontier) (f2, e2) (adjacentFaces m i3))
    as [f3 e3] eqn:E3.
  intros [= <- <-].
  destruct (extendInto_spec frontier (adjacentFaces m i1) faces ext) as [A1 B1].
  destruct (extendInto_spec frontier (adjacentFaces m i2) f1 e1) as [A2 B2].
  destruct (extendInto_spec frontier (adjacentFaces m i3) f2 e2) as [A3 B3].
  rewrite E1 in A1, B1. rewrite E2 in A2, B2. rewrite E3 in A3, B3.
  cbn [fst] in A1, B1, A2, B2, A3, B3.
  split; [congruence|]. intros x. rewrite B3, B2, B1, A2, A1. split.
  - intros [[[?|(? & ? & ?)]|(? & ? & ?)]|(? & ? & ?)]; [by left|right..];
      (split; [done|]); (split; [done|]).
    + exists i1. by rewrite Nat.eqb_refl.
    + exists i2. by rewrite Nat.eqb_refl, orb_true_r.
    + exists i3. by rewrite Nat.eqb_refl, orb_true_r.
  - intros [?|(Hx & Hfr & v & Hv & Ha)]; [tauto|].
    apply orb_true_iff in Hv as [Hv|Hv%Nat.eqb_eq]; [|subst; tauto].
    apply orb_true_iff in Hv as [Hv%Nat.eqb_eq|Hv%Nat.eqb_eq]; subst; tauto.
Qed.

Lemma extendFrontier_spec m (frontier : gset nat) l faces (ext : gset nat) faces1 ext1 :
  extendFrontier m frontier l (faces, ext) = Some (faces1, ext1) →
  indices faces1 = indices faces
  ∧ ∀ x, x ∈ uncommitted faces1
         ↔ x ∈ uncommitted faces
           ∨ ((x ∉ indices faces) ∧ (x ∉ frontier)
              ∧ ∃ f v, f ∈ l ∧ hasCorner m v f = true ∧ x ∈ adjacentFaces m v).
Proof.
  revert faces ext. induction l as [|i l IH]; intros faces ext; cbn [extendFrontier].
  - intros [= <- <-]. split; [done|]. intros x. split; [tauto|].
    intros [?|(_ & _ & f & v & Hf & _)]; [done|]. by apply elem_of_nil in Hf.
  - destruct (extendFrontierFace m frontier (faces, ext) i) as [[fs e1]|] eqn:E;
      cbn [mbind option_bind]; [|done].
    intros H. apply IH in H as [A B]. apply extendFrontierFace_spec in E as [A' B'].
    split; [congruence|]. intros x. rewrite B, B', A'. split.
    + intros [[?|(? & ? & v & ? & ?)]|(? & ? & f & v & ? & ? & ?)]; [by left|right..];
        (split; [done|]); (split; [done|]).
      * exists i, v. split; [left|done].
      * exists f, v. split; [by right|done].
    + intros [?|(? & ? & f & v & [->|?]%elem_of_cons & ? & ?)]; [tauto| |].
      * left. right. eauto.
      * right. split; [done|]. split; [done|]. eauto.
Qed.

End FrontierFacts.

Section FilterDomainFacts.
Context {P : Type}.
Variable intersects : DynamicMesh P → nat → bool.
Variable contains : DynamicMesh P → nat → bool.
Variable enum : gset nat → list nat.
Hypothesis enum_elements : ∀ (s : gset nat) x, x ∈ enum s ↔ x ∈ s.
Implicit Types (m : DynamicMesh P) (faces : DynamicFaces) (l : list nat).

Lemma filterBySphere_spec m l (frontier frontier' : gset nat) (kept : list nat) :
  Faces.filterM (filterBySphere intersects contains m) l frontier
  = Some (frontier', kept) →
  kept = filter (fun i => intersects m i = true) l
  ∧ ∀ x, x ∈ frontier'
         ↔ x ∈ frontier ∨ (x ∈ l ∧ intersects m x = true ∧ contains m x = false).
Proof.
  revert frontier frontier' kept. induction l as [|i l IH]; intros fr fr' kept;
    cbn [Faces.filterM].
  - intros [= <- <-]. split; [done|]. intros x. rewrite elem_of_nil. tauto.
  - assert (Hstep : filterBySphere intersects contains m i fr
                    = Some (if intersects m i && negb (contains m i)
                            then {[ i ]} ∪ fr else fr, intersects m i)).
    { unfold filterBySphere. by destruct (intersects m i), (contains m i). }
    rewrite Hstep. cbn [mbind option_bind].
    match goal with
    | |- context [Faces.filterM ?f l ?s] =>
        destruct (Faces.filterM f l s) as [[fr2 kept2]|] eqn:E
    end; cbn [mbind option_bind]; [|done].
    intros [= <- <-]. apply IH in E as [-> H]. rewrite filter_cons. split.
    { destruct (intersects m i) eqn:Ei; [by rewrite decide_True|].
      rewrite decide_False; [done|]. by intros X. }
    intros x. rewrite H, elem_of_cons.
    destruct (intersects m i) eqn:Ei; destruct (contains m i) eqn:Ec; cbn [andb negb].
    + split; [tauto|]. intros [?|[[->|?] [? ?]]]; [tauto|congruence|tauto].
    + rewrite elem_of_union, elem_of_singleton. split.
      * intros [[->|?]|?]; tauto.
      * intros [?|[[->|?] [? ?]]]; tauto.
    + split; [tauto|]. intros [?|[[->|?] [? ?]]]; [tauto|congruence|tauto].
    + split; [tauto|]. intros [?|[[->|?] [? ?]]]; [tauto|congruence|tauto].
Qed.

Lemma extendAndFilterDomain_inv m faces (numRings : nat) faces' :
  numRings ≤ 1 →
  extendAndFilterDomain intersects contains enum m faces numRings = Some faces' →
  uncommitted faces' = []
  ∧ filter (fun i => intersects m i = true) (indices faces) `prefix_of` indices faces'
  ∧ (numRings = 0 →
     indices faces' = filter (fun i => intersects m i = true) (indices faces))
  ∧ (numRings = 1 →
     ∀ x, x ∈ indices faces'
          ↔ (x ∈ indices faces ∧ intersects m x = true)
            ∨ nearFrontier intersects contains m faces x).
Proof using enum_elements.
  intros Hn. unfold extendAndFilterDomain, Faces.hasUncomitted.
  destruct (uncommitted faces) eqn:Hu; cbn [negb assert mbind option_bind]; [|done].
  destruct (Faces.filterM _ _ _) as [[frontier kept]|] eqn:Ef; cbn [mbind option_bind];
    [|done].
  apply filterBySphere_spec in Ef as [-> Hfr].
  destruct numRings as [|[|n]]; [| |lia]; cbn [extendFrontierRings].
  - intros [= <-]. cbn [indices uncommitted]. split; [done|]. split; [done|].
    split; [done|]. intros X. discriminate X.
  - destruct (extendFrontier _ _ _ _) as [[faces1 ext1]|] eqn:E; cbn [mbind option_bind];
      [|done].
    intros [= <-]. apply extendFrontier_spec in E as [A B].
    cbn [indices uncommitted] in A, B.
    destruct (merge_spec (uncommitted faces1) (indices faces1)) as (M1 & M2 & M3).
    cbn [Faces.commit indices uncommitted]. rewrite A in M1, M2 |- *.
    split; [done|]. split; [done|]. split; [intros X; discriminate X|].
    intros _ x. rewrite M2, B, elem_of_nil, list_elem_of_filter. unfold nearFrontier.
    assert (Hfront : ∀ f, f ∈ enum frontier
                          ↔ f ∈ indices faces ∧ intersects m f = true
                            ∧ contains m f = false).
    { intros f. rewrite enum_elements, Hfr, elem_of_empty. tauto. }
    split.
    + intros [[? ?]|[[]|(_ & _ & f & v & Hf & Hv & Ha)]]; [left; tauto|].
      apply Hfront in Hf as (? & ? & ?). right. exists f, v. done.
    + intros [[? ?]|(f & v & Hf & Hi & Hc & Hv & Ha)]; [left; tauto|].
      destruct (decide (intersects m x = true ∧ x ∈ indices faces)) as [|Hno];
        [by left|].
      right. right. split; [done|]. split.
      { rewrite Hfr, elem_of_empty. tauto. }
      exists f, v. split; [|done]. apply Hfront. done.
Qed.

(** X25.  [extendAndFilterDomain] first keeps, in their
    order, the committed faces that intersect the sphere.  Without a ring
    that is the result.  With one ring (as [sculpt] calls it) the result
    holds besides them exactly the faces adjacent to a corner of a kept face
    that is not contained in the sphere; the staging buffer is empty
    afterwards.  The order in which the frontier set is visited plays no role
    for which faces are in the result. *)
Theorem extendAndFilterDomain_one_ring m faces (numRings : nat) faces' :
  numRings ≤ 1 →
  extendAndFilterDomain intersects contains enum m faces numRings = Some faces' →
  uncommitted faces' = []
  ∧ filter (fun i => intersects m i = true) (indices faces) `prefix_of` indices faces'
  ∧ (numRings = 0 →
     indices faces' = filter (fun i => intersects m i = true) (indices faces))
  ∧ (numRings = 1 →
     ∀ x, x ∈ indices faces'
          ↔ (x ∈ indices faces ∧ intersects m x = true)
            ∨ nearFrontier intersects contains m faces x).
Proof using enum_elements. apply extendAndFilterDomain_inv. Qed.
End FilterDomainFacts.

Lemma extendAndFilterDomain_one_ring_witness :
  ∃ faces',
    extendAndFilterDomain (fun _ i => i =? 0) (fun _ _ => false) elements
                          Example.octahedron (mkFaces [0; 2] []) 1 = Some faces'
    ∧ 7 ∈ indices faces' ∧ uncommitted faces' = [].
Proof.
  destruct (extendAndFilterDomain (fun _ i => i =? 0) (fun _ _ => false) elements
              Example.octahedron (mkFaces [0; 2] []) 1) as [faces'|] eqn:E;
    [|vm_compute in E; discriminate].
  destruct (extendAndFilterDomain_one_ring (fun _ i => i =? 0) (fun _ _ => false)
              elements (fun s x => elem_of_elements s x) _ _ _ _ (Nat.le_refl 1) E)
    as (Hu & _ & _ & Hring).
  exists faces'. split; [reflexivity|]. split; [|exact Hu].
  apply (Hring eq_refl). right. exists 0, 1. split; [left|].
  split; [reflexivity|]. split; [reflexivity|]. split; [reflexivity|].
  apply (bool_decide_unpack _). vm_compute. exact I.
Defined.

(** ** [smooth] *)

Module SmoothFacts.
Import SplitPosition.
Local Open Scope R_scope.

Lemma tangential_tangent (avgPos normal p : vec3) :
  dot normal normal = 1 →
  dot (Smooth.sub (Smooth.tangential avgPos normal p) p) normal = 0.
Proof.
  destruct avgPos as [[a1 a2] a3], normal as [[n1 n2] n3], p as [[p1 p2] p3].
  unfold Smooth.tangential, Smooth.sub, dot, scale. cbn. intros H.
  replace ((a1 - (n1 * (a1 - p1) + n2 * (a2 - p2) + n3 * (a3 - p3)) * n1 - p1) * n1 +
           (a2 - (n1 * (a1 - p1) + n2 * (a2 - p2) + n3 * (a3 - p3)) * n2 - p2) * n2 +
           (a3 - (n1 * (a1 - p1) + n2 * (a2 - p2) + n3 * (a3 - p3)) * n3 - p3) * n3)
    with ((n1 * (a1 - p1) + n2 * (a2 - p2) + n3 * (a3 - p3))
          * (1 - (n1 * n1 + n2 * n2 + n3 * n3))) by ring.
  rewrite H. ring.
Qed.

Lemma combine_is_projection (p1 p2 p3 t : vec3) :
  dot (cross (Smooth.sub p2 p1) (Smooth.sub p3 p1))
      (cross (Smooth.sub p2 p1) (Smooth.sub p3 p1)) ≠ 0 →
  let proj := Smooth.combine p1 p2 p3 (Smooth.barycentric p1 p2 p3 t) in
  dot (Smooth.sub proj p1) (cross (Smooth.sub p2 p1) (Smooth.sub p3 p1)) = 0
  ∧ dot (Smooth.sub t proj) (Smooth.sub p2 p1) = 0
  ∧ dot (Smooth.sub t proj) (Smooth.sub p3 p1) = 0.
Proof.
  destruct p1 as [[x1 y1] z1], p2 as [[x2 y2] z2], p3 as [[x3 y3] z3],
    t as [[tx ty] tz].
  unfold Smooth.combine, Smooth.barycentric, Smooth.sub, dot, cross, add, scale.
  cbn. intros Hn. repeat split; field; exact Hn.
Qed.

(** X26.  The point [tangentialPos] that [smooth] computes for
    a vertex with a unit normal lies in the tangent plane of the vertex: its
    offset from the vertex position is orthogonal to the normal. *)
Theorem tangential_in_tangent_plane (avgPos normal p : vec3) :
  dot normal normal = 1 →
  dot (Smooth.sub (Smooth.tangential avgPos normal p) p) normal = 0.
Proof. apply tangential_tangent. Qed.

(** X27.  For a face with non-zero area, the point
    [proj = b3 * p1 + b2 * p2 + b1 * p3] of the loop body is the orthogonal
    projection of [tangentialPos] onto the plane of the face: it lies in that
    plane and its offset from [tangentialPos] is orthogonal to both edges at
    [p1]. *)
Theorem combine_orthogonal_projection (p1 p2 p3 t : vec3) :
  dot (cross (Smooth.sub p2 p1) (Smooth.sub p3 p1))
      (cross (Smooth.sub p2 p1) (Smooth.sub p3 p1)) ≠ 0 →
  let proj := Smooth.combine p1 p2 p3 (Smooth.barycentric p1 p2 p3 t) in
  dot (Smooth.sub proj p1) (cross (Smooth.sub p2 p1) (Smooth.sub p3 p1)) = 0
  ∧ dot (Smooth.sub t proj) (Smooth.sub p2 p1) = 0
  ∧ dot (Smooth.sub t proj) (Smooth.sub p3 p1) = 0.
Proof. apply combine_is_projection. Qed.

Section Selection.
Variable epsilon : R.
Variable averagePosition : DynamicMesh vec3 → nat → vec3.
Implicit Types (m : DynamicMesh vec3) (t : vec3) (st : option R * vec3).

Local Abbreviation closestAmong := (Smooth.closestAmong epsilon).

Lemma projectOnFace_candidate m t st a st' :
  Smooth.projectOnFace epsilon m t st a = Some st' →
  st' = match Smooth.candidate epsilon m t a with
        | Some proj =>
            if match fst st with
               | Some minDistance => Smooth.ltR (Smooth.distance2 t proj) minDistance
               | None => true
               end
            then (Some (Smooth.distance2 t proj), proj) else st
        | None => st
        end.
Proof.
  unfold Smooth.projectOnFace, Smooth.candidate.
  destruct (vertexIndices m a) as [[[i1 i2] i3]|]; cbn [mbind option_bind]; [|done].
  destruct (vertex m i1) as [p1|]; cbn [mbind option_bind]; [|done].
  destruct (vertex m i2) as [p2|]; cbn [mbind option_bind]; [|done].
  destruct (vertex m i3) as [p3|]; cbn [mbind option_bind]; [|done].
  destruct (Smooth.barycentric p1 p2 p3 t) as [[b1 b2] b3].
  destruct (Smooth.inRange epsilon b1 && Smooth.inRange epsilon b2
            && Smooth.inRange epsilon b3); [|by intros [= <-]].
  destruct (match fst st with Some _ => _ | None => _ end); by intros [= <-].
Qed.

Lemma ltR_true (a b : R) : Smooth.ltR a b = true ↔ a < b.
Proof. unfold Smooth.ltR. destruct (Rlt_dec a b); split; try done. Qed.

Lemma ltR_false (a b : R) : Smooth.ltR a b = false ↔ b <= a.
Proof.
  unfold Smooth.ltR. destruct (Rlt_dec a b); split; try done; intros; lra.
Qed.

Lemma projectOnFace_closest m t (l : list nat) st a st' :
  closestAmong m t l st →
  Smooth.projectOnFace epsilon m t st a = Some st' →
  closestAmong m t (l ++ [a]) st'.
Proof.
  intros Hst H. apply projectOnFace_candidate in H. subst st'.
  destruct st as [md pp]. unfold Smooth.closestAmong in *. cbn [fst snd] in *.
  destruct (Smooth.candidate epsilon m t a) as [proj|] eqn:Ec.
  - destruct md as [d|].
    + destruct Hst as (Hd & (a0 & Ha0 & Hc0) & Hmin).
      destruct (Smooth.ltR (Smooth.distance2 t proj) d) eqn:Hlt; cbn [fst snd].
      * apply ltR_true in Hlt. split; [done|]. split.
        { exists a. split; [|done]. apply elem_of_app. right. by left. }
        intros a' proj' Ha' Hc'. apply elem_of_app in Ha' as [Ha'|Ha'].
        -- specialize (Hmin a' proj' Ha' Hc'). lra.
        -- apply list_elem_of_singleton in Ha' as ->.
           assert (proj' = proj) as -> by congruence. lra.
      * apply ltR_false in Hlt. split; [done|]. split.
        { exists a0. split; [|done]. apply elem_of_app. by left. }
        intros a' proj' Ha' Hc'. apply elem_of_app in Ha' as [Ha'|Ha'].
        -- by apply (Hmin a' proj').
        -- apply list_elem_of_singleton in Ha' as ->.
           assert (proj' = proj) as -> by congruence. lra.
    + cbn [fst snd]. split; [done|]. split.
      { exists a. split; [|done]. apply elem_of_app. right. by left. }
      intros a' proj' Ha' Hc'. apply elem_of_app in Ha' as [Ha'|Ha'].
      -- rewrite (Hst a' Ha') in Hc'. done.
      -- apply list_elem_of_singleton in Ha' as ->.
         assert (proj' = proj) as -> by congruence. lra.
  - destruct md as [d|].
    + destruct Hst as (Hd & (a0 & Ha0 & Hc0) & Hmin). split; [done|]. split.
      { exists a0. split; [|done]. apply elem_of_app. by left. }
      intros a' proj' Ha' Hc'. apply elem_of_app in Ha' as [Ha'|Ha'].
      -- by apply (Hmin a' proj').
      -- apply list_elem_of_singleton in Ha' as ->. congruence.
    + intros a' Ha'. apply elem_of_app in Ha' as [Ha'|Ha']; [by apply Hst|].
      by apply list_elem_of_singleton in Ha' as ->.
Qed.

Lemma projectOnFaces_closest m t (l0 l : list nat) st st' :
  closestAmong m t l0 st →
  Smooth.projectOnFaces epsilon m t l st = Some st' →
  closestAmong m t (l0 ++ l) st'.
Proof.
  revert l0 st. induction l as [|a l IH]; intros l0 st Hst; cbn [Smooth.projectOnFaces].
  - intros [= <-]. by rewrite app_nil_r.
  - destruct (Smooth.projectOnFace epsilon m t st a) as [st1|] eqn:E;
      cbn [mbind option_bind]; [|done].
    intros H. rewrite (cons_middle a l0 l), app_assoc.
    eapply IH; [|exact H]. by eapply projectOnFace_closest.
Qed.

Lemma newPosition_inv m (i : nat) (p : vec3) :
  Smooth.newPosition epsilon averagePosition m i = Some p →
  ∃ e, vertexEntry m i = Some e
    ∧ let t := Smooth.tangential (averagePosition m i) (normal e) (position e) in
      (p = t ∧ ∀ a, a ∈ adjacentFaces m i → Smooth.candidate epsilon m t a = None)
      ∨ (∃ a, a ∈ adjacentFaces m i ∧ Smooth.candidate epsilon m t a = Some p)
        ∧ ∀ a proj, a ∈ adjacentFaces m i →
                    Smooth.candidate epsilon m t a = Some proj →
                    Smooth.distance2 t p <= Smooth.distance2 t proj.
Proof.
  unfold Smooth.newPosition.
  destruct (vertexEntry m i) as [e|]; cbn [mbind option_bind]; [|done].
  destruct (Smooth.projectOnFaces _ _ _ _ _) as [[md pp]|] eqn:E;
    cbn [mbind option_bind]; [|done].
  intros [= <-]. exists e. split; [done|]. cbn zeta.
  eapply (projectOnFaces_closest _ _ []) in E.
  2:{ intros a Ha. by apply elem_of_nil in Ha. }
  unfold Smooth.closestAmong in E. cbn [fst snd app] in E.
  destruct md as [d|].
  - right. destruct E as (-> & H1 & H2). done.
  - left. done.
Qed.

Lemma isFreeVertex_vertex m (i : nat) : isFreeVertex m i = false → is_Some (vertex m i).
Proof.
  unfold isFreeVertex, vertex. destruct (vertexEntry m i); [by eauto|done].
Qed.

Lemma projectOnFaces_total m t (l : list nat) st :
  Forall (fun a => ∃ i1 i2 i3, vertexIndices m a = Some (i1, i2, i3)
                     ∧ isFreeVertex m i1 = false ∧ isFreeVertex m i2 = false
                     ∧ isFreeVertex m i3 = false) l →
  is_Some (Smooth.projectOnFaces epsilon m t l st).
Proof.
  intros Hl. revert st. induction Hl as [|a l Ha _ IH]; intros st;
    cbn [Smooth.projectOnFaces]; [by eauto|].
  destruct Ha as (i1 & i2 & i3 & Hf & H1 & H2 & H3).
  apply isFreeVertex_vertex in H1 as [p1 H1]. apply isFreeVertex_vertex in H2 as [p2 H2].
  apply isFreeVertex_vertex in H3 as [p3 H3].
  assert (Hstep : is_Some (Smooth.projectOnFace epsilon m t st a)).
  { unfold Smooth.projectOnFace. rewrite Hf. cbn [mbind option_bind].
    rewrite H1. cbn [mbind option_bind]. rewrite H2. cbn [mbind option_bind].
    rewrite H3. cbn [mbind option_bind].
    destruct (Smooth.barycentric p1 p2 p3 t) as [[b1 b2] b3].
    destruct (_ && _); [|by eauto].
    destruct (fst st) as [md|]; [destruct (Smooth.ltR _ md)|]; by eauto. }
  destruct Hstep as [st1 ->]. cbn [mbind option_bind]. apply IH.
Qed.

Lemma newPosition_total m (i : nat) :
  Smooth.readable m i → is_Some (Smooth.newPosition epsilon averagePosition m i).
Proof.
  intros [Hlive Hadj]. unfold Smooth.newPosition.
  unfold isFreeVertex in Hlive. destruct (vertexEntry m i) as [e|]; [|done].
  cbn [mbind option_bind].
  destruct (projectOnFaces_total m
              (Smooth.tangential (averagePosition m i) (normal e) (position e))
              (adjacentFaces m i) (None, (0, 0, 0)) Hadj) as [[md pp] ->].
  cbn [mbind option_bind]. by eauto.
Qed.

End Selection.

Section Frame.
Variable epsilon : R.
Variable averagePosition : DynamicMesh vec3 → nat → vec3.
Implicit Types (m : DynamicMesh vec3).

Lemma setVertex_frame v (p : vec3) m m' :
  setVertex v p m = Some m' →
  vertex m' v = Some p
  ∧ faceTable m' = faceTable m
  ∧ (∀ u, u ≠ v → vertexEntry m' u = vertexEntry m u)
  ∧ (∀ u, adjacentFaces m' u = adjacentFaces m u)
  ∧ (∀ u, normal <$> vertexEntry m' u = normal <$> vertexEntry m u).
Proof.
  unfold setVertex. destruct (vertexEntry m v) as [e|] eqn:E; cbn [mbind option_bind];
    [|done].
  intros [= <-]. apply vertexEntry_lt in E as Hlt. split.
  { unfold vertex. rewrite vertexEntry_setEntry by done. by rewrite decide_True. }
  split; [done|]. split.
  { intros u Hu. rewrite vertexEntry_setEntry by done. by rewrite decide_False. }
  split.
  { intros u. unfold adjacentFaces. rewrite vertexEntry_setEntry by done.
    destruct (decide (u = v)) as [->|]; [by rewrite E|done]. }
  intros u. rewrite vertexEntry_setEntry by done.
  destruct (decide (u = v)) as [->|]; [by rewrite E|done].
Qed.

Lemma recordPositions_inv m (l : list nat) (ps : list (nat * vec3)) :
  Smooth.recordPositions epsilon averagePosition m l = Some ps →
  ps.*1 = l
  ∧ ∀ i p, (i, p) ∈ ps → Smooth.newPosition epsilon averagePosition m i = Some p.
Proof.
  revert ps. induction l as [|i l IH]; intros ps; cbn [Smooth.recordPositions].
  - intros [= <-]. split; [done|]. intros i p H. by apply elem_of_nil in H.
  - destruct (Smooth.newPosition epsilon averagePosition m i) as [p|] eqn:Ep;
      cbn [mbind option_bind]; [|done].
    destruct (Smooth.recordPositions epsilon averagePosition m l) as [ps1|] eqn:E;
      cbn [mbind option_bind]; [|done].
    intros [= <-]. destruct (IH _ eq_refl) as [H1 H2]. split.
    + cbn. by rewrite H1.
    + intros j q Hj. apply elem_of_cons in Hj as [[= -> ->]|Hj]; [done|]. by apply H2.
Qed.

Lemma writePositions_inv (ps : list (nat * vec3)) m m' :
  NoDup ps.*1 →
  Smooth.writePositions ps m = Some m' →
  faceTable m' = faceTable m
  ∧ (∀ u, adjacentFaces m' u = adjacentFaces m u)
  ∧ (∀ u, normal <$> vertexEntry m' u = normal <$> vertexEntry m u)
  ∧ (∀ i p, (i, p) ∈ ps → vertex m' i = Some p)
  ∧ (∀ u, u ∉ ps.*1 → vertexEntry m' u = vertexEntry m u).
Proof.
  revert m. induction ps as [|[i p] ps IH]; intros m Hnd; cbn [Smooth.writePositions].
  - intros [= <-]. repeat split; try done. intros i p H. by apply elem_of_nil in H.
  - destruct (setVertex i p m) as [m1|] eqn:E1; cbn [mbind option_bind]; [|done].
    intros H. cbn [fmap list_fmap fst] in Hnd. apply NoDup_cons in Hnd as [Hi Hnd].
    destruct (IH _ Hnd H) as (F1 & F2 & F3 & F4 & F5).
    destruct (setVertex_frame _ _ _ _ E1) as (S1 & S2 & S3 & S4 & S5).
    split; [congruence|]. split; [intros u; by rewrite F2|].
    split; [intros u; by rewrite F3|]. split.
    + intros j q Hj. apply elem_of_cons in Hj as [[= -> ->]|Hj]; [|by apply F4].
      unfold vertex. rewrite (F5 i Hi). exact S1.
    + intros u Hu. cbn [fmap list_fmap fst] in Hu.
      apply not_elem_of_cons in Hu as [Hne Hu]. rewrite (F5 u Hu). by apply S3.
Qed.

Lemma recordPositions_total m (l : list nat) :
  (∀ i, i ∈ l → Smooth.readable m i) →
  is_Some (Smooth.recordPositions epsilon averagePosition m l).
Proof.
  induction l as [|i l IH]; intros Hl; cbn [Smooth.recordPositions]; [by eauto|].
  destruct (newPosition_total epsilon averagePosition m i) as [p ->].
  { apply Hl. by left. }
  cbn [mbind option_bind]. destruct IH as [ps ->].
  { intros j Hj. apply Hl. by right. }
  cbn [mbind option_bind]. by eauto.
Qed.

Lemma writePositions_total (ps : list (nat * vec3)) m :
  (∀ i, i ∈ ps.*1 → isFreeVertex m i = false) →
  is_Some (Smooth.writePositions ps m).
Proof.
  revert m. induction ps as [|[i p] ps IH]; intros m Hl; cbn [Smooth.writePositions];
    [by eauto|].
  assert (Hi : isFreeVertex m i = false) by (apply Hl; by left).
  unfold isFreeVertex in Hi. destruct (vertexEntry m i) as [e|] eqn:E; [|done].
  destruct (setVertex i p m) as [m1|] eqn:E1.
  2:{ unfold setVertex in E1. by rewrite E in E1. }
  cbn [mbind option_bind]. apply IH. intros j Hj.
  destruct (setVertex_frame _ _ _ _ E1) as (S1 & _ & S3 & _).
  destruct (decide (j = i)) as [->|Hne].
  - unfold isFreeVertex. unfold vertex in S1. by destruct (vertexEntry m1 i).
  - unfold isFreeVertex. rewrite (S3 j Hne). apply Hl. by right.
Qed.

Lemma smooth_total m (faces : DynamicFaces) :
  (∀ i, i ∈ regionVertices m faces → Smooth.readable m i) →
  is_Some (Smooth.smooth epsilon averagePosition m faces).
Proof.
  intros Hl. unfold Smooth.smooth.
  destruct (recordPositions_total m _ Hl) as [ps E]. rewrite E.
  cbn [mbind option_bind]. apply writePositions_total.
  apply recordPositions_inv in E as [-> _]. intros i Hi. by apply Hl.
Qed.

Lemma smooth_inv m (faces : DynamicFaces) m' :
  Smooth.smooth epsilon averagePosition m faces = Some m' →
  faceTable m' = faceTable m
  ∧ (∀ u, adjacentFaces m' u = adjacentFaces m u)
  ∧ (∀ u, normal <$> vertexEntry m' u = normal <$> vertexEntry m u)
  ∧ (∀ i, i ∈ regionVertices m faces →
          ∃ p, Smooth.newPosition epsilon averagePosition m i = Some p
               ∧ vertex m' i = Some p)
  ∧ (∀ u, u ∉ regionVertices m faces → vertexEntry m' u = vertexEntry m u).
Proof.
  unfold Smooth.smooth.
  destruct (Smooth.recordPositions _ _ _ _) as [ps|] eqn:E; cbn [mbind option_bind];
    [|done].
  intros H. apply recordPositions_inv in E as [E1 E2].
  assert (Hnd : NoDup ps.*1).
  { rewrite E1. unfold regionVertices. apply NoDup_remove_dups. }
  destruct (writePositions_inv _ _ _ Hnd H) as (F1 & F2 & F3 & F4 & F5).
  split; [done|]. split; [done|]. split; [done|]. split.
  - intros i Hi. rewrite <- E1 in Hi. apply list_elem_of_fmap in Hi as [[j p] [-> Hjp]].
    exists p. split; [by apply E2|by apply F4].
  - intros u Hu. apply F5. by rewrite E1.
Qed.

End Frame.

Lemma tangential_in_tangent_plane_witness :
  dot (Smooth.sub (Smooth.tangential (1 / 4, 1 / 4, 1) (0, 0, 1) (0, 0, 0)) (0, 0, 0))
      (0, 0, 1) = 0.
Proof. apply tangential_in_tangent_plane. cbn. lra. Defined.

Lemma combine_orthogonal_projection_witness :
  dot (Smooth.sub (1 / 4, 1 / 4, 1)
         (Smooth.combine (0, 0, 0) (1, 0, 0) (0, 1, 0)
            (Smooth.barycentric (0, 0, 0) (1, 0, 0) (0, 1, 0) (1 / 4, 1 / 4, 1))))
      (Smooth.sub (1, 0, 0) (0, 0, 0)) = 0.
Proof.
  refine (proj1 (proj2 (combine_orthogonal_projection (0, 0, 0) (1, 0, 0) (0, 1, 0)
                          (1 / 4, 1 / 4, 1) _))).
  cbn. lra.
Defined.

Lemma readable_flatTriangle (i : nat) :
  i ∈ [0; 1; 2]%nat → Smooth.readable Smooth.flatTriangle i.
Proof.
  intros Hi. rewrite !elem_of_cons, elem_of_nil in Hi.
  destruct Hi as [-> | [-> | [-> | []]]];
    (split; [reflexivity|]);
    (apply Forall_cons; split; [|by apply Forall_nil]);
    exists 0%nat, 1%nat, 2%nat; repeat split; reflexivity.
Qed.



End SmoothFacts.

(** ** [smoothMesh] *)

Section RelaxLive.
Context {P : Type}.
Implicit Types (m : DynamicMesh P).

Lemma flipEdge_live m (edge : nat * nat) lf lv rf rv m' nl nr v :
  flipEdge m edge lf lv rf rv = Some (m', nl, nr) →
  isFreeVertex m' v = isFreeVertex m v.
Proof.
  unfold flipEdge.
  destruct (deleteFace lf m) as [m1|] eqn:E1; cbn [mbind option_bind]; [|done].
  destruct (deleteFace rf m1) as [m2|] eqn:E2; cbn [mbind option_bind]; [|done].
  destruct (addFace lv edge.1 rv m2) as [[m3 g3]|] eqn:E3; cbn [mbind option_bind];
    [|done].
  destruct (addFace rv edge.2 lv m3) as [[m4 g4]|] eqn:E4; cbn [mbind option_bind];
    [|done].
  intros [= <- _ _].
  rewrite (addFace_live _ _ _ _ _ _ v E4), (addFace_live _ _ _ _ _ _ v E3),
    (deleteFace_live _ _ _ v E2), (deleteFace_live _ _ _ v E1). done.
Qed.

Lemma relaxEdge_live m (edge : nat * nat) m' v :
  relaxEdge m edge = Some m' → isFreeVertex m' v = isFreeVertex m v.
Proof.
  unfold relaxEdge.
  destruct (findAdjacent m edge.1 edge.2) as [[[[lf lv] rf] rv]|];
    cbn [mbind option_bind]; [|done].
  destruct (isRelaxable m edge lv rv); [|by intros [= <-]].
  destruct (flipEdge m edge lf lv rf rv) as [[[m1 nl] nr]|] eqn:E;
    cbn [mbind option_bind]; [|done].
  destruct (assert (nl =? rf)); cbn [mbind option_bind]; [|done].
  destruct (assert (nr =? lf)); cbn [mbind option_bind]; [|done].
  intros [= <-]. by eapply flipEdge_live.
Qed.

Lemma relaxEdges_live m (faces : DynamicFaces) m' :
  relaxEdges m faces = Some m' →
  (∀ f, isFreeFace m' f = isFreeFace m f) ∧ (∀ v, isFreeVertex m' v = isFreeVertex m v).
Proof.
  unfold relaxEdges. destruct (assert _); cbn [mbind option_bind]; [|done].
  destruct (candidateEdges m faces) as [es|]; cbn [mbind option_bind]; [|done].
  intros H. split; [intros f; by eapply relaxEdges_loop_isFreeFace|].
  intros v. revert m H. induction es as [|e es IH]; intros m; cbn [relaxEdges_loop].
  - by intros [= <-].
  - destruct (relaxEdge m e) as [m1|] eqn:E; cbn [mbind option_bind]; [|done].
    intros H. rewrite (IH _ H). by eapply relaxEdge_live.
Qed.
End RelaxLive.

Section SmoothMesh.
Import SplitPosition.
Variable epsilon : R.
Variables averagePosition computeNormal : DynamicMesh vec3 → nat → vec3.
Implicit Types (m : DynamicMesh vec3).

Lemma smooth_live m (faces : DynamicFaces) m' :
  Smooth.smooth epsilon averagePosition m faces = Some m' →
  (∀ f, isFreeFace m' f = isFreeFace m f) ∧ (∀ v, isFreeVertex m' v = isFreeVertex m v).
Proof.
  intros H. apply SmoothFacts.smooth_inv in H as (F1 & _ & F3 & _).
  split.
  - intros f. unfold isFreeFace, vertexIndices. by rewrite F1.
  - intros v. unfold isFreeVertex. specialize (F3 v).
    destruct (vertexEntry m' v), (vertexEntry m v); done.
Qed.

Lemma smoothMesh_inv m m' :
  smoothMesh epsilon averagePosition computeNormal m = Some m' →
  (∀ f, isFreeFace m' f = isFreeFace m f)
  ∧ (∀ v, isFreeVertex m' v = isFreeVertex m v).
Proof.
  unfold smoothMesh.
  destruct (relaxEdges m _) as [m1|] eqn:E1; cbn [mbind option_bind]; [|done].
  destruct (Smooth.smooth epsilon averagePosition m1 _) as [m2|] eqn:E2;
    cbn [mbind option_bind]; [|done].
  intros [= <-].
  apply relaxEdges_live in E1 as [R1 R2]. apply smooth_live in E2 as [S1 S2].
  pose proof (@finalize_forget vec3 (0, 0, 0)%R computeNormal m2
                (Faces.commit (Faces.insertAll (liveFaces m) Faces.empty))) as Hf.
  assert (Hff : ∀ f, isFreeFace (finalize computeNormal m2
                       (Faces.commit (Faces.insertAll (liveFaces m) Faces.empty))) f
                     = isFreeFace m2 f).
  { intros f. etrans; [symmetry; apply (@isFreeFace_forget vec3 (0, 0, 0)%R)|].
    rewrite Hf. apply isFreeFace_forget. }
  assert (Hfv : ∀ v, isFreeVertex (finalize computeNormal m2
                       (Faces.commit (Faces.insertAll (liveFaces m) Faces.empty))) v
                     = isFreeVertex m2 v).
  { intros v. etrans; [symmetry; apply (@isFreeVertex_forget vec3 (0, 0, 0)%R)|].
    rewrite Hf. apply isFreeVertex_forget. }
  split; [intros f; by rewrite Hff, S1, R1|].
  intros v. by rewrite Hfv, S2, R2.
Qed.

(** X30.  [ToolSculptAction::smoothMesh] (relax, smooth and
    finalize over all live faces) adds and removes no face and no vertex:
    the live face indices and the live vertex indices are the same after the
    call as before. *)
Theorem smoothMesh_keeps_elements m m' :
  smoothMesh epsilon averagePosition computeNormal m = Some m' →
  (∀ f, isFreeFace m' f = isFreeFace m f)
  ∧ (∀ v, isFreeVertex m' v = isFreeVertex m v).
Proof. apply smoothMesh_inv. Qed.
End SmoothMesh.

Lemma smoothMesh_keeps_elements_witness :
  ∃ m', smoothMesh 0 (fun _ _ => (1 / 4, 1 / 4, 1)%R) (fun _ _ => (0, 0, 1)%R)
                   Smooth.flatTriangle = Some m'
        ∧ isFreeFace m' 0 = false.
Proof.
  assert (E : ∃ m', smoothMesh 0 (fun _ _ => (1 / 4, 1 / 4, 1)%R)
                      (fun _ _ => (0, 0, 1)%R) Smooth.flatTriangle = Some m').
  { unfold smoothMesh.
    assert (E1 : relaxEdges Smooth.flatTriangle
                   (Faces.commit (Faces.insertAll (liveFaces Smooth.flatTriangle)
                                                  Faces.empty))
                 = Some Smooth.flatTriangle) by reflexivity.
    rewrite E1. cbn [mbind option_bind].
    destruct (SmoothFacts.smooth_total 0 (fun _ _ => (1 / 4, 1 / 4, 1)%R)
                Smooth.flatTriangle
                (Faces.commit (Faces.insertAll (liveFaces Smooth.flatTriangle)
                                               Faces.empty)))
      as [m2 E2].
    { intros i Hi. apply SmoothFacts.readable_flatTriangle. exact Hi. }
    rewrite E2. cbn [mbind option_bind]. eauto. }
  destruct E as [m' E]. exists m'. split; [exact E|].
  destruct (smoothMesh_keeps_elements _ _ _ _ _ E) as [Hf _].
  rewrite Hf. reflexivity.
Defined.
